(** * VideoCall: stream presentation and voice-activity detection

    A shallow embedding of [src/components/VideoCall.js].  The component is a
    React function component; its behaviour is a reaction to events delivered
    by the browser (prop changes, promise settlements, animation frames,
    timers, user interaction).  The embedding keeps one [World] value holding
    the component's props, its [useState] cells, [videoRef.current], the
    listener registries of [document] and of the media streams, and the
    platform's table of pending promises, timers and analysis loops.  Each
    event runs the code the source attaches to it and is followed by a React
    render/commit/effects pass ([flush]).

    Conventions:
    - streams, requests, listeners are identified by natural numbers
      (object identity in the source); timer ids are [positive], as
      [setTimeout] returns an integer greater than zero, so the source's
      truthiness test [if (silenceTimeout)] is a test for [Some];
    - state updates made by one event are batched and rendered when the
      event's code has run to completion or to its next [await];
    - a state setter called after unmount is ignored. *)

From Stdlib Require Import List ZArith QArith Bool String Lia PeanoNat.
Import ListNotations.
Local Open Scope Z_scope.
Local Open Scope nat_scope.
Local Open Scope bool_scope.
Local Open Scope list_scope.

(** ** Data model *)

(** The [<video>] element behind [videoRef.current]. *)
Record Video := mkVideo {
  srcObject : option nat;
  muted : bool;
  volume : Q
}.

(** A freshly mounted [<video autoPlay playsInline muted={false}>]. *)
Definition newVideo : Video := mkVideo None false 1%Q.

(** The code waiting on a pending [play()] promise. *)
Inductive Kont :=
| PlayVideo (remote : bool)   (* [playVideo], line 40, with the captured [isRemote] *)
| LocalPlay (s : nat)         (* [getLocalCamera], line 103, with the acquired stream *)
| EnableAudio.                (* [enableAudio], line 53: [.catch(console.warn)] *)

(** One [setupAudioAnalyser] closure whose [detectVolume] loop is scheduled:
    the analysed stream, the closure variable [silenceTimeout] and the number
    of [getByteFrequencyData] reads performed so far.  [detectVolume] ends in
    an unconditional [requestAnimationFrame(detectVolume)], so a session in the
    table always has its next frame callback scheduled. *)
Record Session := mkSession {
  sess_id : nat;
  sess_stream : nat;
  silenceTimeout : option positive;
  reads : nat
}.

(** Console output of the component. *)
Inductive Msg :=
| LogSettingUp (remote : bool) (s : nat)     (* line 33 *)
| LogStarted (remote : bool)                 (* line 41 *)
| WarnAutoplay (remote : bool)               (* line 44 *)
| WarnRetry                                  (* line 53 *)
| LogRequesting                              (* line 80 *)
| LogGranted (s : nat)                       (* line 96 *)
| LogLocalStarted                            (* line 104 *)
| WarnLocalAutoplay                          (* line 106 *)
| ErrCamera (msg : string)                   (* line 116 *)
| LogTracks (remote : bool) (s audio : nat)  (* line 127 *)
| WarnAnalyser.                              (* line 188 *)

(** The values the effects' dependency arrays are built from:
    [stream], [localStream], [isRemote]. *)
Definition Deps : Type := (option nat * option nat * bool)%type.

Record World := mkWorld {
  (* component instance and props *)
  mounted : bool;
  stream : option nat;
  isRemote : bool;
  (* useState *)
  isLoading : bool;
  isSpeaking : bool;
  localStream : option nat;
  error : option string;
  (* videoRef.current *)
  videoRef : option Video;
  (* document.addEventListener('click' / 'touchstart', enableAudio) *)
  clickListeners : list nat;
  touchListeners : list nat;
  nextListener : nat;
  (* streams carrying an [addtrack]/[removetrack] pair of [handleTrackChange] *)
  trackListeners : list nat;
  (* dependency values of the last committed render *)
  committed : option Deps;
  (* pending promises *)
  pendingGum : list nat;
  pendingPlay : list (nat * Kont);
  nextReq : nat;
  (* audio analysis *)
  sessions : list Session;
  setupCalls : nat;
  (* setTimeout table: id and deadline in ms *)
  timers : list (positive * Z);
  nextTimer : positive;
  now : Z;
  (* media platform *)
  stopped : list nat;
  audioTracks : nat -> nat;
  console : list Msg
}.

(** Field updates. *)

Definition with_mounted (x : bool) (w : World) : World :=
  mkWorld
    x (stream w) (isRemote w) (isLoading w) (isSpeaking w) (localStream w)
    (error w) (videoRef w) (clickListeners w) (touchListeners w)
    (nextListener w) (trackListeners w) (committed w) (pendingGum w)
    (pendingPlay w) (nextReq w) (sessions w) (setupCalls w) (timers w)
    (nextTimer w) (now w) (stopped w) (audioTracks w) (console w).

Definition with_stream (x : option nat) (w : World) : World :=
  mkWorld
    (mounted w) x (isRemote w) (isLoading w) (isSpeaking w) (localStream w)
    (error w) (videoRef w) (clickListeners w) (touchListeners w)
    (nextListener w) (trackListeners w) (committed w) (pendingGum w)
    (pendingPlay w) (nextReq w) (sessions w) (setupCalls w) (timers w)
    (nextTimer w) (now w) (stopped w) (audioTracks w) (console w).

Definition with_isRemote (x : bool) (w : World) : World :=
  mkWorld
    (mounted w) (stream w) x (isLoading w) (isSpeaking w) (localStream w)
    (error w) (videoRef w) (clickListeners w) (touchListeners w)
    (nextListener w) (trackListeners w) (committed w) (pendingGum w)
    (pendingPlay w) (nextReq w) (sessions w) (setupCalls w) (timers w)
    (nextTimer w) (now w) (stopped w) (audioTracks w) (console w).

Definition with_isLoading (x : bool) (w : World) : World :=
  mkWorld
    (mounted w) (stream w) (isRemote w) x (isSpeaking w) (localStream w)
    (error w) (videoRef w) (clickListeners w) (touchListeners w)
    (nextListener w) (trackListeners w) (committed w) (pendingGum w)
    (pendingPlay w) (nextReq w) (sessions w) (setupCalls w) (timers w)
    (nextTimer w) (now w) (stopped w) (audioTracks w) (console w).

Definition with_isSpeaking (x : bool) (w : World) : World :=
  mkWorld
    (mounted w) (stream w) (isRemote w) (isLoading w) x (localStream w)
    (error w) (videoRef w) (clickListeners w) (touchListeners w)
    (nextListener w) (trackListeners w) (committed w) (pendingGum w)
    (pendingPlay w) (nextReq w) (sessions w) (setupCalls w) (timers w)
    (nextTimer w) (now w) (stopped w) (audioTracks w) (console w).

Definition with_localStream (x : option nat) (w : World) : World :=
  mkWorld
    (mounted w) (stream w) (isRemote w) (isLoading w) (isSpeaking w) x
    (error w) (videoRef w) (clickListeners w) (touchListeners w)
    (nextListener w) (trackListeners w) (committed w) (pendingGum w)
    (pendingPlay w) (nextReq w) (sessions w) (setupCalls w) (timers w)
    (nextTimer w) (now w) (stopped w) (audioTracks w) (console w).

Definition with_error (x : option string) (w : World) : World :=
  mkWorld
    (mounted w) (stream w) (isRemote w) (isLoading w) (isSpeaking w)
    (localStream w) x (videoRef w) (clickListeners w) (touchListeners w)
    (nextListener w) (trackListeners w) (committed w) (pendingGum w)
    (pendingPlay w) (nextReq w) (sessions w) (setupCalls w) (timers w)
    (nextTimer w) (now w) (stopped w) (audioTracks w) (console w).

Definition with_videoRef (x : option Video) (w : World) : World :=
  mkWorld
    (mounted w) (stream w) (isRemote w) (isLoading w) (isSpeaking w)
    (localStream w) (error w) x (clickListeners w) (touchListeners w)
    (nextListener w) (trackListeners w) (committed w) (pendingGum w)
    (pendingPlay w) (nextReq w) (sessions w) (setupCalls w) (timers w)
    (nextTimer w) (now w) (stopped w) (audioTracks w) (console w).

Definition with_clickListeners (x : list nat) (w : World) : World :=
  mkWorld
    (mounted w) (stream w) (isRemote w) (isLoading w) (isSpeaking w)
    (localStream w) (error w) (videoRef w) x (touchListeners w)
    (nextListener w) (trackListeners w) (committed w) (pendingGum w)
    (pendingPlay w) (nextReq w) (sessions w) (setupCalls w) (timers w)
    (nextTimer w) (now w) (stopped w) (audioTracks w) (console w).

Definition with_touchListeners (x : list nat) (w : World) : World :=
  mkWorld
    (mounted w) (stream w) (isRemote w) (isLoading w) (isSpeaking w)
    (localStream w) (error w) (videoRef w) (clickListeners w) x
    (nextListener w) (trackListeners w) (committed w) (pendingGum w)
    (pendingPlay w) (nextReq w) (sessions w) (setupCalls w) (timers w)
    (nextTimer w) (now w) (stopped w) (audioTracks w) (console w).

Definition with_nextListener (x : nat) (w : World) : World :=
  mkWorld
    (mounted w) (stream w) (isRemote w) (isLoading w) (isSpeaking w)
    (localStream w) (error w) (videoRef w) (clickListeners w)
    (touchListeners w) x (trackListeners w) (committed w) (pendingGum w)
    (pendingPlay w) (nextReq w) (sessions w) (setupCalls w) (timers w)
    (nextTimer w) (now w) (stopped w) (audioTracks w) (console w).

Definition with_trackListeners (x : list nat) (w : World) : World :=
  mkWorld
    (mounted w) (stream w) (isRemote w) (isLoading w) (isSpeaking w)
    (localStream w) (error w) (videoRef w) (clickListeners w)
    (touchListeners w) (nextListener w) x (committed w) (pendingGum w)
    (pendingPlay w) (nextReq w) (sessions w) (setupCalls w) (timers w)
    (nextTimer w) (now w) (stopped w) (audioTracks w) (console w).

Definition with_committed (x : option Deps) (w : World) : World :=
  mkWorld
    (mounted w) (stream w) (isRemote w) (isLoading w) (isSpeaking w)
    (localStream w) (error w) (videoRef w) (clickListeners w)
    (touchListeners w) (nextListener w) (trackListeners w) x (pendingGum w)
    (pendingPlay w) (nextReq w) (sessions w) (setupCalls w) (timers w)
    (nextTimer w) (now w) (stopped w) (audioTracks w) (console w).

Definition with_pendingGum (x : list nat) (w : World) : World :=
  mkWorld
    (mounted w) (stream w) (isRemote w) (isLoading w) (isSpeaking w)
    (localStream w) (error w) (videoRef w) (clickListeners w)
    (touchListeners w) (nextListener w) (trackListeners w) (committed w) x
    (pendingPlay w) (nextReq w) (sessions w) (setupCalls w) (timers w)
    (nextTimer w) (now w) (stopped w) (audioTracks w) (console w).

Definition with_pendingPlay (x : list (nat * Kont)) (w : World) : World :=
  mkWorld
    (mounted w) (stream w) (isRemote w) (isLoading w) (isSpeaking w)
    (localStream w) (error w) (videoRef w) (clickListeners w)
    (touchListeners w) (nextListener w) (trackListeners w) (committed w)
    (pendingGum w) x (nextReq w) (sessions w) (setupCalls w) (timers w)
    (nextTimer w) (now w) (stopped w) (audioTracks w) (console w).

Definition with_nextReq (x : nat) (w : World) : World :=
  mkWorld
    (mounted w) (stream w) (isRemote w) (isLoading w) (isSpeaking w)
    (localStream w) (error w) (videoRef w) (clickListeners w)
    (touchListeners w) (nextListener w) (trackListeners w) (committed w)
    (pendingGum w) (pendingPlay w) x (sessions w) (setupCalls w) (timers w)
    (nextTimer w) (now w) (stopped w) (audioTracks w) (console w).

Definition with_sessions (x : list Session) (w : World) : World :=
  mkWorld
    (mounted w) (stream w) (isRemote w) (isLoading w) (isSpeaking w)
    (localStream w) (error w) (videoRef w) (clickListeners w)
    (touchListeners w) (nextListener w) (trackListeners w) (committed w)
    (pendingGum w) (pendingPlay w) (nextReq w) x (setupCalls w) (timers w)
    (nextTimer w) (now w) (stopped w) (audioTracks w) (console w).

Definition with_setupCalls (x : nat) (w : World) : World :=
  mkWorld
    (mounted w) (stream w) (isRemote w) (isLoading w) (isSpeaking w)
    (localStream w) (error w) (videoRef w) (clickListeners w)
    (touchListeners w) (nextListener w) (trackListeners w) (committed w)
    (pendingGum w) (pendingPlay w) (nextReq w) (sessions w) x (timers w)
    (nextTimer w) (now w) (stopped w) (audioTracks w) (console w).

Definition with_timers (x : list (positive * Z)) (w : World) : World :=
  mkWorld
    (mounted w) (stream w) (isRemote w) (isLoading w) (isSpeaking w)
    (localStream w) (error w) (videoRef w) (clickListeners w)
    (touchListeners w) (nextListener w) (trackListeners w) (committed w)
    (pendingGum w) (pendingPlay w) (nextReq w) (sessions w) (setupCalls w) x
    (nextTimer w) (now w) (stopped w) (audioTracks w) (console w).

Definition with_nextTimer (x : positive) (w : World) : World :=
  mkWorld
    (mounted w) (stream w) (isRemote w) (isLoading w) (isSpeaking w)
    (localStream w) (error w) (videoRef w) (clickListeners w)
    (touchListeners w) (nextListener w) (trackListeners w) (committed w)
    (pendingGum w) (pendingPlay w) (nextReq w) (sessions w) (setupCalls w)
    (timers w) x (now w) (stopped w) (audioTracks w) (console w).

Definition with_now (x : Z) (w : World) : World :=
  mkWorld
    (mounted w) (stream w) (isRemote w) (isLoading w) (isSpeaking w)
    (localStream w) (error w) (videoRef w) (clickListeners w)
    (touchListeners w) (nextListener w) (trackListeners w) (committed w)
    (pendingGum w) (pendingPlay w) (nextReq w) (sessions w) (setupCalls w)
    (timers w) (nextTimer w) x (stopped w) (audioTracks w) (console w).

Definition with_stopped (x : list nat) (w : World) : World :=
  mkWorld
    (mounted w) (stream w) (isRemote w) (isLoading w) (isSpeaking w)
    (localStream w) (error w) (videoRef w) (clickListeners w)
    (touchListeners w) (nextListener w) (trackListeners w) (committed w)
    (pendingGum w) (pendingPlay w) (nextReq w) (sessions w) (setupCalls w)
    (timers w) (nextTimer w) (now w) x (audioTracks w) (console w).

Definition with_audioTracks (x : nat -> nat) (w : World) : World :=
  mkWorld
    (mounted w) (stream w) (isRemote w) (isLoading w) (isSpeaking w)
    (localStream w) (error w) (videoRef w) (clickListeners w)
    (touchListeners w) (nextListener w) (trackListeners w) (committed w)
    (pendingGum w) (pendingPlay w) (nextReq w) (sessions w) (setupCalls w)
    (timers w) (nextTimer w) (now w) (stopped w) x (console w).

Definition with_console (x : list Msg) (w : World) : World :=
  mkWorld
    (mounted w) (stream w) (isRemote w) (isLoading w) (isSpeaking w)
    (localStream w) (error w) (videoRef w) (clickListeners w)
    (touchListeners w) (nextListener w) (trackListeners w) (committed w)
    (pendingGum w) (pendingPlay w) (nextReq w) (sessions w) (setupCalls w)
    (timers w) (nextTimer w) (now w) (stopped w) (audioTracks w) x.

(** ** Primitives of the platform and of React *)

Definition isSome {A : Type} (o : option A) : bool :=
  match o with Some _ => true | None => false end.

Definition opt_eqb (a b : option nat) : bool :=
  match a, b with
  | Some x, Some y => Nat.eqb x y
  | None, None => true
  | _, _ => false
  end.

(** JavaScript truthiness of the [error] state: [null] and the empty string
    are falsy. *)
Definition truthy (e : option string) : bool :=
  match e with
  | Some (String _ _) => true
  | _ => false
  end.

Fixpoint remove_first (x : nat) (l : list nat) : list nat :=
  match l with
  | [] => []
  | y :: r => if Nat.eqb x y then r else y :: remove_first x r
  end.

Definition log (m : Msg) (w : World) : World :=
  with_console (console w ++ [m]) w.

Definition setIsLoading (b : bool) (w : World) : World :=
  if mounted w then with_isLoading b w else w.

Definition setIsSpeaking (b : bool) (w : World) : World :=
  if mounted w then with_isSpeaking b w else w.

Definition setLocalStream (s : option nat) (w : World) : World :=
  if mounted w then with_localStream s w else w.

Definition setError (e : option string) (w : World) : World :=
  if mounted w then with_error e w else w.

(** [video.play()]: a promise, settled later by the platform, with the code
    that awaits it. *)
Definition play (k : Kont) (w : World) : World :=
  with_nextReq (S (nextReq w))
    (with_pendingPlay (pendingPlay w ++ [(nextReq w, k)]) w).

(** [navigator.mediaDevices.getUserMedia(...)]. *)
Definition getUserMedia (w : World) : World :=
  with_nextReq (S (nextReq w)) (with_pendingGum (pendingGum w ++ [nextReq w]) w).

Definition setTimeout (delay : Z) (w : World) : positive * World :=
  (nextTimer w,
   with_nextTimer (Pos.succ (nextTimer w))
     (with_timers (timers w ++ [(nextTimer w, (now w + delay)%Z)]) w)).

Definition clearTimeout (t : positive) (w : World) : World :=
  with_timers (filter (fun e => negb (Pos.eqb (fst e) t)) (timers w)) w.

(** [track.stop()] on every track of stream [s]. *)
Definition stopTracks (s : nat) (w : World) : World :=
  with_stopped (stopped w ++ [s]) w.

(** [stream || localStream], lines 124, 146 and 232. *)
Definition currentStream (stream localStream : option nat) : option nat :=
  match stream with
  | Some s => Some s
  | None => localStream
  end.

(** ** Voice-activity analysis, lines 154-190 *)

Definition fftSize : nat := 512.
Definition frequencyBinCount : nat := fftSize / 2.

(** [analyser.getByteFrequencyData(dataArray)]: the platform writes one byte
    per frequency bin into the [Uint8Array] of [frequencyBinCount] entries. *)
Definition getByteFrequencyData (spectrum : list Z) : list Z :=
  map (fun i => Z.min 255 (Z.max 0 (nth i spectrum 0%Z)))
      (seq 0 frequencyBinCount).

(** The summation loop of lines 168-171. *)
Definition values (dataArray : list Z) : Z :=
  fold_left Z.add dataArray 0%Z.

(** Line 172.  The sum of 256 bytes divided by 256 is exact in double
    precision, so the rational quotient is the value the source computes. *)
Definition average (dataArray : list Z) : Q :=
  Qmake (values dataArray) (Pos.of_nat (List.length dataArray)).

(** Line 174: [average > 20]. *)
Definition aboveThreshold (dataArray : list Z) : bool :=
  negb (Qle_bool (average dataArray) (20 # 1)).

(** Write back the closure state of session [s]. *)
Definition put_session (s : Session) (w : World) : World :=
  with_sessions
    (map (fun x => if Nat.eqb (sess_id x) (sess_id s) then s else x) (sessions w))
    w.

(** One run of [detectVolume] in the closure [s], lines 166-184. *)
Definition detectVolume_in (s : Session) (spectrum : list Z) (w : World) : World :=
  let dataArray := getByteFrequencyData spectrum in
  if aboveThreshold dataArray then
    let w1 := setIsSpeaking true w in
    let w2 := match silenceTimeout s with
              | Some t => clearTimeout t w1
              | None => w1
              end in
    let (t, w3) := setTimeout 800 w2 in
    put_session (mkSession (sess_id s) (sess_stream s) (Some t) (S (reads s))) w3
  else
    put_session (mkSession (sess_id s) (sess_stream s) (silenceTimeout s) (S (reads s))) w.

Definition find_session (sid : nat) (w : World) : option Session :=
  find (fun x => Nat.eqb (sess_id x) sid) (sessions w).

Definition detectVolume (sid : nat) (spectrum : list Z) (w : World) : World :=
  match find_session sid w with
  | Some s => detectVolume_in s spectrum w
  | None => w
  end.

(** The silence timer's callback, line 179. *)
Definition silenceCallback (w : World) : World := setIsSpeaking false w.

Section Component.

(** The audio platform: the [k]-th call of [setupAudioAnalyser] either fails
    to construct its [AudioContext]/analyser ([None]) or gets one whose first
    read returns the given spectrum. *)
Variable audioContext : nat -> option (list Z).

(** [setupAudioAnalyser(stream)], lines 154-190.  [createMediaStreamSource]
    throws on a stream without audio track; either exception is caught and
    logged at line 188. *)
Definition setupAudioAnalyser (s : nat) (w : World) : World :=
  let k := setupCalls w in
  let w0 := with_setupCalls (S k) w in
  match audioContext k with
  | None => log WarnAnalyser w0
  | Some spectrum =>
      if Nat.eqb (audioTracks w0 s) 0 then log WarnAnalyser w0
      else detectVolume k spectrum
             (with_sessions (sessions w0 ++ [mkSession k s None 0]) w0)
  end.

(** ** getLocalCamera, lines 75-120 *)

(** Up to the first [await]. *)
Definition getLocalCamera (w : World) : World :=
  getUserMedia (log LogRequesting (setError None (setIsLoading true w))).

(** Lines 110-113. *)
Definition getLocalCamera_finish (s : nat) (w : World) : World :=
  setIsLoading false (setupAudioAnalyser s w).

(** [getUserMedia] resolved with stream [s]: lines 96-103, and on to line 113
    when there is no video element to play. *)
Definition getLocalCamera_granted (s : nat) (w : World) : World :=
  let w1 := setLocalStream (Some s) (log (LogGranted s) w) in
  match videoRef w1 with
  | Some v =>
      play (LocalPlay s)
        (with_videoRef (Some (mkVideo (Some s) (muted v) (volume v))) w1)
  | None => getLocalCamera_finish s w1
  end.

(** [getUserMedia] rejected: lines 115-119. *)
Definition getLocalCamera_denied (msg : string) (w : World) : World :=
  setIsLoading false (setError (Some msg) (log (ErrCamera msg) w)).

(** ** The interaction listener, lines 49-60 *)

Definition enableAudio (l : nat) (w : World) : World :=
  let w1 := match videoRef w with
            | Some v =>
                play EnableAudio
                  (with_videoRef (Some (mkVideo (srcObject v) false 1%Q)) w)
            | None => w
            end in
  with_touchListeners (remove_first l (touchListeners w1))
    (with_clickListeners (remove_first l (clickListeners w1)) w1).

(** Lines 59-60 with a new [enableAudio] closure. *)
Definition armEnableAudio (w : World) : World :=
  let l := nextListener w in
  with_nextListener (S l)
    (with_touchListeners (touchListeners w ++ [l])
       (with_clickListeners (clickListeners w ++ [l]) w)).

(** The document dispatches an event to the listeners registered when the
    dispatch starts. *)
Definition dispatch (ls : list nat) (w : World) : World :=
  fold_left (fun acc l => enableAudio l acc) ls w.

(** ** Settlement of a [play()] promise *)

Definition play_resolved (k : Kont) (w : World) : World :=
  match k with
  | PlayVideo r => setIsLoading false (log (LogStarted r) w)
  | LocalPlay s => getLocalCamera_finish s (log LogLocalStarted w)
  | EnableAudio => w
  end.

Definition play_rejected (k : Kont) (w : World) : World :=
  match k with
  | PlayVideo r =>
      let w1 := setIsLoading false (log (WarnAutoplay r) w) in
      if r then armEnableAudio w1 else w1
  | LocalPlay s => getLocalCamera_finish s (log WarnLocalAutoplay w)
  | EnableAudio => log WarnRetry w
  end.

(** ** Effects *)

(** Lines 31-72, dependencies [stream, isRemote]. *)
Definition streamEffect (w : World) : World :=
  match stream w, videoRef w with
  | Some s, Some v =>
      play (PlayVideo (isRemote w))
        (with_videoRef (Some (mkVideo (Some s) (muted v) (volume v)))
           (log (LogSettingUp (isRemote w) s) w))
  | Some _, None => w
  | None, _ =>
      if negb (isRemote w) then getLocalCamera w else setIsLoading false w
  end.

(** Lines 123-141, dependencies [stream, localStream, isRemote]. *)
Definition trackEffect (w : World) : World :=
  match currentStream (stream w) (localStream w) with
  | Some c => with_trackListeners (trackListeners w ++ [c]) w
  | None => w
  end.

(** The cleanup returned at lines 136-139, closed over the [currentStream]
    of the render that installed the listeners. *)
Definition trackCleanup (prev : option Deps) (w : World) : World :=
  match prev with
  | Some (ps, pl, _) =>
      match currentStream ps pl with
      | Some c => with_trackListeners (remove_first c (trackListeners w)) w
      | None => w
      end
  | None => w
  end.

(** Lines 144-152, dependencies [stream, localStream, isRemote]. *)
Definition audioEffect (w : World) : World :=
  if negb (isRemote w) then
    match currentStream (stream w) (localStream w) with
    | Some c =>
        if Nat.ltb 0 (audioTracks w c) then setupAudioAnalyser c w else w
    | None => w
    end
  else w.

(** The cleanup of lines 224-230, dependency [localStream]. *)
Definition stopCleanup (prev : option Deps) (w : World) : World :=
  match prev with
  | Some (_, Some l, _) => stopTracks l w
  | _ => w
  end.

(** React's comparison of each dependency array with that of the last
    commit. *)
Definition streamDepsChanged (prev : option Deps) (d : Deps) : bool :=
  match prev, d with
  | Some (ps, _, pr), (s, _, r) => negb (opt_eqb ps s && Bool.eqb pr r)
  | None, _ => true
  end.

Definition allDepsChanged (prev : option Deps) (d : Deps) : bool :=
  match prev, d with
  | Some (ps, pl, pr), (s, l, r) =>
      negb (opt_eqb ps s && opt_eqb pl l && Bool.eqb pr r)
  | None, _ => true
  end.

Definition localDepsChanged (prev : option Deps) (d : Deps) : bool :=
  match prev, d with
  | Some (_, pl, _), (_, l, _) => negb (opt_eqb pl l)
  | None, _ => true
  end.

(** React runs the cleanups of every effect whose dependencies changed, then
    the bodies of those effects, in declaration order. *)
Definition runEffects (w : World) : World :=
  let d := (stream w, localStream w, isRemote w) in
  let prev := committed w in
  let w1 := if allDepsChanged prev d then trackCleanup prev w else w in
  let w2 := if localDepsChanged prev d then stopCleanup prev w1 else w1 in
  let w3 := if streamDepsChanged prev d then streamEffect w2 else w2 in
  let w4 := if allDepsChanged prev d then trackEffect w3 else w3 in
  let w5 := if allDepsChanged prev d then audioEffect w4 else w4 in
  with_committed (Some d) w5.

(** The render at lines 244-316 mounts the [<video>] element only in its
    third branch. *)
Definition videoShown (w : World) : bool :=
  negb (isLoading w) && negb (truthy (error w))
  && isSome (currentStream (stream w) (localStream w)).

Definition commitRef (w : World) : World :=
  with_videoRef
    (if videoShown w then
       Some (match videoRef w with Some v => v | None => newVideo end)
     else None)
    w.

(** Render, commit, effects, and the render caused by the effects' own state
    updates.  The effect bodies update [isLoading] and [error] only, which are
    in no dependency array, so the second render runs no effect. *)
Definition flush (w : World) : World :=
  if mounted w then commitRef (runEffects (commitRef w)) else w.

(** ** Events *)

(** What the browser delivers to the component.  Request, listener, session
    and timer ids name entries of the world's tables; an event naming an
    absent entry does nothing. *)
Inductive Event :=
| SetProps (s : option nat) (r : bool)  (* the parent renders with new [stream], [isRemote] *)
| Unmount
| GumResolve (id s : nat)               (* [getUserMedia] request [id] yields stream [s] *)
| GumReject (id : nat) (msg : string)   (* ... or fails with [error.message = msg] *)
| PlayResolve (id : nat)                (* [play()] promise [id] fulfils *)
| PlayReject (id : nat)                 (* ... or is rejected, e.g. by the autoplay policy *)
| Click                                 (* a click reaching [document] *)
| Touch                                 (* a touchstart reaching [document] *)
| RetryClick                            (* a click on "Retry Camera Access" *)
| Frame (sid : nat) (spectrum : list Z) (* animation frame of session [sid] *)
| TimerFire (t : positive)              (* timer [t] expires; only once it is due *)
| Elapse (dt : N)                       (* [dt] ms pass *)
| TrackChange (s audio : nat).          (* addtrack/removetrack: [s] now has [audio] audio tracks *)

(** The pending [play()] promise [id] with the code awaiting it. *)
Definition take_play (id : nat) (w : World) : option (Kont * World) :=
  match find (fun e => Nat.eqb (fst e) id) (pendingPlay w) with
  | Some (_, k) =>
      Some (k, with_pendingPlay
                 (filter (fun e => negb (Nat.eqb (fst e) id)) (pendingPlay w)) w)
  | None => None
  end.

(** The pending [getUserMedia] promise [id]. *)
Definition take_gum (id : nat) (w : World) : option World :=
  if existsb (Nat.eqb id) (pendingGum w) then
    Some (with_pendingGum (filter (fun x => negb (Nat.eqb x id)) (pendingGum w)) w)
  else None.

(** Timer [t] is armed and its deadline has passed. *)
Definition timer_due (t : positive) (w : World) : bool :=
  existsb (fun e => Pos.eqb (fst e) t && Z.leb (snd e) (now w)) (timers w).

(** React runs the effects' cleanups and detaches the ref. *)
Definition unmount (w : World) : World :=
  with_mounted false
    (with_videoRef None
       (stopCleanup (committed w) (trackCleanup (committed w) w))).

(** The button of lines 275-285 exists in the error panel only. *)
Definition retryShown (w : World) : bool :=
  mounted w && negb (isLoading w) && truthy (error w).

(** The code run by an event, up to the render it causes.  The retry click
    is handled by React, rendered, and then reaches the document's click
    listeners. *)
Definition handle (w : World) (e : Event) : World :=
  match e with
  | SetProps s r =>
      if mounted w then with_isRemote r (with_stream s w) else w
  | Unmount => if mounted w then unmount w else w
  | GumResolve id s =>
      match take_gum id w with
      | Some w1 => getLocalCamera_granted s w1
      | None => w
      end
  | GumReject id msg =>
      match take_gum id w with
      | Some w1 => getLocalCamera_denied msg w1
      | None => w
      end
  | PlayResolve id =>
      match take_play id w with
      | Some (k, w1) => play_resolved k w1
      | None => w
      end
  | PlayReject id =>
      match take_play id w with
      | Some (k, w1) => play_rejected k w1
      | None => w
      end
  | Click => dispatch (clickListeners w) w
  | Touch => dispatch (touchListeners w) w
  | RetryClick =>
      if retryShown w then
        let w1 := flush (getLocalCamera w) in
        dispatch (clickListeners w1) w1
      else w
  | Frame sid spectrum => detectVolume sid spectrum w
  | TimerFire t =>
      if timer_due t w then silenceCallback (clearTimeout t w) else w
  | Elapse dt => with_now (now w + Z.of_N dt)%Z w
  | TrackChange s audio =>
      let w1 :=
        with_audioTracks
          (fun x => if Nat.eqb x s then audio else audioTracks w x) w in
      fold_left
        (fun acc c => if Nat.eqb c s then log (LogTracks (isRemote w) s audio) acc else acc)
        (trackListeners w) w1
  end.

(** One event: its code, then the render pass. *)
Definition step (w : World) (e : Event) : World := flush (handle w e).

(** The instance before its first render: [useState] initial values. *)
Definition pristine (tracks : nat -> nat) (s : option nat) (r : bool) : World :=
  mkWorld true s r
    true false None None
    None
    [] [] 0
    []
    None
    [] [] 0
    [] 0
    [] 1%positive 0%Z
    [] tracks [].

(** The first render with props [stream = s], [isRemote = r]; [tracks]
    gives each stream's number of audio tracks. *)
Definition mount (tracks : nat -> nat) (s : option nat) (r : bool) : World :=
  flush (pristine tracks s r).

(** The world after a sequence of events. *)
Definition run (tracks : nat -> nat) (s : option nat) (r : bool)
    (tr : list Event) : World :=
  fold_left step tr (mount tracks s r).

(** The four-way render of lines 244-316. *)
Inductive PresentationState :=
| Loading
| Error (message : string)
| Playing
| Idle.

Definition presentation (w : World) : PresentationState :=
  if isLoading w then Loading
  else match error w with
       | Some (String a m) => Error (String a m)
       | _ => if isSome (currentStream (stream w) (localStream w))
              then Playing else Idle
       end.

End Component.

(** * Footprints

    Which cells of the world a piece of code may write.  [agree fs w w'] says
    that [w'] equals [w] on every field outside [fs]. *)

Inductive Field :=
| F_mounted | F_stream | F_isRemote
| F_isLoading | F_isSpeaking | F_localStream | F_error
| F_videoRef
| F_clickListeners | F_touchListeners | F_nextListener
| F_trackListeners
| F_committed
| F_pendingGum | F_pendingPlay | F_nextReq
| F_sessions | F_setupCalls
| F_timers | F_nextTimer | F_now
| F_stopped | F_audioTracks | F_console.

Definition ftype (f : Field) : Type :=
  match f with
  | F_mounted => bool | F_stream => option nat | F_isRemote => bool
  | F_isLoading => bool | F_isSpeaking => bool
  | F_localStream => option nat | F_error => option string
  | F_videoRef => option Video
  | F_clickListeners => list nat | F_touchListeners => list nat
  | F_nextListener => nat
  | F_trackListeners => list nat
  | F_committed => option Deps
  | F_pendingGum => list nat | F_pendingPlay => list (nat * Kont)
  | F_nextReq => nat
  | F_sessions => list Session | F_setupCalls => nat
  | F_timers => list (positive * Z) | F_nextTimer => positive | F_now => Z
  | F_stopped => list nat | F_audioTracks => nat -> nat
  | F_console => list Msg
  end.

Definition get (f : Field) (w : World) : ftype f :=
  match f with
  | F_mounted => mounted w | F_stream => stream w | F_isRemote => isRemote w
  | F_isLoading => isLoading w | F_isSpeaking => isSpeaking w
  | F_localStream => localStream w | F_error => error w
  | F_videoRef => videoRef w
  | F_clickListeners => clickListeners w | F_touchListeners => touchListeners w
  | F_nextListener => nextListener w
  | F_trackListeners => trackListeners w
  | F_committed => committed w
  | F_pendingGum => pendingGum w | F_pendingPlay => pendingPlay w
  | F_nextReq => nextReq w
  | F_sessions => sessions w | F_setupCalls => setupCalls w
  | F_timers => timers w | F_nextTimer => nextTimer w | F_now => now w
  | F_stopped => stopped w | F_audioTracks => audioTracks w
  | F_console => console w
  end.

Definition idx (f : Field) : nat :=
  match f with
  | F_mounted => 0 | F_stream => 1 | F_isRemote => 2
  | F_isLoading => 3 | F_isSpeaking => 4 | F_localStream => 5 | F_error => 6
  | F_videoRef => 7
  | F_clickListeners => 8 | F_touchListeners => 9 | F_nextListener => 10
  | F_trackListeners => 11
  | F_committed => 12
  | F_pendingGum => 13 | F_pendingPlay => 14 | F_nextReq => 15
  | F_sessions => 16 | F_setupCalls => 17
  | F_timers => 18 | F_nextTimer => 19 | F_now => 20
  | F_stopped => 21 | F_audioTracks => 22 | F_console => 23
  end.

Definition inb (f : Field) (fs : list Field) : bool :=
  existsb (fun g => Nat.eqb (idx f) (idx g)) fs.

Definition agree (fs : list Field) (w w' : World) : Prop :=
  forall f, inb f fs = false -> get f w' = get f w.

(** Footprints used below. *)

Definition audioFP : list Field :=
  [F_isSpeaking; F_sessions; F_setupCalls; F_timers; F_nextTimer; F_console].

Definition enableFP : list Field :=
  [F_videoRef; F_pendingPlay; F_nextReq; F_clickListeners; F_touchListeners].

Definition effectsFP : list Field :=
  [F_trackListeners; F_stopped; F_committed;
   F_console; F_videoRef; F_pendingPlay; F_nextReq; F_isLoading; F_error;
   F_pendingGum] ++ audioFP.

(** ** Invariants *)

(** The last commit rendered the current props and state: no effect is due. *)
Definition settled (w : World) : Prop :=
  mounted w = false \/ committed w = Some (stream w, localStream w, isRemote w).

(** The cells an event's handler may write, before the render pass. *)
Definition handleFP (e : Event) : list Field :=
  match e with
  | SetProps _ _ => [F_stream; F_isRemote]
  | Unmount => [F_mounted; F_videoRef; F_stopped; F_trackListeners]
  | GumResolve _ _ =>
      F_pendingGum :: F_localStream :: F_videoRef :: F_pendingPlay :: F_nextReq
        :: F_isLoading :: audioFP
  | GumReject _ _ => [F_pendingGum; F_isLoading; F_error; F_console]
  | PlayResolve _ => F_pendingPlay :: F_isLoading :: audioFP
  | PlayReject _ =>
      F_pendingPlay :: F_isLoading :: F_clickListeners :: F_touchListeners
        :: F_nextListener :: audioFP
  | Click | Touch => enableFP
  | RetryClick => enableFP ++ effectsFP
  | Frame _ _ => [F_isSpeaking; F_sessions; F_timers; F_nextTimer]
  | TimerFire _ => [F_isSpeaking; F_timers]
  | Elapse _ => [F_now]
  | TrackChange _ _ => [F_audioTracks; F_console]
  end.

(** Events whose handler leaves props, [localStream] and the commit record
    alone. *)
Definition quietEvent (e : Event) : bool :=
  match e with
  | SetProps _ _ | Unmount | GumResolve _ _ | RetryClick => false
  | _ => true
  end.

(** The retry button: [getLocalCamera] up to its [await], the render it
    causes, and the click reaching the document. *)
Definition retryFP : list Field :=
  [F_isLoading; F_error; F_console; F_pendingGum; F_nextReq; F_videoRef;
   F_pendingPlay; F_clickListeners; F_touchListeners].

(** A world between two events: rendering it again changes nothing. *)
Definition at_rest (audioContext : nat -> option (list Z)) (w : World) : Prop :=
  flush audioContext w = w.

(** [n] consecutive failures: the user presses the retry button and the
    request it issues is rejected with the next message. *)
Fixpoint retryFailures (audioContext : nat -> option (list Z))
    (msgs : list string) (w : World) : World :=
  match msgs with
  | [] => w
  | m :: rest =>
      let w1 := step audioContext w RetryClick in
      retryFailures audioContext rest
        (step audioContext w1 (GumReject (nextReq w) m))
  end.

(** The streams the platform hands out as results of [getUserMedia]. *)
Definition delivered (tr : list Event) : list nat :=
  flat_map (fun e => match e with GumResolve _ s => [s] | _ => [] end) tr.

(** The [localStream] captured by the closures of the last commit. *)
Definition local_of (d : option Deps) : option nat :=
  match d with
  | Some (_, l, _) => l
  | None => None
  end.

(** Every stream the component holds or has stopped came from
    [getUserMedia]. *)
Definition owned_inv (tr : list Event) (w : World) : Prop :=
  (forall l, localStream w = Some l -> In l (delivered tr))
  /\ (forall l, local_of (committed w) = Some l -> In l (delivered tr))
  /\ (forall x, In x (stopped w) -> In x (delivered tr)).

(** Footprint of a rejected [getUserMedia] in a settled world. *)
Definition rejectFP : list Field :=
  [F_videoRef; F_pendingGum; F_isLoading; F_error; F_console].

Definition opt_list (o : option nat) : list nat :=
  match o with
  | Some x => [x]
  | None => []
  end.

(** The stream carrying the track listeners is the [stream || localStream]
    of the last commit. *)
Definition observed_inv (w : World) : Prop :=
  trackListeners w =
    opt_list (if mounted w then
                match committed w with
                | Some (ps, pl, _) => currentStream ps pl
                | None => None
                end
              else None).

(** No analysis can start: the platform builds no analyser, or no stream has
    an audio track. *)
Definition mute (audioContext : nat -> option (list Z)) (w : World) : Prop :=
  (forall k, audioContext k = None) \/ (forall s, audioTracks w s = 0).

(** The cells only the analysis writes, with the console and the streams'
    track counts. *)
Definition analysisCells : list Field :=
  [F_isSpeaking; F_sessions; F_setupCalls; F_timers; F_nextTimer; F_console;
   F_audioTracks].

(** A world with the analysis cells blanked: what the rest of the component
    can depend on. *)
Definition blank (w : World) : World :=
  with_isSpeaking false
    (with_sessions []
       (with_setupCalls 0
          (with_timers []
             (with_nextTimer 1%positive
                (with_console [] (with_audioTracks (fun _ => 0) w)))))).

(** ** Concrete platforms for the examples *)

(** Every analyser can be built and first reads silence. *)
Definition silentAudio : nat -> option (list Z) := fun _ => Some [].

(** No analyser can be built. *)
Definition noAudio : nat -> option (list Z) := fun _ => None.

(** Every stream has one audio track. *)
Definition oneTrack : nat -> nat := fun _ => 1.

(** No stream has an audio track. *)
Definition noTrack : nat -> nat := fun _ => 0.

(** A spectrum of mean magnitude [m]. *)
Definition flat (m : Z) : list Z := repeat m frequencyBinCount.

(** ** The audio cells *)

Definition audioCells : list Field :=
  [F_isSpeaking; F_sessions; F_setupCalls; F_timers; F_nextTimer; F_audioTracks].

(** [audio_path w w']: [w'] is reached from [w] by analyser set-ups, runs of
    [detectVolume], and code that writes none of the audio cells.  Every
    event but a timer expiry is of this kind. *)
Inductive audio_path (audioContext : nat -> option (list Z)) :
    World -> World -> Prop :=
| ap_nil w : audio_path audioContext w w
| ap_other w x y fs :
    audio_path audioContext w x ->
    agree fs x y ->
    forallb (fun f => negb (inb f fs)) audioCells = true ->
    audio_path audioContext w y
| ap_setup w x s :
    audio_path audioContext w x ->
    audio_path audioContext w (setupAudioAnalyser audioContext s x)
| ap_frame w x sid sp :
    audio_path audioContext w x ->
    audio_path audioContext w (detectVolume sid sp x).

(** Session ids are distinct and below the set-up counter; a session's
    [silenceTimeout] is an id already handed out; every armed timer is the
    [silenceTimeout] of a session, that is, the timer armed by that session's
    latest above-threshold read. *)
Definition timer_inv (w : World) : Prop :=
  NoDup (map sess_id (sessions w))
  /\ (forall s, In s (sessions w) -> sess_id s < setupCalls w)
  /\ (forall s t, In s (sessions w) -> silenceTimeout s = Some t ->
        (t < nextTimer w)%positive)
  /\ (forall t d, In (t, d) (timers w) ->
        exists s, In s (sessions w) /\ silenceTimeout s = Some t).

Definition isTimerFire (e : Event) : bool :=
  match e with TimerFire _ => true | _ => false end.

Definition isTrackChange (e : Event) : bool :=
  match e with TrackChange _ _ => true | _ => false end.

(** Voice activity needs a session. *)
Definition speaking_inv (w : World) : Prop :=
  isSpeaking w = true -> sessions w <> [].

(** ** The rendered view, lines 193-221 and 234-326 *)

(** [useState(false)] of line 24; [setIsMuted] is never called. *)
Definition isMuted : bool := false.

(** [renderWaves], lines 193-221: the five animated bars, or nothing. *)
Definition renderWaves (w : World) : option nat :=
  if negb (isSpeaking w) || isRemote w then None else Some 5.

Inductive View :=
| Spinner (text : string)                      (* lines 245-257 *)
| ErrorPanel (message : string)                (* lines 259-286, with the retry button *)
| VideoView (mutedProp : bool) (waves : option nat)   (* lines 288-303 *)
| Placeholder (text : string).                 (* lines 305-315 *)

Definition render (w : World) : View :=
  if isLoading w then
    Spinner (if isRemote w then "Loading AI Doctor..." else "Initializing camera...")
  else if truthy (error w) then
    ErrorPanel (match error w with Some m => m | None => EmptyString end)
  else if isSome (currentStream (stream w) (localStream w)) then
    VideoView (if isRemote w then false else isMuted) (renderWaves w)
  else
    Placeholder (if isRemote w then "Waiting for AI Doctor..." else "No camera stream").

(** ** Traces *)

(** No event changes the props. *)
Definition keepsProps (e : Event) : bool :=
  match e with SetProps _ _ => false | _ => true end.

(** Every prop change keeps [isRemote] true. *)
Definition staysRemote (e : Event) : bool :=
  match e with SetProps _ r => r | _ => true end.

Definition isLocalPlay (k : Kont) : bool :=
  match k with LocalPlay _ => true | _ => false end.

(** The timers the sessions currently hold. *)
Definition heldTimers (ss : list Session) : list positive :=
  flat_map (fun s => match silenceTimeout s with Some t => [t] | None => [] end) ss.

(** Cells a render pass can write when the stream effect does not run or
    finds nothing to do. *)
Definition idleEffectsFP : list Field :=
  [F_trackListeners; F_stopped; F_committed] ++ audioFP.

(** Every prop change supplies a stream. *)
Definition suppliesStream (e : Event) : bool :=
  match e with SetProps s _ => isSome s | _ => true end.

(** ** Invariants of particular instances *)

(** An instance that was given a stream before its video element existed. *)
Definition waiting_inv (w : World) : Prop :=
  isLoading w = true /\ videoRef w = None
  /\ pendingPlay w = [] /\ pendingGum w = []
  /\ clickListeners w = [] /\ touchListeners w = []
  /\ isSome (stream w) = true /\ localStream w = None /\ error w = None.

(** An instance that has been remote since its first render: it holds no
    camera request and no local stream, and no analysis was ever set up. *)
Definition remote_inv (w : World) : Prop :=
  isRemote w = true /\ pendingGum w = [] /\ localStream w = None
  /\ error w = None /\ sessions w = [] /\ isSpeaking w = false
  /\ stopped w = [] /\ timers w = [] /\ setupCalls w = 0
  /\ local_of (committed w) = None
  /\ forallb (fun e => negb (isLocalPlay (snd e))) (pendingPlay w) = true.

Definition remoteCells : list Field :=
  [F_isRemote; F_pendingGum; F_localStream; F_error; F_sessions; F_isSpeaking;
   F_stopped; F_timers; F_setupCalls; F_committed; F_pendingPlay].

(** Every [enableAudio] closure is registered for both events or for
    neither, and no closure is registered twice. *)
Definition paired_inv (w : World) : Prop :=
  touchListeners w = clickListeners w
  /\ NoDup (clickListeners w)
  /\ (forall l, In l (clickListeners w) -> l < nextListener w).

Definition listenerCells : list Field :=
  [F_clickListeners; F_touchListeners; F_nextListener].

(** Armed timers have distinct ids, all handed out already. *)
Definition fresh_inv (w : World) : Prop :=
  NoDup (map fst (timers w))
  /\ (forall t d, In (t, d) (timers w) -> (t < nextTimer w)%positive).

(** The streams whose tracks an event makes the component stop: the stored
    local stream, on unmount and when a newly granted stream replaces it. *)
Definition released (w : World) (e : Event) : list nat :=
  match e with
  | Unmount => if mounted w then opt_list (localStream w) else []
  | GumResolve id s =>
      if mounted w && existsb (Nat.eqb id) (pendingGum w)
         && negb (opt_eqb (localStream w) (Some s))
      then opt_list (localStream w) else []
  | _ => []
  end.

(** The stored local stream is live, or its tracks were stopped. *)
Definition held_or_stopped (x : nat) (w : World) : Prop :=
  (mounted w = true /\ localStream w = Some x) \/ In x (stopped w).

(** An instance without supplied stream that acquires the camera itself:
    what holds after every handler ([self_core]) and between events
    ([self_inv]). *)
Definition self_core (w : World) : Prop :=
  stream w = None /\ isRemote w = false
  /\ pendingPlay w = [] /\ clickListeners w = [] /\ touchListeners w = []
  /\ (videoRef w = None \/ videoRef w = Some newVideo)
  /\ (mounted w = false -> videoRef w = None)
  /\ (mounted w = false \/ exists l, committed w = Some (None, l, false))
  /\ List.length (pendingGum w) <= 1
  /\ (pendingGum w <> [] -> mounted w = true -> isLoading w = true).

Definition self_inv (w : World) : Prop :=
  self_core w /\ (pendingGum w <> [] -> videoRef w = None).

Definition selfCells : list Field :=
  [F_stream; F_isRemote; F_pendingPlay; F_clickListeners; F_touchListeners;
   F_videoRef; F_mounted; F_committed; F_pendingGum; F_isLoading].

(** The video element, when there is one, is unmuted and at full volume. *)
Definition unmuted_inv (w : World) : Prop :=
  forall v, videoRef w = Some v -> muted v = isMuted /\ volume v = 1%Q.

(** A remote instance that was never given a stream. *)
Definition idle_inv (w : World) : Prop :=
  stream w = None /\ isRemote w = true /\ isLoading w = false
  /\ error w = None /\ localStream w = None /\ videoRef w = None
  /\ pendingPlay w = [] /\ pendingGum w = []
  /\ clickListeners w = [] /\ touchListeners w = []
  /\ (mounted w = false \/ committed w = Some (None, None, true)).

Definition idleCells : list Field :=
  [F_stream; F_isRemote; F_isLoading; F_error; F_localStream; F_videoRef;
   F_pendingPlay; F_pendingGum; F_clickListeners; F_touchListeners;
   F_mounted; F_committed].

(** ** Events that reach the listeners of [document] *)

(** A click or touch reaching [document]; a click on the retry button is
    one. *)
Definition isInteraction (e : Event) : bool :=
  match e with
  | Click | Touch | RetryClick => true
  | _ => false
  end.

(** The [play()] requests of [n] listeners fired in one dispatch, from request
    id [first] on. *)
Definition retries (first n : nat) : list (nat * Kont) :=
  map (fun i => (first + i, EnableAudio)) (seq 0 n).

(** ** Streams without audio and analysers that cannot be built *)

(** The event leaves stream [c] without audio track. *)
Definition keepsSilent (c : nat) (e : Event) : bool :=
  match e with
  | TrackChange s a => negb (Nat.eqb s c) || Nat.eqb a 0
  | _ => true
  end.

(** Every session runs on an analyser the platform did build. *)
Definition built_inv (audioContext : nat -> option (list Z)) (w : World) : Prop :=
  forall x, In x (sessions w) -> exists sp, audioContext (sess_id x) = Some sp.

(** Stream [c] has no audio track and no session. *)
Definition silent_inv (c : nat) (w : World) : Prop :=
  audioTracks w c = 0 /\ forall x, In x (sessions w) -> sess_stream x <> c.

(** Every stream but [c] has one audio track. *)
Definition allBut (c : nat) : nat -> nat := fun x => if Nat.eqb x c then 0 else 1.

(** The first analyser cannot be built, the later ones can and first read
    silence. *)
Definition failsFirst : nat -> option (list Z) :=
  fun k => if Nat.eqb k 0 then None else Some [].

(** ** The life of one silence timer *)

(** Timer [t] was armed by session [sid] with deadline [d]: its id has been
    handed out, its deadline is [d] for as long as it is armed, and no session
    but [sid] holds it as its [silenceTimeout]. *)
Definition armed_inv (sid : nat) (t : positive) (d : Z) (w : World) : Prop :=
  (t < nextTimer w)%positive
  /\ (forall d', In (t, d') (timers w) -> d' = d)
  /\ (forall x, In x (sessions w) -> silenceTimeout x = Some t -> sess_id x = sid).

(** Timer [t] has been handed out and is no longer armed. *)
Definition retired (t : positive) (w : World) : Prop :=
  (t < nextTimer w)%positive /\ ~ In t (map fst (timers w)).

(** * Proofs *)

(** * Footprints of the component's code *)

Arguments getByteFrequencyData : simpl never.
Arguments aboveThreshold : simpl never.

Lemma agree_refl w : agree [] w w.
Proof. intros f _. reflexivity. Qed.

Lemma agree_trans fs1 fs2 w w1 w2 :
  agree fs1 w w1 -> agree fs2 w1 w2 -> agree (fs2 ++ fs1) w w2.
Proof.
  intros H1 H2 f Hf. unfold inb in Hf. rewrite existsb_app in Hf.
  apply orb_false_elim in Hf. destruct Hf as [Hf2 Hf1].
  rewrite (H2 f Hf2). apply H1, Hf1.
Qed.

Lemma idx_inj f g : idx f = idx g -> f = g.
Proof. destruct f, g; cbn; congruence. Qed.

Lemma agree_weaken fs fs' w w' :
  agree fs w w' -> forallb (fun f => inb f fs') fs = true -> agree fs' w w'.
Proof.
  intros H Hsub f Hf. apply H.
  destruct (inb f fs) eqn:E; [|reflexivity].
  unfold inb in E. apply existsb_exists in E. destruct E as [g [Hg Eg]].
  rewrite forallb_forall in Hsub. specialize (Hsub g Hg).
  apply Nat.eqb_eq, idx_inj in Eg. subst g. congruence.
Qed.

(** A primitive's footprint, by inspection of every field. *)
Ltac footprint_leaf :=
  let f := fresh "f" in let Hf := fresh "Hf" in
  intros f Hf; destruct f; cbn in Hf |- *;
  first [ reflexivity | discriminate Hf ].

Ltac split_if :=
  repeat match goal with
  | |- context [if ?c then _ else _] => destruct c
  end.

Create HintDb fp.

(** Footprint of a composition: the union of the footprints met on the way. *)
Ltac fp_chain :=
  first
    [ apply agree_refl
    | solve [auto with fp nocore]
    | eapply agree_trans; cycle 1;
      [ solve [auto with fp nocore] | fp_chain ] ].

Ltac footprint :=
  eapply agree_weaken; [ fp_chain | vm_compute; reflexivity ].

Lemma log_fp m w : agree [F_console] w (log m w).
Proof. unfold log. footprint_leaf. Qed.

Lemma setIsLoading_fp b w : agree [F_isLoading] w (setIsLoading b w).
Proof. unfold setIsLoading. split_if; footprint_leaf. Qed.

Lemma setIsSpeaking_fp b w : agree [F_isSpeaking] w (setIsSpeaking b w).
Proof. unfold setIsSpeaking. split_if; footprint_leaf. Qed.

Lemma setLocalStream_fp s w : agree [F_localStream] w (setLocalStream s w).
Proof. unfold setLocalStream. split_if; footprint_leaf. Qed.

Lemma setError_fp e w : agree [F_error] w (setError e w).
Proof. unfold setError. split_if; footprint_leaf. Qed.

Lemma play_fp k w : agree [F_pendingPlay; F_nextReq] w (play k w).
Proof. unfold play. footprint_leaf. Qed.

Lemma getUserMedia_fp w : agree [F_pendingGum; F_nextReq] w (getUserMedia w).
Proof. unfold getUserMedia. footprint_leaf. Qed.

Lemma clearTimeout_fp t w : agree [F_timers] w (clearTimeout t w).
Proof. unfold clearTimeout. footprint_leaf. Qed.

Lemma stopTracks_fp s w : agree [F_stopped] w (stopTracks s w).
Proof. unfold stopTracks. footprint_leaf. Qed.

Lemma put_session_fp s w : agree [F_sessions] w (put_session s w).
Proof. unfold put_session. footprint_leaf. Qed.

Lemma with_videoRef_fp v w : agree [F_videoRef] w (with_videoRef v w).
Proof. footprint_leaf. Qed.

Lemma with_sessions_fp v w : agree [F_sessions] w (with_sessions v w).
Proof. footprint_leaf. Qed.

Lemma with_setupCalls_fp v w : agree [F_setupCalls] w (with_setupCalls v w).
Proof. footprint_leaf. Qed.

Lemma with_pendingPlay_fp v w : agree [F_pendingPlay] w (with_pendingPlay v w).
Proof. footprint_leaf. Qed.

Lemma with_pendingGum_fp v w : agree [F_pendingGum] w (with_pendingGum v w).
Proof. footprint_leaf. Qed.

Lemma with_committed_fp v w : agree [F_committed] w (with_committed v w).
Proof. footprint_leaf. Qed.

Lemma with_mounted_fp v w : agree [F_mounted] w (with_mounted v w).
Proof. footprint_leaf. Qed.

Lemma with_stream_fp v w : agree [F_stream] w (with_stream v w).
Proof. footprint_leaf. Qed.

Lemma with_isRemote_fp v w : agree [F_isRemote] w (with_isRemote v w).
Proof. footprint_leaf. Qed.

Lemma with_now_fp v w : agree [F_now] w (with_now v w).
Proof. footprint_leaf. Qed.

Lemma with_audioTracks_fp v w : agree [F_audioTracks] w (with_audioTracks v w).
Proof. footprint_leaf. Qed.

Lemma with_trackListeners_fp v w : agree [F_trackListeners] w (with_trackListeners v w).
Proof. footprint_leaf. Qed.

#[export] Hint Resolve log_fp setIsLoading_fp setIsSpeaking_fp setLocalStream_fp
  setError_fp play_fp getUserMedia_fp clearTimeout_fp stopTracks_fp
  put_session_fp with_videoRef_fp with_sessions_fp with_setupCalls_fp
  with_pendingPlay_fp with_pendingGum_fp with_committed_fp with_mounted_fp
  with_stream_fp with_isRemote_fp with_now_fp with_audioTracks_fp
  with_trackListeners_fp : fp.

Lemma detectVolume_in_fp s sp w :
  agree [F_isSpeaking; F_sessions; F_timers; F_nextTimer] w (detectVolume_in s sp w).
Proof.
  unfold detectVolume_in, setTimeout, clearTimeout, setIsSpeaking, put_session.
  destruct (aboveThreshold _); [destruct (silenceTimeout s)|];
    destruct (mounted w) eqn:E; cbn; try rewrite E; footprint_leaf.
Qed.

Lemma detectVolume_fp sid sp w :
  agree [F_isSpeaking; F_sessions; F_timers; F_nextTimer] w (detectVolume sid sp w).
Proof.
  unfold detectVolume. destruct (find_session sid w).
  - apply detectVolume_in_fp.
  - footprint.
Qed.

Lemma silenceCallback_fp w : agree [F_isSpeaking] w (silenceCallback w).
Proof. apply setIsSpeaking_fp. Qed.

#[export] Hint Resolve detectVolume_fp silenceCallback_fp : fp.

Lemma armEnableAudio_fp w :
  agree [F_clickListeners; F_touchListeners; F_nextListener] w (armEnableAudio w).
Proof. unfold armEnableAudio. footprint_leaf. Qed.

Lemma enableAudio_fp l w : agree enableFP w (enableAudio l w).
Proof.
  unfold enableAudio, play. destruct (videoRef w); footprint_leaf.
Qed.

Lemma dispatch_fp ls w : agree enableFP w (dispatch ls w).
Proof.
  unfold dispatch. revert w. induction ls as [|l ls IH]; intro w; cbn.
  - eapply agree_weaken; [apply agree_refl | reflexivity].
  - eapply agree_weaken.
    + eapply agree_trans; [apply enableAudio_fp | apply IH].
    + vm_compute; reflexivity.
Qed.

Lemma trackEffect_fp w : agree [F_trackListeners] w (trackEffect w).
Proof. unfold trackEffect. destruct (currentStream _ _); footprint. Qed.

Lemma trackCleanup_fp prev w : agree [F_trackListeners] w (trackCleanup prev w).
Proof.
  unfold trackCleanup. destruct prev as [[[ps pl] pr]|]; [|footprint].
  destruct (currentStream ps pl); footprint.
Qed.

Lemma stopCleanup_fp prev w : agree [F_stopped] w (stopCleanup prev w).
Proof.
  unfold stopCleanup. destruct prev as [[[ps [l|]] pr]|]; footprint.
Qed.

Lemma commitRef_fp w : agree [F_videoRef] w (commitRef w).
Proof. unfold commitRef. footprint. Qed.

#[export] Hint Resolve armEnableAudio_fp enableAudio_fp dispatch_fp trackEffect_fp
  trackCleanup_fp stopCleanup_fp commitRef_fp : fp.

Lemma getLocalCamera_fp w :
  agree [F_isLoading; F_error; F_console; F_pendingGum; F_nextReq] w (getLocalCamera w).
Proof. unfold getLocalCamera. footprint. Qed.

Lemma getLocalCamera_denied_fp msg w :
  agree [F_isLoading; F_error; F_console] w (getLocalCamera_denied msg w).
Proof. unfold getLocalCamera_denied. footprint. Qed.

Lemma unmount_fp w :
  agree [F_mounted; F_videoRef; F_stopped; F_trackListeners] w (unmount w).
Proof. unfold unmount. footprint. Qed.

#[export] Hint Resolve getLocalCamera_fp getLocalCamera_denied_fp unmount_fp : fp.

Section Footprints.

Variable audioContext : nat -> option (list Z).

Lemma setupAudioAnalyser_fp s w :
  agree audioFP w (setupAudioAnalyser audioContext s w).
Proof.
  unfold setupAudioAnalyser.
  destruct (audioContext (setupCalls w)); [destruct (Nat.eqb _ _)|]; footprint.
Qed.

#[local] Hint Resolve setupAudioAnalyser_fp : fp.

Lemma getLocalCamera_finish_fp s w :
  agree (F_isLoading :: audioFP) w (getLocalCamera_finish audioContext s w).
Proof. unfold getLocalCamera_finish. footprint. Qed.

#[local] Hint Resolve getLocalCamera_finish_fp : fp.

Lemma getLocalCamera_granted_fp s w :
  agree (F_localStream :: F_videoRef :: F_pendingPlay :: F_nextReq
           :: F_isLoading :: audioFP)
    w (getLocalCamera_granted audioContext s w).
Proof.
  unfold getLocalCamera_granted. destruct (videoRef _); footprint.
Qed.

Lemma play_resolved_fp k w :
  agree (F_isLoading :: audioFP) w (play_resolved audioContext k w).
Proof. unfold play_resolved. destruct k; footprint. Qed.

Lemma play_rejected_fp k w :
  agree (F_isLoading :: F_clickListeners :: F_touchListeners :: F_nextListener
           :: audioFP)
    w (play_rejected audioContext k w).
Proof. unfold play_rejected. destruct k as [[|]| |]; footprint. Qed.

Lemma streamEffect_fp w :
  agree [F_console; F_videoRef; F_pendingPlay; F_nextReq; F_isLoading; F_error;
         F_pendingGum]
    w (streamEffect w).
Proof.
  unfold streamEffect. destruct (stream w); [destruct (videoRef w)|destruct (isRemote w); cbn];
    footprint.
Qed.

Lemma audioEffect_fp w : agree audioFP w (audioEffect audioContext w).
Proof.
  unfold audioEffect. destruct (negb _); [destruct (currentStream _ _); [destruct (Nat.ltb _ _)|]|];
    footprint.
Qed.

#[local] Hint Resolve getLocalCamera_granted_fp play_resolved_fp play_rejected_fp
  streamEffect_fp audioEffect_fp : fp.

Lemma runEffects_fp w : agree effectsFP w (runEffects audioContext w).
Proof.
  unfold runEffects.
  destruct (allDepsChanged _ _), (localDepsChanged _ _), (streamDepsChanged _ _);
    footprint.
Qed.

#[local] Hint Resolve runEffects_fp : fp.

Lemma flush_fp w : agree effectsFP w (flush audioContext w).
Proof. unfold flush. destruct (mounted w); footprint. Qed.

End Footprints.

#[export] Hint Resolve setupAudioAnalyser_fp getLocalCamera_finish_fp
  getLocalCamera_granted_fp play_resolved_fp play_rejected_fp streamEffect_fp
  audioEffect_fp runEffects_fp flush_fp : fp.

Lemma agree_get fs f w w' :
  agree fs w w' -> inb f fs = false -> get f w' = get f w.
Proof. intros H Hf. apply H, Hf. Qed.

(** [fp_eq f] proves [proj w' = proj w] for the projection of field [f] when
    [w'] is built from [w] by code whose footprint leaves [f] out. *)
Ltac fp_eq f :=
  match goal with
  | |- ?p ?a = ?p ?b =>
      change (get f a = get f b);
      eapply agree_get; [ fp_chain | vm_compute; reflexivity ]
  end.

(** * Render passes *)

Ltac frame_of H f :=
  let E := fresh "E" in
  pose proof (H f eq_refl) as E; cbn [get ftype] in E.

Lemma opt_eqb_refl a : opt_eqb a a = true.
Proof. destruct a; cbn; [apply Nat.eqb_refl | reflexivity]. Qed.

Lemma opt_eqb_eq a b : opt_eqb a b = true -> a = b.
Proof.
  destruct a, b; cbn; intro H; try discriminate; [|reflexivity].
  apply Nat.eqb_eq in H. congruence.
Qed.

Lemma commitRef_idem w : commitRef (commitRef w) = commitRef w.
Proof.
  unfold commitRef, videoShown. destruct w; cbn.
  destruct (negb _ && negb _ && isSome _); [destruct videoRef0|]; reflexivity.
Qed.

Lemma agree_settled fs w w' :
  agree fs w w' ->
  forallb (fun f => negb (inb f fs))
    [F_mounted; F_stream; F_localStream; F_isRemote; F_committed] = true ->
  settled w -> settled w'.
Proof.
  intros H Hfs Hs. cbn in Hfs.
  repeat (apply andb_prop in Hfs; destruct Hfs as [?%negb_true_iff Hfs]).
  pose proof (H F_mounted ltac:(assumption)) as E1.
  pose proof (H F_stream ltac:(assumption)) as E2.
  pose proof (H F_localStream ltac:(assumption)) as E3.
  pose proof (H F_isRemote ltac:(assumption)) as E4.
  pose proof (H F_committed ltac:(assumption)) as E5.
  cbn [get ftype] in E1, E2, E3, E4, E5. unfold settled in *.
  rewrite E1, E2, E3, E4, E5. exact Hs.
Qed.

Section Render.

Variable audioContext : nat -> option (list Z).

Lemma runEffects_settled w :
  committed w = Some (stream w, localStream w, isRemote w) ->
  runEffects audioContext w = w.
Proof.
  intro H. unfold runEffects. rewrite H.
  unfold allDepsChanged, localDepsChanged, streamDepsChanged.
  rewrite !opt_eqb_refl, Bool.eqb_reflx. cbn.
  destruct w; cbn in *. rewrite H. reflexivity.
Qed.

Lemma flush_settled w :
  settled w -> flush audioContext w = if mounted w then commitRef w else w.
Proof.
  intros [H|H]; unfold flush.
  - rewrite H. reflexivity.
  - destruct (mounted w); [|reflexivity].
    rewrite runEffects_settled; [apply commitRef_idem|].
    pose proof (commitRef_fp w) as A.
    frame_of A F_committed. frame_of A F_stream. frame_of A F_localStream.
    frame_of A F_isRemote. congruence.
Qed.

Lemma flush_settled_fp w : settled w -> agree [F_videoRef] w (flush audioContext w).
Proof.
  intro H. rewrite (flush_settled w H).
  destruct (mounted w); [apply commitRef_fp|].
  eapply agree_weaken; [apply agree_refl | reflexivity].
Qed.

Lemma settled_flush w : settled (flush audioContext w).
Proof.
  unfold flush. destruct (mounted w) eqn:M; [|left; exact M]. right.
  set (x := commitRef w).
  pose proof (commitRef_fp (runEffects audioContext x)) as A.
  pose proof (runEffects_fp audioContext x) as B.
  frame_of A F_committed. frame_of A F_stream. frame_of A F_localStream.
  frame_of A F_isRemote.
  frame_of B F_stream. frame_of B F_localStream. frame_of B F_isRemote.
  rewrite E, E0, E1, E2, E3, E4, E5. reflexivity.
Qed.

Lemma settled_step w e : settled (step audioContext w e).
Proof. apply settled_flush. Qed.

Lemma settled_run tracks s r tr : settled (run audioContext tracks s r tr).
Proof.
  unfold run. destruct tr as [|e tr] using rev_ind.
  - apply settled_flush.
  - rewrite fold_left_app. apply settled_step.
Qed.

(** After the handler of an event that leaves props, [localStream] and the
    commit record alone, the render pass touches the video element only. *)
Lemma step_quiet_fp fs w e :
  settled w ->
  agree fs w (handle audioContext w e) ->
  forallb (fun f => negb (inb f fs))
    [F_mounted; F_stream; F_localStream; F_isRemote; F_committed] = true ->
  agree (F_videoRef :: fs) w (step audioContext w e).
Proof.
  intros Hs Hh Hfs. unfold step.
  eapply agree_trans with (fs2 := [F_videoRef]); [exact Hh|].
  apply flush_settled_fp. eapply agree_settled; eassumption.
Qed.

End Render.

(** * Event handlers *)

Section Handlers.

Variable audioContext : nat -> option (list Z).

Lemma take_play_fp id w k w1 :
  take_play id w = Some (k, w1) -> agree [F_pendingPlay] w w1.
Proof.
  unfold take_play. destruct (find _ _) as [[i k']|]; [|discriminate].
  intro H. injection H as <- <-. footprint.
Qed.

Lemma take_gum_fp id w w1 :
  take_gum id w = Some w1 -> agree [F_pendingGum] w w1.
Proof.
  unfold take_gum. destruct (existsb _ _); [|discriminate].
  intro H. injection H as <-. footprint.
Qed.

Lemma trackLog_fp r s a ls w :
  agree [F_console] w
    (fold_left (fun acc c => if Nat.eqb c s then log (LogTracks r s a) acc else acc) ls w).
Proof.
  revert w. induction ls as [|c ls IH]; intro w; cbn.
  - eapply agree_weaken; [apply agree_refl | reflexivity].
  - destruct (Nat.eqb c s); [|apply IH].
    eapply agree_weaken.
    + eapply agree_trans; [apply log_fp | apply IH].
    + reflexivity.
Qed.

#[local] Hint Resolve trackLog_fp : fp.

Lemma handle_fp w e : agree (handleFP e) w (handle audioContext w e).
Proof.
  destruct e; cbn [handle handleFP].
  - destruct (mounted w); footprint.
  - destruct (mounted w); footprint.
  - destruct (take_gum id w) as [w1|] eqn:T; [|footprint].
    apply take_gum_fp in T. eapply agree_weaken.
    + eapply agree_trans; [exact T | apply getLocalCamera_granted_fp].
    + vm_compute; reflexivity.
  - destruct (take_gum id w) as [w1|] eqn:T; [|footprint].
    apply take_gum_fp in T. eapply agree_weaken.
    + eapply agree_trans; [exact T | apply getLocalCamera_denied_fp].
    + vm_compute; reflexivity.
  - destruct (take_play id w) as [[k w1]|] eqn:T; [|footprint].
    apply take_play_fp in T. eapply agree_weaken.
    + eapply agree_trans; [exact T | apply play_resolved_fp].
    + vm_compute; reflexivity.
  - destruct (take_play id w) as [[k w1]|] eqn:T; [|footprint].
    apply take_play_fp in T. eapply agree_weaken.
    + eapply agree_trans; [exact T | apply play_rejected_fp].
    + vm_compute; reflexivity.
  - footprint.
  - footprint.
  - destruct (retryShown w); [|footprint].
    cbv zeta. footprint.
  - footprint.
  - unfold silenceCallback. destruct (timer_due t w); footprint.
  - footprint.
  - footprint.
Qed.

Lemma handle_settled w e :
  quietEvent e = true -> settled w -> settled (handle audioContext w e).
Proof.
  intros Q Hs. eapply agree_settled; [apply handle_fp| |exact Hs].
  destruct e; try discriminate Q; vm_compute; reflexivity.
Qed.

Lemma step_quiet w e :
  quietEvent e = true -> settled w ->
  agree (F_videoRef :: handleFP e) w (step audioContext w e).
Proof.
  intros Q Hs. apply step_quiet_fp; [exact Hs | apply handle_fp |].
  destruct e; try discriminate Q; vm_compute; reflexivity.
Qed.

Lemma handle_retry_fp w :
  settled w -> agree retryFP w (handle audioContext w RetryClick).
Proof.
  intro Hs. cbn [handle]. destruct (retryShown w).
  - cbv zeta.
    assert (S1 : settled (getLocalCamera w)).
    { eapply agree_settled; [apply getLocalCamera_fp | reflexivity | exact Hs]. }
    pose proof (flush_settled_fp audioContext _ S1) as A.
    eapply agree_weaken.
    + eapply agree_trans; [|apply dispatch_fp].
      eapply agree_trans; [apply getLocalCamera_fp | exact A].
    + vm_compute; reflexivity.
  - eapply agree_weaken; [apply agree_refl | reflexivity].
Qed.

Lemma step_retry_fp w :
  settled w -> agree retryFP w (step audioContext w RetryClick).
Proof.
  intro Hs. eapply agree_weaken.
  - eapply step_quiet_fp; [exact Hs | apply handle_retry_fp, Hs | reflexivity].
  - vm_compute; reflexivity.
Qed.

End Handlers.

(** * The sampling loop *)

Lemma aboveThreshold_spec d :
  aboveThreshold d = true <-> (20 # 1 < average d)%Q.
Proof.
  unfold aboveThreshold. rewrite negb_true_iff.
  split.
  - intro H. apply Qnot_le_lt. intro L. apply Qle_bool_iff in L. congruence.
  - intro H. destruct (Qle_bool (average d) (20 # 1)) eqn:E; [|reflexivity].
    apply Qle_bool_iff in E. exfalso. exact (Qlt_not_le _ _ H E).
Qed.

Lemma belowThreshold_spec d :
  aboveThreshold d = false <-> (average d <= 20 # 1)%Q.
Proof.
  unfold aboveThreshold. rewrite negb_false_iff. apply Qle_bool_iff.
Qed.

(** What one run of [detectVolume] writes. *)
Lemma detectVolume_in_effect s sp w loud :
  aboveThreshold (getByteFrequencyData sp) = loud ->
  let s' := mkSession (sess_id s) (sess_stream s)
              (if loud then Some (nextTimer w) else silenceTimeout s)
              (S (reads s)) in
  let w' := detectVolume_in s sp w in
  isSpeaking w' = (if loud && mounted w then true else isSpeaking w)
  /\ timers w' =
       (if loud then
          match silenceTimeout s with
          | Some t => filter (fun e => negb (Pos.eqb (fst e) t)) (timers w)
          | None => timers w
          end ++ [(nextTimer w, (now w + 800)%Z)]
        else timers w)
  /\ nextTimer w' = (if loud then Pos.succ (nextTimer w) else nextTimer w)
  /\ sessions w' =
       map (fun x => if Nat.eqb (sess_id x) (sess_id s) then s' else x) (sessions w)
  /\ setupCalls w' = setupCalls w.
Proof.
  intro L.
  unfold detectVolume_in, setTimeout, clearTimeout, setIsSpeaking, put_session.
  rewrite L. clear L. destruct loud; cbn [andb].
  - destruct (silenceTimeout s), (mounted w) eqn:M; cbn; rewrite ?M; cbn; auto 6.
  - cbn. destruct (mounted w); auto 6.
Qed.

Lemma find_session_In sid w s :
  find_session sid w = Some s -> In s (sessions w) /\ sess_id s = sid.
Proof.
  unfold find_session. intro H. apply find_some in H.
  destruct H as [H1 H2]. apply Nat.eqb_eq in H2. auto.
Qed.

Lemma find_replaced sid (s' : Session) l s :
  sess_id s' = sid ->
  find (fun x => Nat.eqb (sess_id x) sid) l = Some s ->
  find (fun x => Nat.eqb (sess_id x) sid)
    (map (fun x => if Nat.eqb (sess_id x) sid then s' else x) l) = Some s'.
Proof.
  intros Hs'. induction l as [|a l IH]; cbn; [discriminate|].
  destruct (Nat.eqb (sess_id a) sid) eqn:E.
  - intros _. rewrite Hs', Nat.eqb_refl. reflexivity.
  - intro H. rewrite E. apply IH, H.
Qed.

Lemma map_replace_ids (s' : Session) sid l :
  sess_id s' = sid ->
  map sess_id (map (fun x => if Nat.eqb (sess_id x) sid then s' else x) l)
  = map sess_id l.
Proof.
  intro H. induction l as [|a l IH]; cbn; [reflexivity|].
  rewrite IH. destruct (Nat.eqb (sess_id a) sid) eqn:E; [|reflexivity].
  apply Nat.eqb_eq in E. congruence.
Qed.

Lemma In_replace (s' : Session) sid l x :
  In x (map (fun y => if Nat.eqb (sess_id y) sid then s' else y) l) ->
  (x = s' /\ exists y, In y l /\ sess_id y = sid) \/ (In x l /\ sess_id x <> sid).
Proof.
  induction l as [|a l IH]; cbn; [tauto|].
  intros [H|H].
  - destruct (Nat.eqb (sess_id a) sid) eqn:E.
    + left. split; [auto|]. exists a. apply Nat.eqb_eq in E. auto.
    + right. subst x. apply Nat.eqb_neq in E. auto.
  - destruct (IH H) as [[? [y [? ?]]]|[? ?]]; [left|right]; eauto.
Qed.

Lemma In_replace_intro (s' : Session) sid l y :
  In y l ->
  In (if Nat.eqb (sess_id y) sid then s' else y)
     (map (fun y => if Nat.eqb (sess_id y) sid then s' else y) l).
Proof. intro H. apply (in_map (fun y => if Nat.eqb (sess_id y) sid then s' else y)), H. Qed.

Lemma NoDup_ids_eq l (a b : Session) :
  NoDup (map sess_id l) -> In a l -> In b l -> sess_id a = sess_id b -> a = b.
Proof.
  induction l as [|x l IH]; cbn; [tauto|].
  intros N Ha Hb E. inversion N as [|? ? Hx N']; subst.
  destruct Ha as [Ha|Ha], Hb as [Hb|Hb]; subst; auto.
  - exfalso. apply Hx. rewrite E. apply in_map, Hb.
  - exfalso. apply Hx. rewrite <- E. apply in_map, Ha.
Qed.

Lemma timer_inv_detect s sp w :
  In s (sessions w) -> timer_inv w -> timer_inv (detectVolume_in s sp w).
Proof.
  intros Hin (N & Hid & Hlt & Harm).
  destruct (detectVolume_in_effect s sp w _ eq_refl) as (_ & Et & En & Es & Ec).
  revert Et En Es Ec.
  generalize (detectVolume_in s sp w) as w'.
  generalize (aboveThreshold (getByteFrequencyData sp)) as loud.
  intros loud w' Et En Es Ec.
  set (s' := mkSession _ _ _ _) in Es.
  assert (Hs' : sess_id s' = sess_id s) by reflexivity.
  unfold timer_inv. rewrite Es, Ec, En, Et. clear Es Ec En Et.
  split; [|split; [|split]].
  - rewrite map_replace_ids; assumption.
  - intros x Hx. apply In_replace in Hx.
    destruct Hx as [[-> _]|[Hx _]]; [rewrite Hs'|]; auto.
  - intros x t Hx Ht. apply In_replace in Hx.
    destruct Hx as [[-> _]|[Hx _]].
    + subst s'. cbn in Ht. destruct loud.
      * injection Ht as <-. lia.
      * specialize (Hlt s t Hin Ht). lia.
    + specialize (Hlt x t Hx Ht). destruct loud; lia.
  - intros t d Ht. destruct loud.
    + apply in_app_or in Ht. destruct Ht as [Ht|Ht].
      * assert (Ht' : In (t, d) (timers w) /\ silenceTimeout s <> Some t).
        { destruct (silenceTimeout s) as [t0|]; [|split; [assumption|discriminate]].
          apply filter_In in Ht. destruct Ht as [Ht Hne]. split; [assumption|].
          cbn in Hne. apply negb_true_iff, Pos.eqb_neq in Hne. congruence. }
        destruct Ht' as [Ht' Hne]. destruct (Harm t d Ht') as [x [Hx Hxt]].
        exists x. split; [|assumption].
        assert (sess_id x <> sess_id s).
        { intro E. apply (NoDup_ids_eq _ _ _ N Hx Hin) in E. congruence. }
        pose proof (In_replace_intro s' (sess_id s) _ x Hx) as R.
        apply Nat.eqb_neq in H. rewrite H in R. exact R.
      * destruct Ht as [Ht|[]]. injection Ht as <- <-.
        exists s'. split; [|reflexivity].
        pose proof (In_replace_intro s' (sess_id s) _ s Hin) as R.
        rewrite Nat.eqb_refl in R. exact R.
    + destruct (Harm t d Ht) as [x [Hx Hxt]].
      destruct (Nat.eqb (sess_id x) (sess_id s)) eqn:E.
      * apply Nat.eqb_eq in E. apply (NoDup_ids_eq _ _ _ N Hx Hin) in E. subst x.
        exists s'. split; [|exact Hxt].
        pose proof (In_replace_intro s' (sess_id s) _ s Hin) as R.
        rewrite Nat.eqb_refl in R. exact R.
      * exists x. split; [|exact Hxt].
        pose proof (In_replace_intro s' (sess_id s) _ x Hx) as R.
        rewrite E in R. exact R.
Qed.

Lemma audioCells_out fs f :
  forallb (fun f => negb (inb f fs)) audioCells = true ->
  In f audioCells -> inb f fs = false.
Proof.
  intros H Hin. rewrite forallb_forall in H. apply negb_true_iff, H, Hin.
Qed.

Lemma timer_inv_agree fs w w' :
  agree fs w w' ->
  forallb (fun f => negb (inb f fs))
    [F_sessions; F_setupCalls; F_timers; F_nextTimer] = true ->
  timer_inv w -> timer_inv w'.
Proof.
  intros H Hfs. cbn in Hfs.
  repeat (apply andb_prop in Hfs; destruct Hfs as [?%negb_true_iff Hfs]).
  pose proof (H F_sessions ltac:(assumption)) as E1.
  pose proof (H F_setupCalls ltac:(assumption)) as E2.
  pose proof (H F_timers ltac:(assumption)) as E3.
  pose proof (H F_nextTimer ltac:(assumption)) as E4.
  cbn [get ftype] in E1, E2, E3, E4. unfold timer_inv.
  rewrite E1, E2, E3, E4. tauto.
Qed.

Lemma timer_inv_detectVolume sid sp w :
  timer_inv w -> timer_inv (detectVolume sid sp w).
Proof.
  intro H. unfold detectVolume. destruct (find_session sid w) as [s|] eqn:F; [|exact H].
  apply find_session_In in F. apply timer_inv_detect; tauto.
Qed.

Lemma timer_inv_new_session s w :
  timer_inv w ->
  timer_inv
    (with_sessions
       (sessions (with_setupCalls (S (setupCalls w)) w)
          ++ [mkSession (setupCalls w) s None 0])
       (with_setupCalls (S (setupCalls w)) w)).
Proof.
  intros (N & Hid & Hlt & Harm). unfold timer_inv. cbn.
  split; [|split; [|split]].
  - rewrite map_app. cbn.
    apply NoDup_app; [exact N | repeat constructor; auto|].
    intros a Ha [<-|[]]. apply in_map_iff in Ha. destruct Ha as [x [Hx Hin]].
    specialize (Hid x Hin). lia.
  - intros x Hx. apply in_app_or in Hx. destruct Hx as [Hx|[<-|[]]].
    + specialize (Hid x Hx). lia.
    + cbn. lia.
  - intros x t Hx Ht. apply in_app_or in Hx. destruct Hx as [Hx|[<-|[]]].
    + eauto.
    + discriminate.
  - intros t d Ht. destruct (Harm t d Ht) as [x [Hx Hxt]].
    exists x. split; [apply in_or_app; auto | exact Hxt].
Qed.

Lemma timer_inv_fire t w :
  timer_inv w -> timer_inv (silenceCallback (clearTimeout t w)).
Proof.
  intros (N & Hid & Hlt & Harm).
  eapply timer_inv_agree; [apply silenceCallback_fp | reflexivity |].
  unfold timer_inv, clearTimeout. cbn.
  repeat split; auto.
  intros t' d Ht. apply filter_In in Ht. destruct Ht as [Ht _]. eauto.
Qed.

Create HintDb ap.

Section AudioPath.

Variable audioContext : nat -> option (list Z).

Lemma timer_inv_setup s w :
  timer_inv w -> timer_inv (setupAudioAnalyser audioContext s w).
Proof.
  intro H. unfold setupAudioAnalyser.
  destruct (audioContext (setupCalls w)) as [sp|].
  - destruct (Nat.eqb _ _).
    + assert (H0 : timer_inv (with_setupCalls (S (setupCalls w)) w)).
      { destruct H as (N & Hid & Hlt & Harm). unfold timer_inv. cbn.
        repeat split; auto. intros x Hx. specialize (Hid x Hx). lia. }
      eapply timer_inv_agree; [apply log_fp | reflexivity | exact H0].
    + apply timer_inv_detectVolume, timer_inv_new_session, H.
  - assert (H0 : timer_inv (with_setupCalls (S (setupCalls w)) w)).
    { destruct H as (N & Hid & Hlt & Harm). unfold timer_inv. cbn.
      repeat split; auto. intros x Hx. specialize (Hid x Hx). lia. }
    eapply timer_inv_agree; [apply log_fp | reflexivity | exact H0].
Qed.

Lemma timer_inv_path w w' :
  audio_path audioContext w w' -> timer_inv w -> timer_inv w'.
Proof.
  induction 1 as [w|w x y fs P IH A C|w x s P IH|w x sid sp P IH]; intro Hw; auto.
  - eapply timer_inv_agree; [exact A | | auto].
    cbn [forallb].
    rewrite (audioCells_out fs F_sessions C), (audioCells_out fs F_setupCalls C),
      (audioCells_out fs F_timers C), (audioCells_out fs F_nextTimer C)
      by (cbn; tauto).
    reflexivity.
  - apply timer_inv_setup; auto.
  - apply timer_inv_detectVolume; auto.
Qed.

#[local] Hint Resolve ap_nil ap_setup ap_frame : ap.
#[local] Hint Extern 5 (audio_path _ _ _) =>
  eapply ap_other; cycle 1;
  [ solve [auto with fp nocore] | vm_compute; reflexivity | ] : ap.

Ltac ap_chain := solve [auto 30 with ap nocore].

Lemma getLocalCamera_finish_ap w x s :
  audio_path audioContext w x ->
  audio_path audioContext w (getLocalCamera_finish audioContext s x).
Proof. intro H. unfold getLocalCamera_finish. ap_chain. Qed.

#[local] Hint Resolve getLocalCamera_finish_ap : ap.

Lemma getLocalCamera_granted_ap w x s :
  audio_path audioContext w x ->
  audio_path audioContext w (getLocalCamera_granted audioContext s x).
Proof.
  intro H. unfold getLocalCamera_granted. destruct (videoRef _); ap_chain.
Qed.

Lemma play_resolved_ap w x k :
  audio_path audioContext w x ->
  audio_path audioContext w (play_resolved audioContext k x).
Proof. intro H. unfold play_resolved. destruct k; ap_chain. Qed.

Lemma play_rejected_ap w x k :
  audio_path audioContext w x ->
  audio_path audioContext w (play_rejected audioContext k x).
Proof. intro H. unfold play_rejected. destruct k as [[|]| |]; ap_chain. Qed.

Lemma audioEffect_ap w x :
  audio_path audioContext w x ->
  audio_path audioContext w (audioEffect audioContext x).
Proof.
  intro H. unfold audioEffect.
  destruct (negb _); [destruct (currentStream _ _); [destruct (Nat.ltb _ _)|]|];
    ap_chain.
Qed.

#[local] Hint Resolve getLocalCamera_granted_ap play_resolved_ap play_rejected_ap
  audioEffect_ap : ap.

Lemma runEffects_ap w x :
  audio_path audioContext w x ->
  audio_path audioContext w (runEffects audioContext x).
Proof.
  intro H. unfold runEffects.
  destruct (allDepsChanged _ _), (localDepsChanged _ _), (streamDepsChanged _ _);
    ap_chain.
Qed.

#[local] Hint Resolve runEffects_ap : ap.

Lemma flush_ap w x :
  audio_path audioContext w x ->
  audio_path audioContext w (flush audioContext x).
Proof. intro H. unfold flush. destruct (mounted x); ap_chain. Qed.

#[local] Hint Resolve flush_ap : ap.

Lemma handle_ap w e :
  isTimerFire e = false -> isTrackChange e = false ->
  audio_path audioContext w (handle audioContext w e).
Proof.
  intros NT NC. destruct e as [s r| |id s|id msg|id|id| | | |sid sp|t|dt|s a];
    try discriminate NT; try discriminate NC; cbn [handle].
  - destruct (mounted w); ap_chain.
  - destruct (mounted w); [|ap_chain].
    eapply ap_other; [apply ap_nil | apply unmount_fp | reflexivity].
  - destruct (take_gum id w) as [w1|] eqn:T; [|ap_chain].
    apply take_gum_fp in T. apply getLocalCamera_granted_ap.
    eapply ap_other; [apply ap_nil | exact T | reflexivity].
  - destruct (take_gum id w) as [w1|] eqn:T; [|ap_chain].
    apply take_gum_fp in T.
    eapply ap_other; [|apply getLocalCamera_denied_fp | reflexivity].
    eapply ap_other; [apply ap_nil | exact T | reflexivity].
  - destruct (take_play id w) as [[k w1]|] eqn:T; [|ap_chain].
    apply take_play_fp in T. apply play_resolved_ap.
    eapply ap_other; [apply ap_nil | exact T | reflexivity].
  - destruct (take_play id w) as [[k w1]|] eqn:T; [|ap_chain].
    apply take_play_fp in T. apply play_rejected_ap.
    eapply ap_other; [apply ap_nil | exact T | reflexivity].
  - ap_chain.
  - ap_chain.
  - destruct (retryShown w); [|ap_chain]. cbv zeta.
    eapply ap_other; [|apply dispatch_fp | reflexivity]. ap_chain.
  - ap_chain.
  - ap_chain.
Qed.

Lemma step_ap w e :
  isTimerFire e = false -> isTrackChange e = false ->
  audio_path audioContext w (step audioContext w e).
Proof. intros NT NC. unfold step. apply flush_ap, handle_ap; assumption. Qed.

Lemma step_track_ap w s a :
  audio_path audioContext (handle audioContext w (TrackChange s a))
    (step audioContext w (TrackChange s a)).
Proof. unfold step. apply flush_ap, ap_nil. Qed.

Lemma step_fire_ap w t :
  audio_path audioContext
    (if timer_due t w then silenceCallback (clearTimeout t w) else w)
    (step audioContext w (TimerFire t)).
Proof. unfold step. cbn [handle]. apply flush_ap, ap_nil. Qed.

Lemma timer_inv_step w e : timer_inv w -> timer_inv (step audioContext w e).
Proof.
  intro H. destruct (isTimerFire e) eqn:T.
  - destruct e; try discriminate T.
    eapply timer_inv_path; [apply step_fire_ap|].
    destruct (timer_due t w); [apply timer_inv_fire|]; exact H.
  - destruct (isTrackChange e) eqn:C.
    + destruct e; try discriminate C.
      eapply timer_inv_path; [apply step_track_ap|].
      eapply timer_inv_agree; [apply handle_fp | reflexivity | exact H].
    + eapply timer_inv_path; [apply step_ap; assumption | exact H].
Qed.

Lemma timer_inv_pristine tracks s r : timer_inv (pristine tracks s r).
Proof.
  unfold timer_inv. cbn. repeat split; try constructor; intros; contradiction.
Qed.

Lemma timer_inv_run tracks s r tr : timer_inv (run audioContext tracks s r tr).
Proof.
  unfold run. induction tr as [|e tr IHtr] using rev_ind.
  - cbn [fold_left]. unfold mount. eapply timer_inv_path; [apply flush_ap, ap_nil|].
    apply timer_inv_pristine.
  - rewrite fold_left_app. apply timer_inv_step, IHtr.
Qed.

End AudioPath.

Section Hysteresis.

Variable audioContext : nat -> option (list Z).

Lemma detectVolume_speaking_mono sid sp w :
  isSpeaking w = true -> isSpeaking (detectVolume sid sp w) = true.
Proof.
  intro H. unfold detectVolume. destruct (find_session sid w) as [s|]; [|exact H].
  destruct (detectVolume_in_effect s sp w _ eq_refl) as (E & _). rewrite E, H.
  destruct (_ && _); reflexivity.
Qed.

Lemma setup_speaking_mono s w :
  isSpeaking w = true -> isSpeaking (setupAudioAnalyser audioContext s w) = true.
Proof.
  intro H. unfold setupAudioAnalyser.
  destruct (audioContext (setupCalls w)) as [sp|]; [destruct (Nat.eqb _ _)|].
  - rewrite <- H. fp_eq F_isSpeaking.
  - apply detectVolume_speaking_mono. exact H.
  - rewrite <- H. fp_eq F_isSpeaking.
Qed.

Lemma speaking_mono_path w w' :
  audio_path audioContext w w' -> isSpeaking w = true -> isSpeaking w' = true.
Proof.
  induction 1 as [w|w x y fs P IH A C|w x s P IH|w x sid sp P IH]; intro Hw; auto.
  - rewrite <- (IH Hw).
    exact (A F_isSpeaking (audioCells_out fs F_isSpeaking C ltac:(cbn; tauto))).
  - apply setup_speaking_mono; auto.
  - apply detectVolume_speaking_mono; auto.
Qed.

(** The cells written by an animation frame of session [sid]. *)
Lemma frame_step_effect w sid s sp loud :
  settled w ->
  find_session sid w = Some s ->
  aboveThreshold (getByteFrequencyData sp) = loud ->
  let w' := step audioContext w (Frame sid sp) in
  isSpeaking w' = (if loud && mounted w then true else isSpeaking w)
  /\ timers w' =
       (if loud then
          match silenceTimeout s with
          | Some t => filter (fun e => negb (Pos.eqb (fst e) t)) (timers w)
          | None => timers w
          end ++ [(nextTimer w, (now w + 800)%Z)]
        else timers w)
  /\ find_session sid w' =
       Some (mkSession (sess_id s) (sess_stream s)
               (if loud then Some (nextTimer w) else silenceTimeout s)
               (S (reads s))).
Proof.
  intros Hs F L w'.
  assert (Hh : handle audioContext w (Frame sid sp) = detectVolume_in s sp w).
  { cbn [handle]. unfold detectVolume. rewrite F. reflexivity. }
  assert (Hs' : settled (handle audioContext w (Frame sid sp))).
  { apply handle_settled; [reflexivity | exact Hs]. }
  pose proof (flush_settled_fp audioContext _ Hs') as A.
  fold (step audioContext w (Frame sid sp)) in A. fold w' in A.
  frame_of A F_isSpeaking. frame_of A F_timers. frame_of A F_sessions.
  rewrite Hh in E, E0, E1.
  destruct (detectVolume_in_effect s sp w loud L) as (Ei & Et & _ & Es & _).
  rewrite E, E0. split; [exact Ei | split; [exact Et|]].
  unfold find_session. rewrite E1. unfold find_session in F.
  destruct (find_session_In sid w s F) as [_ Hid].
  rewrite Es, Hid. eapply find_replaced; [reflexivity | exact F].
Qed.

Lemma speaking_cleared_by_timer w e :
  timer_inv w ->
  isSpeaking w = true -> isSpeaking (step audioContext w e) = false ->
  exists t d, e = TimerFire t /\ In (t, d) (timers w) /\ (d <= now w)%Z
    /\ exists s, In s (sessions w) /\ silenceTimeout s = Some t.
Proof.
  intros Inv Hw Hw'. destruct (isTimerFire e) eqn:T.
  - destruct e; try discriminate T.
    pose proof (step_fire_ap audioContext w t) as P.
    destruct (timer_due t w) eqn:D.
    + unfold timer_due in D. apply existsb_exists in D.
      destruct D as [[t' d] [Hin Hd]]. cbn in Hd.
      apply andb_prop in Hd. destruct Hd as [Ht Hd].
      apply Pos.eqb_eq in Ht. subst t'. apply Z.leb_le in Hd.
      exists t, d. repeat split; auto.
      destruct Inv as (_ & _ & _ & Harm). eauto.
    + rewrite (speaking_mono_path _ _ P Hw) in Hw'. discriminate.
  - destruct (isTrackChange e) eqn:C.
    + destruct e; try discriminate C.
      pose proof (step_track_ap audioContext w s audio) as P.
      assert (Hh : isSpeaking (handle audioContext w (TrackChange s audio)) = true).
      { rewrite <- Hw. exact (handle_fp audioContext w (TrackChange s audio) F_isSpeaking eq_refl). }
      rewrite (speaking_mono_path _ _ P Hh) in Hw'. discriminate.
    + rewrite (speaking_mono_path _ _ (step_ap audioContext w e T C) Hw) in Hw'.
      discriminate.
Qed.

End Hysteresis.

(** Scenario D of the specification: mean magnitudes 5, 5, 25, 5, 5, 5
    sampled 100 ms apart.  [isSpeaking] turns true at the third sample, is
    still true after the sixth, the timer armed at 200 ms is not due before
    1000 ms, and its expiry then clears [isSpeaking]. *)
Example scenario_D :
  let quiet := [Frame 0 (flat 5); Elapse 100] in
  let w2 := run silentAudio oneTrack None false (GumResolve 0 9 :: quiet ++ quiet) in
  let w3 := step silentAudio w2 (Frame 0 (flat 25)) in
  let w6 := fold_left (step silentAudio)
              (Elapse 100 :: quiet ++ quiet ++ [Frame 0 (flat 5)]) w3 in
  let w7 := step silentAudio w6 (Elapse 499) in
  let w8 := step silentAudio w7 (Elapse 1) in
  isSpeaking w2 = false /\ isSpeaking w3 = true /\ timers w3 = [(1%positive, 1000%Z)]
  /\ isSpeaking w6 = true /\ now w6 = 500%Z
  /\ timer_due 1 w7 = false /\ isSpeaking (step silentAudio w7 (TimerFire 1)) = true
  /\ timer_due 1 w8 = true /\ isSpeaking (step silentAudio w8 (TimerFire 1)) = false.
Proof. vm_compute. repeat split. Qed.

(** * Sessions are never retired *)

Section Sessions.

Variable audioContext : nat -> option (list Z).

Lemma detectVolume_ids sid sp w :
  map sess_id (sessions (detectVolume sid sp w)) = map sess_id (sessions w).
Proof.
  unfold detectVolume. destruct (find_session sid w) as [s|]; [|reflexivity].
  destruct (detectVolume_in_effect s sp w _ eq_refl) as (_ & _ & _ & Es & _).
  rewrite Es. apply map_replace_ids. reflexivity.
Qed.

Lemma setup_ids s w :
  map sess_id (sessions (setupAudioAnalyser audioContext s w))
  = map sess_id (sessions w)
    ++ match audioContext (setupCalls w) with
       | Some _ => if Nat.eqb (audioTracks w s) 0 then [] else [setupCalls w]
       | None => []
       end.
Proof.
  unfold setupAudioAnalyser.
  destruct (audioContext (setupCalls w)) as [sp|].
  - cbn [audioTracks with_setupCalls]. destruct (Nat.eqb (audioTracks w s) 0).
    + rewrite app_nil_r. cbn. reflexivity.
    + rewrite detectVolume_ids. cbn. rewrite map_app. reflexivity.
  - rewrite app_nil_r. cbn. reflexivity.
Qed.

Lemma ids_grow_path w w' :
  audio_path audioContext w w' ->
  exists l, map sess_id (sessions w') = map sess_id (sessions w) ++ l.
Proof.
  induction 1 as [w|w x y fs P IH A C|w x s P IH|w x sid sp P IH].
  - exists []. rewrite app_nil_r. reflexivity.
  - destruct IH as [l IH]. exists l. rewrite <- IH.
    f_equal. exact (A F_sessions (audioCells_out fs F_sessions C ltac:(cbn; tauto))).
  - destruct IH as [l IH]. rewrite setup_ids, IH, <- app_assoc. eauto.
  - destruct IH as [l IH]. rewrite detectVolume_ids. eauto.
Qed.

Lemma fire_sessions t w :
  sessions (if timer_due t w then silenceCallback (clearTimeout t w) else w)
  = sessions w.
Proof.
  destruct (timer_due t w); [|reflexivity]. fp_eq F_sessions.
Qed.

Lemma step_ids_grow w e :
  exists l, map sess_id (sessions (step audioContext w e))
            = map sess_id (sessions w) ++ l.
Proof.
  destruct (isTimerFire e) eqn:T.
  - destruct e; try discriminate T.
    destruct (ids_grow_path _ _ (step_fire_ap audioContext w t)) as [l H].
    rewrite fire_sessions in H. eauto.
  - destruct (isTrackChange e) eqn:C.
    + destruct e; try discriminate C.
      destruct (ids_grow_path _ _ (step_track_ap audioContext w s audio)) as [l H].
      rewrite (handle_fp audioContext w (TrackChange s audio) F_sessions eq_refl : sessions _ = sessions w) in H.
      eauto.
    + apply ids_grow_path, step_ap; assumption.
Qed.

End Sessions.

(** C2, as the code has it.  No event retires a session: the sessions running
    before an event are still running after it, in the same order, followed by
    those the event started; and every [setupAudioAnalyser] call that can
    build its analyser on a stream with an audio track starts exactly one new
    session next to the existing ones. *)
Theorem sessions_accumulate
    (audioContext : nat -> option (list Z)) (w : World) :
  (forall e, exists started,
     map sess_id (sessions (step audioContext w e))
     = map sess_id (sessions w) ++ started)
  /\ (forall s sp,
        audioContext (setupCalls w) = Some sp -> audioTracks w s <> 0 ->
        map sess_id (sessions (setupAudioAnalyser audioContext s w))
        = map sess_id (sessions w) ++ [setupCalls w]).
Proof.
  split.
  - intro e. apply step_ids_grow.
  - intros s sp Hc Ht. rewrite setup_ids, Hc.
    apply Nat.eqb_neq in Ht. rewrite Ht. reflexivity.
Qed.

Lemma sessions_accumulate_witness :
  let w := mount silentAudio oneTrack None false in
  map sess_id (sessions (setupAudioAnalyser silentAudio 9 w)) = [0].
Proof.
  intro w.
  rewrite (proj2 (sessions_accumulate silentAudio w) 9 []).
  - vm_compute. reflexivity.
  - vm_compute. reflexivity.
  - vm_compute. discriminate.
Defined.

(** C2 as stated fails: one successful self-acquisition starts two sessions
    on the acquired stream, both of which keep sampling. *)
Lemma two_sessions_after_one_acquisition :
  let w := run silentAudio oneTrack None false [GumResolve 0 9] in
  map sess_stream (sessions w) = [9; 9]
  /\ map reads (sessions (step silentAudio (step silentAudio w (Frame 0 (flat 5)))
                            (Frame 1 (flat 5)))) = [2; 2]
  /\ ~ (List.length (sessions w) <= 1).
Proof.
  vm_compute. repeat split. intro H. inversion H as [|n H0]. inversion H0.
Qed.

(** * The interaction listener *)

Lemma remove_first_fold_self ls rest :
  fold_left (fun acc l => remove_first l acc) ls (ls ++ rest) = rest.
Proof.
  induction ls as [|l ls IH]; cbn; [reflexivity|].
  rewrite Nat.eqb_refl. exact IH.
Qed.

Lemma enableAudio_click l w :
  clickListeners (enableAudio l w) = remove_first l (clickListeners w).
Proof. unfold enableAudio. destruct (videoRef w); reflexivity. Qed.

Lemma enableAudio_touch l w :
  touchListeners (enableAudio l w) = remove_first l (touchListeners w).
Proof. unfold enableAudio. destruct (videoRef w); reflexivity. Qed.

Lemma dispatch_click ls w :
  clickListeners (dispatch ls w)
  = fold_left (fun acc l => remove_first l acc) ls (clickListeners w).
Proof.
  unfold dispatch. revert w. induction ls as [|l ls IH]; intro w; cbn; [reflexivity|].
  rewrite IH, enableAudio_click. reflexivity.
Qed.

Lemma dispatch_touch ls w :
  touchListeners (dispatch ls w)
  = fold_left (fun acc l => remove_first l acc) ls (touchListeners w).
Proof.
  unfold dispatch. revert w. induction ls as [|l ls IH]; intro w; cbn; [reflexivity|].
  rewrite IH, enableAudio_touch. reflexivity.
Qed.

Section Listeners.

Variable audioContext : nat -> option (list Z).

Lemma at_rest_settled w : at_rest audioContext w -> settled w.
Proof. intro H. rewrite <- H. apply settled_flush. Qed.

Lemma flush_idem w : at_rest audioContext (flush audioContext w).
Proof.
  unfold at_rest. rewrite (flush_settled audioContext _ (settled_flush audioContext w)).
  destruct (mounted (flush audioContext w)) eqn:M; [|reflexivity].
  unfold flush in *. destruct (mounted w) eqn:Mw; [|congruence].
  apply commitRef_idem.
Qed.

Lemma at_rest_run tracks s r tr : at_rest audioContext (run audioContext tracks s r tr).
Proof.
  unfold run. destruct tr as [|e tr] using rev_ind.
  - apply flush_idem.
  - rewrite fold_left_app. apply flush_idem.
Qed.

Lemma at_rest_video w v :
  at_rest audioContext w -> mounted w = true -> videoRef w = Some v ->
  videoShown w = true.
Proof.
  intros R M V. pose proof (at_rest_settled w R) as Hs.
  unfold at_rest in R. rewrite (flush_settled audioContext w Hs), M in R.
  destruct (videoShown w) eqn:E; [reflexivity|].
  assert (videoRef (commitRef w) = None) by (unfold commitRef; cbn; rewrite E; reflexivity).
  congruence.
Qed.

Lemma step_clickListeners w e :
  clickListeners (step audioContext w e) = clickListeners (handle audioContext w e).
Proof. unfold step. fp_eq F_clickListeners. Qed.

Lemma step_touchListeners w e :
  touchListeners (step audioContext w e) = touchListeners (handle audioContext w e).
Proof. unfold step. fp_eq F_touchListeners. Qed.

Lemma play_rejected_click k w :
  clickListeners (play_rejected audioContext k w)
  = match k with
    | PlayVideo true => clickListeners w ++ [nextListener w]
    | _ => clickListeners w
    end.
Proof.
  destruct k as [[|]|s|]; unfold play_rejected.
  - unfold armEnableAudio. cbn.
    replace (clickListeners (setIsLoading false (log (WarnAutoplay true) w)))
      with (clickListeners w) by (symmetry; fp_eq F_clickListeners).
    replace (nextListener (setIsLoading false (log (WarnAutoplay true) w)))
      with (nextListener w) by (symmetry; fp_eq F_nextListener).
    reflexivity.
  - fp_eq F_clickListeners.
  - fp_eq F_clickListeners.
  - fp_eq F_clickListeners.
Qed.

Lemma play_rejected_touch k w :
  touchListeners (play_rejected audioContext k w)
  = match k with
    | PlayVideo true => touchListeners w ++ [nextListener w]
    | _ => touchListeners w
    end.
Proof.
  destruct k as [[|]|s|]; unfold play_rejected.
  - unfold armEnableAudio. cbn.
    replace (touchListeners (setIsLoading false (log (WarnAutoplay true) w)))
      with (touchListeners w) by (symmetry; fp_eq F_touchListeners).
    replace (nextListener (setIsLoading false (log (WarnAutoplay true) w)))
      with (nextListener w) by (symmetry; fp_eq F_nextListener).
    reflexivity.
  - fp_eq F_touchListeners.
  - fp_eq F_touchListeners.
  - fp_eq F_touchListeners.
Qed.

Lemma reject_listeners w id k w1 :
  take_play id w = Some (k, w1) ->
  clickListeners (step audioContext w (PlayReject id))
  = match k with
    | PlayVideo true => clickListeners w ++ [nextListener w]
    | _ => clickListeners w
    end
  /\ touchListeners (step audioContext w (PlayReject id))
  = match k with
    | PlayVideo true => touchListeners w ++ [nextListener w]
    | _ => touchListeners w
    end.
Proof.
  intro T. rewrite step_clickListeners, step_touchListeners. cbn [handle].
  rewrite T, play_rejected_click, play_rejected_touch.
  apply take_play_fp in T.
  frame_of T F_clickListeners. frame_of T F_touchListeners. frame_of T F_nextListener.
  rewrite E, E0, E1. split; reflexivity.
Qed.

End Listeners.

(** C3 as stated fails: two blocked playback starts of a remote instance
    leave two listeners pending. *)
Lemma two_unlock_listeners_pending :
  let w := run silentAudio oneTrack None true
             [SetProps (Some 1) true; PlayReject 0;
              SetProps (Some 2) true; PlayReject 1] in
  clickListeners w = [0; 1]
  /\ touchListeners w = [0; 1]
  /\ ~ (List.length (clickListeners w) <= 1).
Proof.
  vm_compute. repeat split. intro H. inversion H as [|n H0]. inversion H0.
Qed.

Section Firing.

Variable audioContext : nat -> option (list Z).

Lemma at_rest_novideo w :
  at_rest audioContext w -> mounted w = true -> videoRef w = None ->
  videoShown w = false.
Proof.
  intros R M V. pose proof (at_rest_settled audioContext w R) as Hs.
  unfold at_rest in R. rewrite (flush_settled audioContext w Hs), M in R.
  destruct (videoShown w) eqn:E; [|reflexivity].
  assert (isSome (videoRef (commitRef w)) = true)
    by (unfold commitRef; cbn; rewrite E; reflexivity).
  rewrite R, V in H. discriminate.
Qed.

Lemma videoShown_agree fs w w' :
  agree fs w w' ->
  forallb (fun f => negb (inb f fs))
    [F_isLoading; F_error; F_stream; F_localStream] = true ->
  videoShown w' = videoShown w.
Proof.
  intros H Hfs. cbn in Hfs.
  repeat (apply andb_prop in Hfs; destruct Hfs as [?%negb_true_iff Hfs]).
  pose proof (H F_isLoading ltac:(assumption)) as E1.
  pose proof (H F_error ltac:(assumption)) as E2.
  pose proof (H F_stream ltac:(assumption)) as E3.
  pose proof (H F_localStream ltac:(assumption)) as E4.
  cbn [get ftype] in E1, E2, E3, E4. unfold videoShown.
  rewrite E1, E2, E3, E4. reflexivity.
Qed.

(** One armed listener, fired by an event dispatched to list [ls = [l]]. *)
Lemma fire_single w l :
  at_rest audioContext w ->
  let w' := flush audioContext (dispatch [l] w) in
  clickListeners w' = remove_first l (clickListeners w)
  /\ touchListeners w' = remove_first l (touchListeners w)
  /\ match videoRef w with
     | Some v =>
         videoRef w' = Some (mkVideo (srcObject v) false 1%Q)
         /\ pendingPlay w' = pendingPlay w ++ [(nextReq w, EnableAudio)]
     | None => videoRef w' = None /\ pendingPlay w' = pendingPlay w
     end.
Proof.
  intros R w'. subst w'. cbn [dispatch fold_left].
  pose proof (at_rest_settled audioContext w R) as Hs.
  assert (Hs' : settled (enableAudio l w)).
  { eapply agree_settled; [apply enableAudio_fp | reflexivity | exact Hs]. }
  split; [|split].
  - transitivity (clickListeners (enableAudio l w));
      [fp_eq F_clickListeners | apply enableAudio_click].
  - transitivity (touchListeners (enableAudio l w));
      [fp_eq F_touchListeners | apply enableAudio_touch].
  - rewrite (flush_settled audioContext _ Hs').
    replace (mounted (enableAudio l w)) with (mounted w) by (symmetry; fp_eq F_mounted).
    assert (Sh : videoShown (enableAudio l w) = videoShown w).
    { eapply videoShown_agree; [apply enableAudio_fp | reflexivity]. }
    destruct (videoRef w) as [v|] eqn:V.
    + destruct (mounted w) eqn:M.
      * unfold commitRef. rewrite Sh, (at_rest_video audioContext w v R M V).
        unfold enableAudio. rewrite V. cbn. split; reflexivity.
      * unfold enableAudio. rewrite V. cbn. split; reflexivity.
    + destruct (mounted w) eqn:M.
      * unfold commitRef. rewrite Sh, (at_rest_novideo w R M V).
        unfold enableAudio. rewrite V. cbn. split; reflexivity.
      * unfold enableAudio. rewrite V. cbn. rewrite V. split; reflexivity.
Qed.

End Firing.

(** * Unmounting *)

Section Disposal.

Variable audioContext : nat -> option (list Z).

Lemma step_unmounted w e :
  mounted (handle audioContext w e) = false ->
  step audioContext w e = handle audioContext w e.
Proof. intro H. unfold step, flush. rewrite H. reflexivity. Qed.

Lemma unmount_effect w :
  mounted w = true ->
  let w' := step audioContext w Unmount in
  mounted w' = false
  /\ videoRef w' = None
  /\ sessions w' = sessions w
  /\ timers w' = timers w
  /\ stopped w' =
       stopped w ++ match committed w with
                    | Some (_, Some l, _) => [l]
                    | _ => []
                    end.
Proof.
  intros M w'.
  assert (H : w' = unmount w).
  { subst w'. rewrite step_unmounted; cbn [handle]; rewrite M; reflexivity. }
  rewrite H. split; [reflexivity|]. split; [reflexivity|].
  split; [fp_eq F_sessions|]. split; [fp_eq F_timers|].
  unfold unmount.
  transitivity (stopped (stopCleanup (committed w) (trackCleanup (committed w) w)));
    [reflexivity|].
  unfold stopCleanup.
  destruct (committed w) as [[[ps [l|]] pr]|]; cbn [stopTracks stopped with_stopped];
    rewrite ?app_nil_r;
    try (f_equal; fp_eq F_stopped); fp_eq F_stopped.
Qed.

Lemma fire_unmounted w t :
  mounted w = false -> timer_due t w = true ->
  timers (step audioContext w (TimerFire t))
  = filter (fun e => negb (Pos.eqb (fst e) t)) (timers w).
Proof.
  intros M D.
  assert (H : handle audioContext w (TimerFire t) = silenceCallback (clearTimeout t w)).
  { cbn [handle]. rewrite D. reflexivity. }
  rewrite step_unmounted; rewrite H.
  - unfold silenceCallback, setIsSpeaking. cbn. rewrite M. reflexivity.
  - rewrite <- M. fp_eq F_mounted.
Qed.

End Disposal.

(** C4, as the code has it.  Unmounting stops the tracks of the stored local
    stream and detaches the video element; it removes no session and no
    timer.  After it every session still runs [detectVolume] on its animation
    frames (the read counter advances), and a due silence timer still fires
    and leaves the timer table. *)
Theorem unmount_keeps_loops_and_timers
    (audioContext : nat -> option (list Z)) (w : World) :
  mounted w = true ->
  let w' := step audioContext w Unmount in
  mounted w' = false
  /\ videoRef w' = None
  /\ sessions w' = sessions w
  /\ timers w' = timers w
  /\ stopped w' =
       stopped w ++ match committed w with
                    | Some (_, Some l, _) => [l]
                    | _ => []
                    end
  /\ (forall sid s sp, find_session sid w' = Some s ->
        option_map reads (find_session sid (step audioContext w' (Frame sid sp)))
        = Some (S (reads s)))
  /\ (forall t, timer_due t w' = true ->
        timers (step audioContext w' (TimerFire t))
        = filter (fun e => negb (Pos.eqb (fst e) t)) (timers w')).
Proof.
  intros M w'.
  destruct (unmount_effect audioContext w M) as (A & V & B & C & D).
  fold w' in A, V, B, C, D.
  repeat split; try assumption.
  - intros sid s sp F.
    destruct (frame_step_effect audioContext w' sid s sp _ (or_introl A) F eq_refl)
      as (_ & _ & E).
    rewrite E. reflexivity.
  - intros t Dt. apply fire_unmounted; assumption.
Qed.

Lemma unmount_keeps_loops_and_timers_witness :
  let w := run silentAudio oneTrack None false [GumResolve 0 9; Frame 0 (flat 25)] in
  let w' := step silentAudio w Unmount in
  mounted w' = false /\ List.length (sessions w') = 2 /\ timers w' = [(1%positive, 800%Z)]
  /\ stopped w' = [9].
Proof.
  intros w w'.
  assert (M : mounted w = true) by (vm_compute; reflexivity).
  destruct (unmount_keeps_loops_and_timers silentAudio w M) as (A & _ & B & C & D & _).
  fold w' in A, B, C, D. rewrite B, C, D.
  split; [exact A|]. vm_compute. repeat split.
Defined.

(** C4 as stated fails: after the unmount the sampling loop of session 0
    still reads the analyser, and the silence timer armed before the unmount
    still fires when it is due. *)
Lemma sampling_continues_after_unmount :
  let w := run silentAudio oneTrack None false
             [GumResolve 0 9; Frame 0 (flat 25); Unmount] in
  let w1 := step silentAudio w (Frame 0 (flat 5)) in
  let w2 := step silentAudio (step silentAudio w (Elapse 800)) (TimerFire 1) in
  mounted w = false
  /\ map reads (sessions w) = [2; 1]
  /\ map reads (sessions w1) = [3; 1]
  /\ timers w = [(1%positive, 800%Z)]
  /\ timer_due 1 (step silentAudio w (Elapse 800)) = true
  /\ timers w2 = [].
Proof. vm_compute. repeat split. Qed.

(** * Ownership of streams *)

Ltac handle_frame f :=
  match goal with
  | |- context [handle ?a ?w ?e] => exact (handle_fp a w e f eq_refl)
  end.

Section Ownership.

Variable audioContext : nat -> option (list Z).

Lemma stopCleanup_stopped prev w x :
  In x (stopped (stopCleanup prev w)) -> In x (stopped w) \/ local_of prev = Some x.
Proof.
  unfold stopCleanup, local_of. destruct prev as [[[ps [l|]] pr]|]; auto.
  cbn. intro H. apply in_app_or in H. destruct H as [H|[<-|[]]]; auto.
Qed.

Lemma runEffects_stopped w x :
  In x (stopped (runEffects audioContext w)) ->
  In x (stopped w) \/ local_of (committed w) = Some x.
Proof.
  unfold runEffects.
  set (d := (stream w, localStream w, isRemote w)). set (prev := committed w).
  set (w1 := if allDepsChanged prev d then trackCleanup prev w else w).
  set (w2 := if localDepsChanged prev d then stopCleanup prev w1 else w1).
  set (w3 := if streamDepsChanged prev d then streamEffect w2 else w2).
  set (w4 := if allDepsChanged prev d then trackEffect w3 else w3).
  set (w5 := if allDepsChanged prev d then audioEffect audioContext w4 else w4).
  assert (E5 : stopped (with_committed (Some d) w5) = stopped w2).
  { subst w5 w4 w3.
    destruct (allDepsChanged prev d), (streamDepsChanged prev d); fp_eq F_stopped. }
  assert (E1 : stopped w1 = stopped w).
  { subst w1. destruct (allDepsChanged prev d); fp_eq F_stopped. }
  rewrite E5. subst w2. destruct (localDepsChanged prev d).
  - intro H. apply stopCleanup_stopped in H. rewrite E1 in H. exact H.
  - rewrite E1. auto.
Qed.

Lemma flush_stopped w x :
  In x (stopped (flush audioContext w)) ->
  In x (stopped w) \/ local_of (committed w) = Some x.
Proof.
  unfold flush. destruct (mounted w); [|auto].
  replace (stopped (commitRef (runEffects audioContext (commitRef w))))
    with (stopped (runEffects audioContext (commitRef w))) by (symmetry; fp_eq F_stopped).
  intro H. apply runEffects_stopped in H. exact H.
Qed.

Lemma flush_committed w :
  local_of (committed (flush audioContext w)) = local_of (committed w)
  \/ local_of (committed (flush audioContext w)) = localStream w.
Proof.
  unfold flush. destruct (mounted w); [|auto]. right. reflexivity.
Qed.

Lemma flush_localStream w : localStream (flush audioContext w) = localStream w.
Proof. fp_eq F_localStream. Qed.

Lemma granted_localStream s w :
  localStream (getLocalCamera_granted audioContext s w) = localStream w
  \/ localStream (getLocalCamera_granted audioContext s w) = Some s.
Proof.
  unfold getLocalCamera_granted.
  set (w1 := setLocalStream (Some s) (log (LogGranted s) w)).
  assert (H : localStream w1 = localStream w \/ localStream w1 = Some s).
  { subst w1. unfold setLocalStream. destruct (mounted _); [right|left]; reflexivity. }
  assert (E : localStream
                match videoRef w1 with
                | Some v =>
                    play (LocalPlay s)
                      (with_videoRef (Some (mkVideo (Some s) (muted v) (volume v))) w1)
                | None => getLocalCamera_finish audioContext s w1
                end = localStream w1).
  { destruct (videoRef w1); fp_eq F_localStream. }
  rewrite E. exact H.
Qed.

Lemma handle_localStream w e :
  localStream (handle audioContext w e) = localStream w
  \/ exists id s, e = GumResolve id s /\ localStream (handle audioContext w e) = Some s.
Proof.
  destruct e as [s r| |id s|id msg|id|id| | | |sid sp|t|dt|s a];
    try (left; handle_frame F_localStream).
  cbn [handle]. destruct (take_gum id w) as [w1|] eqn:T; [|auto].
  apply take_gum_fp in T.
  destruct (granted_localStream s w1) as [H|H].
  - left. rewrite H. exact (T F_localStream eq_refl).
  - right. eauto.
Qed.

Lemma handle_stopped w e x :
  In x (stopped (handle audioContext w e)) ->
  In x (stopped w) \/ local_of (committed w) = Some x.
Proof.
  destruct e as [s r| |id s|id msg|id|id| | | |sid sp|t|dt|s a];
    try (replace (stopped (handle audioContext w _)) with (stopped w) by (symmetry; handle_frame F_stopped); now auto).
  - (* Unmount *)
    cbn [handle]. destruct (mounted w); [|auto]. unfold unmount.
    replace (stopped (with_mounted false (with_videoRef None
               (stopCleanup (committed w) (trackCleanup (committed w) w)))))
      with (stopped (stopCleanup (committed w) (trackCleanup (committed w) w)))
      by reflexivity.
    intro H. apply stopCleanup_stopped in H.
    rewrite (trackCleanup_fp (committed w) w F_stopped eq_refl : stopped _ = stopped w) in H.
    exact H.
  - (* RetryClick *)
    cbn [handle]. destruct (retryShown w); [|auto]. cbv zeta.
    set (y := flush audioContext (getLocalCamera w)).
    rewrite (dispatch_fp (clickListeners y) y F_stopped eq_refl : stopped _ = stopped y).
    intro H. subst y. apply flush_stopped in H.
    rewrite (getLocalCamera_fp w F_stopped eq_refl : stopped _ = stopped w) in H.
    rewrite (getLocalCamera_fp w F_committed eq_refl : committed _ = committed w) in H.
    exact H.
Qed.

Lemma handle_committed w e :
  local_of (committed (handle audioContext w e)) = local_of (committed w)
  \/ local_of (committed (handle audioContext w e)) = localStream w.
Proof.
  destruct e as [s r| |id s|id msg|id|id| | | |sid sp|t|dt|s a];
    try (left; f_equal; handle_frame F_committed).
  cbn [handle]. destruct (retryShown w); [|auto]. cbv zeta.
  set (y := flush audioContext (getLocalCamera w)).
  rewrite (dispatch_fp (clickListeners y) y F_committed eq_refl : committed _ = committed y).
  subst y. destruct (flush_committed (getLocalCamera w)) as [H|H]; rewrite H.
  - left. f_equal. exact (getLocalCamera_fp w F_committed eq_refl).
  - right. exact (getLocalCamera_fp w F_localStream eq_refl).
Qed.

Lemma delivered_app tr e x : In x (delivered tr) -> In x (delivered (tr ++ [e])).
Proof.
  unfold delivered. rewrite flat_map_app, in_app_iff. auto.
Qed.

Lemma delivered_last tr id s : In s (delivered (tr ++ [GumResolve id s])).
Proof.
  unfold delivered. rewrite flat_map_app, in_app_iff. right. cbn. auto.
Qed.

Lemma owned_inv_step tr w e :
  owned_inv tr w -> owned_inv (tr ++ [e]) (step audioContext w e).
Proof.
  intros (HL & HC & HS).
  set (h := handle audioContext w e).
  assert (HLh : forall l, localStream h = Some l -> In l (delivered (tr ++ [e]))).
  { intros l Hl. destruct (handle_localStream w e) as [E|[id [s [-> E]]]]; fold h in E.
    - apply delivered_app, HL. congruence.
    - rewrite E in Hl. injection Hl as <-. apply delivered_last. }
  assert (HCh : forall l, local_of (committed h) = Some l -> In l (delivered (tr ++ [e]))).
  { intros l Hl. destruct (handle_committed w e) as [E|E]; fold h in E;
      apply delivered_app; [apply HC | apply HL]; congruence. }
  assert (HSh : forall x, In x (stopped h) -> In x (delivered (tr ++ [e]))).
  { intros x Hx. apply handle_stopped in Hx. apply delivered_app.
    destruct Hx as [Hx|Hx]; auto. }
  unfold step. fold h. split; [|split].
  - intros l Hl. rewrite flush_localStream in Hl. auto.
  - intros l Hl. destruct (flush_committed h) as [E|E]; rewrite E in Hl; auto.
  - intros x Hx. apply flush_stopped in Hx. destruct Hx as [Hx|Hx]; auto.
Qed.

Lemma owned_inv_run tracks s r tr :
  owned_inv tr (run audioContext tracks s r tr).
Proof.
  unfold run. induction tr as [|e tr IH] using rev_ind.
  - cbn [fold_left]. unfold mount. split; [|split].
    + intros l Hl. rewrite flush_localStream in Hl. discriminate.
    + intros l Hl. destruct (flush_committed (pristine tracks s r)) as [E|E];
        rewrite E in Hl; discriminate.
    + intros x Hx. apply flush_stopped in Hx. destruct Hx as [[]|Hx]. discriminate.
  - rewrite fold_left_app. apply owned_inv_step, IH.
Qed.

End Ownership.

(** C5. Whatever the events, a stream whose tracks the component stops is a
    stream it received from [getUserMedia]; a stream the platform did not
    hand out that way, such as one supplied through the [stream] prop, is
    never stopped, on any path. *)
Theorem only_acquired_streams_are_stopped
    (audioContext : nat -> option (list Z)) (tracks : nat -> nat)
    (s : option nat) (r : bool) (tr : list Event) (ext : nat) :
  ~ In ext (delivered tr) ->
  ~ In ext (stopped (run audioContext tracks s r tr)).
Proof.
  intros H Hin.
  destruct (owned_inv_run audioContext tracks s r tr) as (_ & _ & HS). auto.
Qed.

Lemma only_acquired_streams_are_stopped_witness :
  let tr := [GumResolve 0 9; SetProps (Some 5) false; SetProps None false;
             GumResolve 2 10; SetProps (Some 5) false; Unmount] in
  stopped (run silentAudio oneTrack None false tr) = [9; 10]
  /\ ~ In 5 (stopped (run silentAudio oneTrack None false tr)).
Proof.
  intro tr. split; [vm_compute; reflexivity|].
  apply (only_acquired_streams_are_stopped silentAudio oneTrack None false tr 5).
  vm_compute. intros [H|[H|[]]]; discriminate.
Defined.

(** * Errors shown to the user *)

Section Errors.

Variable audioContext : nat -> option (list Z).

Lemma getLocalCamera_error w :
  error (getLocalCamera w) = if mounted w then None else error w.
Proof.
  unfold getLocalCamera.
  replace (error (getUserMedia (log LogRequesting (setError None (setIsLoading true w)))))
    with (error (setError None (setIsLoading true w))) by (symmetry; fp_eq F_error).
  unfold setError.
  replace (mounted (setIsLoading true w)) with (mounted w) by (symmetry; fp_eq F_mounted).
  destruct (mounted w); [reflexivity | fp_eq F_error].
Qed.

Lemma streamEffect_error w :
  error (streamEffect w) = error w \/ error (streamEffect w) = None.
Proof.
  unfold streamEffect.
  destruct (stream w); [destruct (videoRef w)|destruct (isRemote w); cbn [negb]].
  - left. fp_eq F_error.
  - left. reflexivity.
  - left. fp_eq F_error.
  - rewrite getLocalCamera_error. destruct (mounted w); auto.
Qed.

Lemma runEffects_error w :
  error (runEffects audioContext w) = error w
  \/ error (runEffects audioContext w) = None.
Proof.
  unfold runEffects.
  set (d := (stream w, localStream w, isRemote w)). set (prev := committed w).
  set (w1 := if allDepsChanged prev d then trackCleanup prev w else w).
  set (w2 := if localDepsChanged prev d then stopCleanup prev w1 else w1).
  set (w3 := if streamDepsChanged prev d then streamEffect w2 else w2).
  set (w4 := if allDepsChanged prev d then trackEffect w3 else w3).
  set (w5 := if allDepsChanged prev d then audioEffect audioContext w4 else w4).
  assert (E5 : error (with_committed (Some d) w5) = error w3).
  { subst w5 w4. destruct (allDepsChanged prev d); fp_eq F_error. }
  assert (E2 : error w2 = error w).
  { subst w2 w1. destruct (allDepsChanged prev d), (localDepsChanged prev d); fp_eq F_error. }
  rewrite E5, <- E2. subst w3.
  destruct (streamDepsChanged prev d); [apply streamEffect_error | left; reflexivity].
Qed.

Lemma flush_error w :
  error (flush audioContext w) = error w \/ error (flush audioContext w) = None.
Proof.
  unfold flush. destruct (mounted w); [|left; reflexivity].
  replace (error (commitRef (runEffects audioContext (commitRef w))))
    with (error (runEffects audioContext (commitRef w))) by (symmetry; fp_eq F_error).
  replace (error w) with (error (commitRef w)) by fp_eq F_error.
  apply runEffects_error.
Qed.

Lemma step_error_cases w e :
  error (step audioContext w e) = error (handle audioContext w e)
  \/ error (step audioContext w e) = None.
Proof. apply flush_error. Qed.

Lemma handle_error w e :
  error (handle audioContext w e) = error w
  \/ error (handle audioContext w e) = None
  \/ exists id msg, e = GumReject id msg
       /\ error (handle audioContext w e) = Some msg.
Proof.
  destruct e as [s r| |id s|id msg|id|id| | | |sid sp|t|dt|s a];
    try (left;
         match goal with
         | |- error ?a = error ?b => change (get F_error a = get F_error b)
         end;
         eapply agree_get; [apply handle_fp | reflexivity]).
  - (* GumReject *)
    cbn [handle]. destruct (take_gum id w) as [w1|] eqn:T; [|left; reflexivity].
    unfold getLocalCamera_denied.
    replace (error (setIsLoading false (setError (Some msg) (log (ErrCamera msg) w1))))
      with (error (setError (Some msg) (log (ErrCamera msg) w1)))
      by (symmetry; fp_eq F_error).
    unfold setError. destruct (mounted _).
    + right; right. exists id, msg. split; reflexivity.
    + left. apply take_gum_fp in T.
      transitivity (error w1); [fp_eq F_error|].
      exact (T F_error eq_refl).
  - (* RetryClick *)
    cbn [handle]. destruct (retryShown w); [|left; reflexivity]. cbv zeta.
    replace (error (dispatch (clickListeners (flush audioContext (getLocalCamera w)))
                      (flush audioContext (getLocalCamera w))))
      with (error (flush audioContext (getLocalCamera w))) by (symmetry; fp_eq F_error).
    destruct (flush_error (getLocalCamera w)) as [E|E]; rewrite E; [|right; left; reflexivity].
    rewrite getLocalCamera_error. destruct (mounted w); auto.
Qed.

End Errors.



(** * Failed acquisitions *)

Section Acquisition.

Variable audioContext : nat -> option (list Z).

Lemma step_reject_fp w id msg :
  settled w -> agree rejectFP w (step audioContext w (GumReject id msg)).
Proof. intro Hs. exact (step_quiet audioContext w (GumReject id msg) eq_refl Hs). Qed.

Lemma retry_issues_request w :
  settled w -> retryShown w = true ->
  let w1 := step audioContext w RetryClick in
  pendingGum w1 = pendingGum w ++ [nextReq w] /\ mounted w1 = true /\ settled w1.
Proof.
  intros Hs R w1.
  assert (M : mounted w = true).
  { unfold retryShown in R. destruct (mounted w); [reflexivity | discriminate]. }
  assert (S1 : settled (getLocalCamera w)).
  { eapply agree_settled; [apply getLocalCamera_fp | reflexivity | exact Hs]. }
  pose proof (flush_settled_fp audioContext _ S1) as A.
  set (x := flush audioContext (getLocalCamera w)) in *.
  assert (Hh : handle audioContext w RetryClick = dispatch (clickListeners x) x).
  { cbn [handle]. rewrite R. reflexivity. }
  assert (S2 : settled (dispatch (clickListeners x) x)).
  { eapply agree_settled; [apply dispatch_fp | reflexivity |].
    eapply agree_settled; [exact A | reflexivity | exact S1]. }
  pose proof (flush_settled_fp audioContext _ S2) as B.
  rewrite <- Hh in B. fold (step audioContext w RetryClick) in B. fold w1 in B.
  rewrite Hh in B.
  split; [|split].
  - rewrite (B F_pendingGum eq_refl : pendingGum w1 = pendingGum (dispatch (clickListeners x) x)).
    transitivity (pendingGum x); [fp_eq F_pendingGum|].
    rewrite (A F_pendingGum eq_refl : pendingGum x = pendingGum (getLocalCamera w)).
    unfold getLocalCamera, getUserMedia. cbn [pendingGum with_nextReq with_pendingGum].
    f_equal; [fp_eq F_pendingGum | f_equal; fp_eq F_nextReq].
  - rewrite (B F_mounted eq_refl : mounted w1 = mounted (dispatch (clickListeners x) x)).
    transitivity (mounted x); [fp_eq F_mounted|].
    rewrite (A F_mounted eq_refl : mounted x = mounted (getLocalCamera w)).
    rewrite <- M. fp_eq F_mounted.
  - subst w1. apply settled_step.
Qed.

Lemma reject_sets_error w id msg :
  settled w -> mounted w = true -> existsb (Nat.eqb id) (pendingGum w) = true ->
  let w' := step audioContext w (GumReject id msg) in
  error w' = Some msg /\ isLoading w' = false /\ mounted w' = true.
Proof.
  intros Hs M P w'.
  assert (Hs' : settled (handle audioContext w (GumReject id msg))).
  { apply handle_settled; [reflexivity | exact Hs]. }
  pose proof (flush_settled_fp audioContext _ Hs') as A.
  fold (step audioContext w (GumReject id msg)) in A. fold w' in A.
  rewrite (A F_error eq_refl : error w' = error _).
  rewrite (A F_isLoading eq_refl : isLoading w' = isLoading _).
  rewrite (A F_mounted eq_refl : mounted w' = mounted _).
  cbn [handle]. unfold take_gum. rewrite P.
  set (w1 := with_pendingGum _ w).
  assert (M1 : mounted w1 = true) by exact M.
  unfold getLocalCamera_denied, setIsLoading, setError.
  replace (mounted (log (ErrCamera msg) w1)) with (mounted w1) by reflexivity.
  rewrite M1. cbn. rewrite M. auto.
Qed.

Lemma retry_round w m :
  settled w -> retryShown w = true -> m <> EmptyString ->
  let w2 := step audioContext (step audioContext w RetryClick)
              (GumReject (nextReq w) m) in
  agree retryFP w w2 /\ retryShown w2 = true /\ error w2 = Some m /\ settled w2.
Proof.
  intros Hs R Hm w2.
  destruct (retry_issues_request w Hs R) as (P & M1 & S1).
  set (w1 := step audioContext w RetryClick) in *.
  assert (P' : existsb (Nat.eqb (nextReq w)) (pendingGum w1) = true).
  { rewrite P, existsb_app. cbn. rewrite Nat.eqb_refl. apply orb_true_iff. auto. }
  destruct (reject_sets_error w1 (nextReq w) m S1 M1 P') as (E & L & M2).
  fold w2 in E, L, M2.
  split; [|split; [|split]].
  - eapply agree_weaken.
    + exact (agree_trans _ _ _ _ _ (step_retry_fp audioContext w Hs)
               (step_reject_fp w1 (nextReq w) m S1)).
    + vm_compute. reflexivity.
  - unfold retryShown. rewrite M2, L, E. destruct m; [contradiction | reflexivity].
  - exact E.
  - subst w2. apply settled_step.
Qed.

Lemma retryFailures_fp msgs w :
  settled w -> retryShown w = true -> Forall (fun m => m <> EmptyString) msgs ->
  agree retryFP w (retryFailures audioContext msgs w)
  /\ retryShown (retryFailures audioContext msgs w) = true.
Proof.
  revert w. induction msgs as [|m msgs IH]; intros w Hs R F; cbn [retryFailures].
  - split; [|exact R]. eapply agree_weaken; [apply agree_refl | reflexivity].
  - inversion F as [|? ? Hm F']; subst.
    destruct (retry_round w m Hs R Hm) as (A & R2 & _ & S2). cbv zeta.
    destruct (IH _ S2 R2 F') as (B & R3). split; [|exact R3].
    eapply agree_weaken; [exact (agree_trans _ _ _ _ _ A B)|].
    vm_compute. reflexivity.
Qed.

End Acquisition.

(** * The analysis does not steer the component

    Two worlds that differ in the analysis cells only stay so under every
    event, whatever the audio platforms are. *)

Lemma blank_get f x y :
  inb f analysisCells = false -> blank x = blank y -> get f x = get f y.
Proof.
  intros Hf H.
  destruct f; try discriminate Hf;
    match goal with
    | |- get ?g x = get ?g y => change (get g (blank x) = get g (blank y))
    end;
    rewrite H; reflexivity.
Qed.

Lemma blank_of_fp fs x y :
  agree fs x y ->
  forallb (fun f => inb f analysisCells) fs = true ->
  blank y = blank x.
Proof.
  intros A Hfs.
  assert (G : forall f, inb f analysisCells = false -> get f y = get f x).
  { intros f Hf. apply A. destruct (inb f fs) eqn:E; [|reflexivity].
    unfold inb in E. apply existsb_exists in E. destruct E as [g [Hg Eg]].
    apply Nat.eqb_eq, idx_inj in Eg. subst g.
    rewrite forallb_forall in Hfs. specialize (Hfs f Hg). congruence. }
  pose proof (G F_mounted eq_refl) as E1. pose proof (G F_stream eq_refl) as E2.
  pose proof (G F_isRemote eq_refl) as E3. pose proof (G F_isLoading eq_refl) as E4.
  pose proof (G F_localStream eq_refl) as E5. pose proof (G F_error eq_refl) as E6.
  pose proof (G F_videoRef eq_refl) as E7.
  pose proof (G F_clickListeners eq_refl) as E8.
  pose proof (G F_touchListeners eq_refl) as E9.
  pose proof (G F_nextListener eq_refl) as E10.
  pose proof (G F_trackListeners eq_refl) as E11.
  pose proof (G F_committed eq_refl) as E12.
  pose proof (G F_pendingGum eq_refl) as E13.
  pose proof (G F_pendingPlay eq_refl) as E14.
  pose proof (G F_nextReq eq_refl) as E15.
  pose proof (G F_now eq_refl) as E16.
  pose proof (G F_stopped eq_refl) as E17.
  clear A G Hfs. destruct x, y. cbn [get ftype] in *. cbn in *. subst. reflexivity.
Qed.

(** Code that writes analysis cells only. *)
Ltac blank_fp :=
  match goal with
  | H : blank ?x = blank ?y |- blank ?a = blank ?b =>
      transitivity (blank x);
      [ eapply blank_of_fp; [ fp_chain | vm_compute; reflexivity ]
      | rewrite H; symmetry;
        eapply blank_of_fp; [ fp_chain | vm_compute; reflexivity ] ]
  end.

(** Code that reads nothing: a field update. *)
Ltac blank_leaf :=
  let H := fresh "H" in
  intro H;
  match goal with
  | |- blank (_ ?x) = blank (_ ?y) => destruct x, y
  | |- blank (_ _ ?x) = blank (_ _ ?y) => destruct x, y
  end;
  unfold blank in *; cbn in *; injection H; intros; subst; reflexivity.

Lemma with_videoRef_blank v x y :
  blank x = blank y -> blank (with_videoRef v x) = blank (with_videoRef v y).
Proof. blank_leaf. Qed.

Lemma with_committed_blank v x y :
  blank x = blank y -> blank (with_committed v x) = blank (with_committed v y).
Proof. blank_leaf. Qed.

Lemma with_mounted_blank v x y :
  blank x = blank y -> blank (with_mounted v x) = blank (with_mounted v y).
Proof. blank_leaf. Qed.

Lemma with_stream_blank v x y :
  blank x = blank y -> blank (with_stream v x) = blank (with_stream v y).
Proof. blank_leaf. Qed.

Lemma with_isRemote_blank v x y :
  blank x = blank y -> blank (with_isRemote v x) = blank (with_isRemote v y).
Proof. blank_leaf. Qed.

Lemma with_now_blank v x y :
  blank x = blank y -> blank (with_now v x) = blank (with_now v y).
Proof. blank_leaf. Qed.

Lemma with_isLoading_blank v x y :
  blank x = blank y -> blank (with_isLoading v x) = blank (with_isLoading v y).
Proof. blank_leaf. Qed.

Lemma with_localStream_blank v x y :
  blank x = blank y -> blank (with_localStream v x) = blank (with_localStream v y).
Proof. blank_leaf. Qed.

Lemma with_error_blank v x y :
  blank x = blank y -> blank (with_error v x) = blank (with_error v y).
Proof. blank_leaf. Qed.

Lemma with_trackListeners_blank v x y :
  blank x = blank y ->
  blank (with_trackListeners v x) = blank (with_trackListeners v y).
Proof. blank_leaf. Qed.

Lemma with_clickListeners_blank v x y :
  blank x = blank y ->
  blank (with_clickListeners v x) = blank (with_clickListeners v y).
Proof. blank_leaf. Qed.

Lemma with_touchListeners_blank v x y :
  blank x = blank y ->
  blank (with_touchListeners v x) = blank (with_touchListeners v y).
Proof. blank_leaf. Qed.

Lemma with_nextListener_blank v x y :
  blank x = blank y ->
  blank (with_nextListener v x) = blank (with_nextListener v y).
Proof. blank_leaf. Qed.

Lemma with_pendingGum_blank v x y :
  blank x = blank y -> blank (with_pendingGum v x) = blank (with_pendingGum v y).
Proof. blank_leaf. Qed.

Lemma with_pendingPlay_blank v x y :
  blank x = blank y -> blank (with_pendingPlay v x) = blank (with_pendingPlay v y).
Proof. blank_leaf. Qed.

Lemma with_nextReq_blank v x y :
  blank x = blank y -> blank (with_nextReq v x) = blank (with_nextReq v y).
Proof. blank_leaf. Qed.

Lemma with_stopped_blank v x y :
  blank x = blank y -> blank (with_stopped v x) = blank (with_stopped v y).
Proof. blank_leaf. Qed.

Create HintDb blank.

#[export] Hint Resolve with_videoRef_blank with_committed_blank with_mounted_blank
  with_stream_blank with_isRemote_blank with_now_blank with_isLoading_blank
  with_localStream_blank with_error_blank with_trackListeners_blank
  with_clickListeners_blank with_touchListeners_blank with_nextListener_blank
  with_pendingGum_blank with_pendingPlay_blank with_nextReq_blank
  with_stopped_blank : blank.

(** [same f] rewrites a low field of the left world into that of the right
    one. *)
Ltac same f :=
  match goal with
  | H : blank ?x = blank ?y |- _ =>
      let E := fresh "E" in
      pose proof (blank_get f x y eq_refl H) as E; cbn [get ftype] in E;
      rewrite E in *; clear E
  end.

Ltac blank_auto := solve [auto 20 with blank nocore].

Lemma log_blank m x y : blank x = blank y -> blank (log m x) = blank (log m y).
Proof. intro H. blank_fp. Qed.

Lemma setIsLoading_blank b x y :
  blank x = blank y -> blank (setIsLoading b x) = blank (setIsLoading b y).
Proof. intro H. unfold setIsLoading. same F_mounted. destruct (mounted y); blank_auto. Qed.

Lemma setLocalStream_blank s x y :
  blank x = blank y -> blank (setLocalStream s x) = blank (setLocalStream s y).
Proof. intro H. unfold setLocalStream. same F_mounted. destruct (mounted y); blank_auto. Qed.

Lemma setError_blank e x y :
  blank x = blank y -> blank (setError e x) = blank (setError e y).
Proof. intro H. unfold setError. same F_mounted. destruct (mounted y); blank_auto. Qed.

Lemma play_blank k x y : blank x = blank y -> blank (play k x) = blank (play k y).
Proof.
  intro H. unfold play. same F_nextReq. same F_pendingPlay. blank_auto.
Qed.

Lemma getUserMedia_blank x y :
  blank x = blank y -> blank (getUserMedia x) = blank (getUserMedia y).
Proof.
  intro H. unfold getUserMedia. same F_nextReq. same F_pendingGum. blank_auto.
Qed.

Lemma stopTracks_blank s x y :
  blank x = blank y -> blank (stopTracks s x) = blank (stopTracks s y).
Proof. intro H. unfold stopTracks. same F_stopped. blank_auto. Qed.

#[export] Hint Resolve log_blank setIsLoading_blank setLocalStream_blank
  setError_blank play_blank getUserMedia_blank stopTracks_blank : blank.

Lemma getLocalCamera_blank x y :
  blank x = blank y -> blank (getLocalCamera x) = blank (getLocalCamera y).
Proof. intro H. unfold getLocalCamera. blank_auto. Qed.

Lemma getLocalCamera_denied_blank m x y :
  blank x = blank y ->
  blank (getLocalCamera_denied m x) = blank (getLocalCamera_denied m y).
Proof. intro H. unfold getLocalCamera_denied. blank_auto. Qed.

Lemma armEnableAudio_blank x y :
  blank x = blank y -> blank (armEnableAudio x) = blank (armEnableAudio y).
Proof.
  intro H. unfold armEnableAudio.
  same F_nextListener. same F_touchListeners. same F_clickListeners. blank_auto.
Qed.

Lemma enableAudio_blank l x y :
  blank x = blank y -> blank (enableAudio l x) = blank (enableAudio l y).
Proof.
  intro H. unfold enableAudio. same F_videoRef.
  destruct (videoRef y) as [v|].
  - assert (H1 : blank (play EnableAudio
                          (with_videoRef (Some (mkVideo (srcObject v) false 1%Q)) x))
                 = blank (play EnableAudio
                            (with_videoRef (Some (mkVideo (srcObject v) false 1%Q)) y)))
      by blank_auto.
    revert H1. generalize (play EnableAudio
                 (with_videoRef (Some (mkVideo (srcObject v) false 1%Q)) x)).
    generalize (play EnableAudio
                 (with_videoRef (Some (mkVideo (srcObject v) false 1%Q)) y)).
    intros b a H1.
    rewrite (blank_get F_touchListeners a b eq_refl H1 : touchListeners a = touchListeners b).
    rewrite (blank_get F_clickListeners a b eq_refl H1 : clickListeners a = clickListeners b).
    blank_auto.
  - same F_touchListeners. same F_clickListeners. blank_auto.
Qed.

Lemma dispatch_blank ls x y :
  blank x = blank y -> blank (dispatch ls x) = blank (dispatch ls y).
Proof.
  unfold dispatch. revert x y. induction ls as [|l ls IH]; intros x y H; cbn.
  - exact H.
  - apply IH, enableAudio_blank, H.
Qed.

Lemma trackEffect_blank x y :
  blank x = blank y -> blank (trackEffect x) = blank (trackEffect y).
Proof.
  intro H. unfold trackEffect. same F_stream. same F_localStream. same F_trackListeners.
  destruct (currentStream _ _); blank_auto.
Qed.

Lemma trackCleanup_blank prev x y :
  blank x = blank y -> blank (trackCleanup prev x) = blank (trackCleanup prev y).
Proof.
  intro H. unfold trackCleanup. same F_trackListeners.
  destruct prev as [[[ps pl] pr]|]; [|exact H].
  destruct (currentStream ps pl); blank_auto.
Qed.

Lemma stopCleanup_blank prev x y :
  blank x = blank y -> blank (stopCleanup prev x) = blank (stopCleanup prev y).
Proof.
  intro H. unfold stopCleanup. destruct prev as [[[ps [l|]] pr]|]; blank_auto.
Qed.

Lemma commitRef_blank x y :
  blank x = blank y -> blank (commitRef x) = blank (commitRef y).
Proof.
  intro H. unfold commitRef, videoShown.
  same F_isLoading. same F_error. same F_stream. same F_localStream. same F_videoRef.
  blank_auto.
Qed.

Lemma streamEffect_blank x y :
  blank x = blank y -> blank (streamEffect x) = blank (streamEffect y).
Proof.
  intro H. unfold streamEffect. same F_stream. same F_videoRef. same F_isRemote.
  pose proof (getLocalCamera_blank x y H).
  destruct (stream y); [destruct (videoRef y)|destruct (isRemote y); cbn [negb]];
    blank_auto.
Qed.

Lemma unmount_blank x y :
  blank x = blank y -> blank (unmount x) = blank (unmount y).
Proof.
  intro H. unfold unmount. same F_committed.
  pose proof (trackCleanup_blank (committed y) x y H) as H1.
  pose proof (stopCleanup_blank (committed y) _ _ H1) as H2.
  blank_auto.
Qed.

#[export] Hint Resolve getLocalCamera_blank getLocalCamera_denied_blank
  armEnableAudio_blank enableAudio_blank dispatch_blank trackEffect_blank
  trackCleanup_blank stopCleanup_blank commitRef_blank streamEffect_blank
  unmount_blank : blank.

Section NonInterference.

Variables audio1 audio2 : nat -> option (list Z).

Lemma setup_blank s x y :
  blank x = blank y ->
  blank (setupAudioAnalyser audio1 s x) = blank (setupAudioAnalyser audio2 s y).
Proof. intro H. blank_fp. Qed.

Lemma getLocalCamera_finish_blank s x y :
  blank x = blank y ->
  blank (getLocalCamera_finish audio1 s x) = blank (getLocalCamera_finish audio2 s y).
Proof.
  intro H. unfold getLocalCamera_finish.
  apply setIsLoading_blank, setup_blank, H.
Qed.

Lemma getLocalCamera_granted_blank s x y :
  blank x = blank y ->
  blank (getLocalCamera_granted audio1 s x) = blank (getLocalCamera_granted audio2 s y).
Proof.
  intro H. unfold getLocalCamera_granted.
  assert (H1 : blank (setLocalStream (Some s) (log (LogGranted s) x))
               = blank (setLocalStream (Some s) (log (LogGranted s) y))) by blank_auto.
  revert H1. generalize (setLocalStream (Some s) (log (LogGranted s) x)).
  generalize (setLocalStream (Some s) (log (LogGranted s) y)).
  clear H. intros b a H.
  same F_videoRef. destruct (videoRef b) as [v|].
  - blank_auto.
  - apply getLocalCamera_finish_blank, H.
Qed.

Lemma play_resolved_blank k x y :
  blank x = blank y ->
  blank (play_resolved audio1 k x) = blank (play_resolved audio2 k y).
Proof.
  intro H. unfold play_resolved. destruct k as [r|s|].
  - blank_auto.
  - apply getLocalCamera_finish_blank. blank_auto.
  - exact H.
Qed.

Lemma play_rejected_blank k x y :
  blank x = blank y ->
  blank (play_rejected audio1 k x) = blank (play_rejected audio2 k y).
Proof.
  intro H. unfold play_rejected. destruct k as [[|]|s|].
  - blank_auto.
  - blank_auto.
  - apply getLocalCamera_finish_blank. blank_auto.
  - blank_auto.
Qed.

Lemma audioEffect_blank x y :
  blank x = blank y ->
  blank (audioEffect audio1 x) = blank (audioEffect audio2 y).
Proof. intro H. blank_fp. Qed.

Lemma runEffects_blank x y :
  blank x = blank y ->
  blank (runEffects audio1 x) = blank (runEffects audio2 y).
Proof.
  intro H. unfold runEffects.
  same F_stream. same F_localStream. same F_isRemote. same F_committed.
  set (d := (stream y, localStream y, isRemote y)). set (prev := committed y).
  assert (H1 : blank (if allDepsChanged prev d then trackCleanup prev x else x)
               = blank (if allDepsChanged prev d then trackCleanup prev y else y)).
  { destruct (allDepsChanged prev d); blank_auto. }
  revert H1.
  generalize (if allDepsChanged prev d then trackCleanup prev x else x).
  generalize (if allDepsChanged prev d then trackCleanup prev y else y).
  intros b1 a1 H1.
  assert (H2 : blank (if localDepsChanged prev d then stopCleanup prev a1 else a1)
               = blank (if localDepsChanged prev d then stopCleanup prev b1 else b1)).
  { destruct (localDepsChanged prev d); blank_auto. }
  revert H2.
  generalize (if localDepsChanged prev d then stopCleanup prev a1 else a1).
  generalize (if localDepsChanged prev d then stopCleanup prev b1 else b1).
  intros b2 a2 H2.
  assert (H3 : blank (if streamDepsChanged prev d then streamEffect a2 else a2)
               = blank (if streamDepsChanged prev d then streamEffect b2 else b2)).
  { destruct (streamDepsChanged prev d); blank_auto. }
  revert H3.
  generalize (if streamDepsChanged prev d then streamEffect a2 else a2).
  generalize (if streamDepsChanged prev d then streamEffect b2 else b2).
  intros b3 a3 H3.
  assert (H4 : blank (if allDepsChanged prev d then trackEffect a3 else a3)
               = blank (if allDepsChanged prev d then trackEffect b3 else b3)).
  { destruct (allDepsChanged prev d); blank_auto. }
  revert H4.
  generalize (if allDepsChanged prev d then trackEffect a3 else a3).
  generalize (if allDepsChanged prev d then trackEffect b3 else b3).
  intros b4 a4 H4.
  apply with_committed_blank.
  destruct (allDepsChanged prev d); [apply audioEffect_blank|]; exact H4.
Qed.

Lemma flush_blank x y :
  blank x = blank y -> blank (flush audio1 x) = blank (flush audio2 y).
Proof.
  intro H. unfold flush. same F_mounted. destruct (mounted y); [|exact H].
  apply commitRef_blank, runEffects_blank, commitRef_blank, H.
Qed.

Lemma take_gum_blank id x y :
  blank x = blank y ->
  match take_gum id x, take_gum id y with
  | Some a, Some b => blank a = blank b
  | None, None => True
  | _, _ => False
  end.
Proof.
  intro H. unfold take_gum. same F_pendingGum.
  destruct (existsb _ _); [blank_auto | exact I].
Qed.

Lemma take_play_blank id x y :
  blank x = blank y ->
  match take_play id x, take_play id y with
  | Some (k, a), Some (k', b) => k = k' /\ blank a = blank b
  | None, None => True
  | _, _ => False
  end.
Proof.
  intro H. unfold take_play. same F_pendingPlay.
  destruct (find _ _) as [[i k]|]; [split; [reflexivity | blank_auto] | exact I].
Qed.

Lemma handle_blank e x y :
  blank x = blank y ->
  blank (handle audio1 x e) = blank (handle audio2 y e).
Proof.
  intro H. destruct e as [s r| |id s|id msg|id|id| | | |sid sp|t|dt|s a]; cbn [handle].
  - same F_mounted. destruct (mounted y); blank_auto.
  - same F_mounted. destruct (mounted y); blank_auto.
  - pose proof (take_gum_blank id x y H) as T.
    destruct (take_gum id x), (take_gum id y); try contradiction; [|exact H].
    apply getLocalCamera_granted_blank, T.
  - pose proof (take_gum_blank id x y H) as T.
    destruct (take_gum id x), (take_gum id y); try contradiction; [|exact H].
    apply getLocalCamera_denied_blank, T.
  - pose proof (take_play_blank id x y H) as T.
    destruct (take_play id x) as [[k a]|], (take_play id y) as [[k' b]|];
      try contradiction; [|exact H].
    destruct T as [<- T]. apply play_resolved_blank, T.
  - pose proof (take_play_blank id x y H) as T.
    destruct (take_play id x) as [[k a]|], (take_play id y) as [[k' b]|];
      try contradiction; [|exact H].
    destruct T as [<- T]. apply play_rejected_blank, T.
  - same F_clickListeners. apply dispatch_blank, H.
  - same F_touchListeners. apply dispatch_blank, H.
  - unfold retryShown. same F_mounted. same F_isLoading. same F_error.
    destruct (mounted y && negb (isLoading y) && truthy (error y)); [|exact H].
    cbv zeta.
    assert (H1 : blank (flush audio1 (getLocalCamera x))
                 = blank (flush audio2 (getLocalCamera y)))
      by (apply flush_blank, getLocalCamera_blank, H).
    revert H1. generalize (flush audio1 (getLocalCamera x)).
    generalize (flush audio2 (getLocalCamera y)). intros b a H1.
    rewrite (blank_get F_clickListeners a b eq_refl H1 : clickListeners a = clickListeners b).
    apply dispatch_blank, H1.
  - transitivity (blank x);
      [eapply blank_of_fp; [apply (handle_fp audio1 x (Frame sid sp)) | reflexivity]|].
    rewrite H. symmetry.
    eapply blank_of_fp; [apply (handle_fp audio2 y (Frame sid sp)) | reflexivity].
  - transitivity (blank x);
      [eapply blank_of_fp; [apply (handle_fp audio1 x (TimerFire t)) | reflexivity]|].
    rewrite H. symmetry.
    eapply blank_of_fp; [apply (handle_fp audio2 y (TimerFire t)) | reflexivity].
  - same F_now. blank_auto.
  - transitivity (blank x);
      [eapply blank_of_fp; [apply (handle_fp audio1 x (TrackChange s a)) | reflexivity]|].
    rewrite H. symmetry.
    eapply blank_of_fp; [apply (handle_fp audio2 y (TrackChange s a)) | reflexivity].
Qed.

Lemma step_blank e x y :
  blank x = blank y -> blank (step audio1 x e) = blank (step audio2 y e).
Proof. intro H. unfold step. apply flush_blank, handle_blank, H. Qed.

Lemma run_blank tracks1 tracks2 s r tr :
  blank (run audio1 tracks1 s r tr) = blank (run audio2 tracks2 s r tr).
Proof.
  unfold run. induction tr as [|e tr IH] using rev_ind.
  - cbn [fold_left]. unfold mount. apply flush_blank. reflexivity.
  - rewrite !fold_left_app. cbn [fold_left]. apply step_blank, IH.
Qed.

End NonInterference.

Lemma presentation_blank w : presentation (blank w) = presentation w.
Proof. reflexivity. Qed.

(** * Analysis that cannot start *)

Lemma presentation_agree fs w w' :
  agree fs w w' ->
  forallb (fun f => negb (inb f fs))
    [F_isLoading; F_error; F_stream; F_localStream] = true ->
  presentation w' = presentation w.
Proof.
  intros H Hfs. cbn in Hfs.
  repeat (apply andb_prop in Hfs; destruct Hfs as [?%negb_true_iff Hfs]).
  pose proof (H F_isLoading ltac:(assumption)) as E1.
  pose proof (H F_error ltac:(assumption)) as E2.
  pose proof (H F_stream ltac:(assumption)) as E3.
  pose proof (H F_localStream ltac:(assumption)) as E4.
  cbn [get ftype] in E1, E2, E3, E4. unfold presentation.
  rewrite E1, E2, E3, E4. reflexivity.
Qed.

Section Degraded.

Variable audioContext : nat -> option (list Z).

Lemma setup_fails s w :
  audioContext (setupCalls w) = None \/ audioTracks w s = 0 ->
  setupAudioAnalyser audioContext s w
  = log WarnAnalyser (with_setupCalls (S (setupCalls w)) w).
Proof.
  intro H. unfold setupAudioAnalyser.
  destruct (audioContext (setupCalls w)) as [sp|]; [|reflexivity].
  destruct H as [H|H]; [discriminate|].
  cbn [audioTracks with_setupCalls]. rewrite H. reflexivity.
Qed.

Lemma audioEffect_no_tracks w c :
  currentStream (stream w) (localStream w) = Some c -> audioTracks w c = 0 ->
  audioEffect audioContext w = w.
Proof.
  intros Hc Ht. unfold audioEffect. rewrite Hc, Ht.
  destruct (negb (isRemote w)); reflexivity.
Qed.

(** Voice activity needs a session. *)

Lemma speaking_inv_detect sid sp w :
  speaking_inv w -> speaking_inv (detectVolume sid sp w).
Proof.
  intro H. unfold detectVolume. destruct (find_session sid w) as [s|] eqn:F; [|exact H].
  intros _ E.
  destruct (detectVolume_in_effect s sp w _ eq_refl) as (_ & _ & _ & Es & _).
  rewrite Es in E. apply map_eq_nil in E.
  apply find_session_In in F. rewrite E in F. destruct F as [[] _].
Qed.

Lemma speaking_inv_setup s w :
  speaking_inv w -> speaking_inv (setupAudioAnalyser audioContext s w).
Proof.
  intro H. unfold setupAudioAnalyser.
  destruct (audioContext (setupCalls w)) as [sp|]; [destruct (Nat.eqb _ _)|].
  - exact H.
  - apply speaking_inv_detect. intros _ E. cbn in E.
    apply app_eq_nil in E. destruct E as [_ E]. discriminate.
  - exact H.
Qed.

Lemma speaking_inv_path w w' :
  audio_path audioContext w w' -> speaking_inv w -> speaking_inv w'.
Proof.
  induction 1 as [w|w x y fs P IH A C|w x s P IH|w x sid sp P IH]; intro Hw; auto.
  - specialize (IH Hw). unfold speaking_inv in *.
    rewrite (A F_isSpeaking (audioCells_out fs F_isSpeaking C ltac:(cbn; tauto))
             : isSpeaking y = isSpeaking x).
    rewrite (A F_sessions (audioCells_out fs F_sessions C ltac:(cbn; tauto))
             : sessions y = sessions x).
    exact IH.
  - apply speaking_inv_setup; auto.
  - apply speaking_inv_detect; auto.
Qed.

Lemma speaking_inv_step w e : speaking_inv w -> speaking_inv (step audioContext w e).
Proof.
  intro H. destruct (isTimerFire e) eqn:T.
  - destruct e; try discriminate T.
    eapply speaking_inv_path; [apply step_fire_ap|].
    destruct (timer_due t w); [|exact H].
    unfold speaking_inv, silenceCallback, setIsSpeaking.
    replace (mounted (clearTimeout t w)) with (mounted w) by reflexivity.
    destruct (mounted w); [cbn; discriminate | exact H].
  - destruct (isTrackChange e) eqn:C.
    + destruct e; try discriminate C.
      eapply speaking_inv_path; [apply step_track_ap|].
      unfold speaking_inv.
      rewrite (handle_fp audioContext w (TrackChange s audio) F_isSpeaking eq_refl
               : isSpeaking _ = isSpeaking w).
      rewrite (handle_fp audioContext w (TrackChange s audio) F_sessions eq_refl
               : sessions _ = sessions w).
      exact H.
    + eapply speaking_inv_path; [apply step_ap; assumption | exact H].
Qed.

Lemma speaking_inv_run tracks s r tr :
  speaking_inv (run audioContext tracks s r tr).
Proof.
  unfold run. induction tr as [|e tr IH] using rev_ind.
  - cbn [fold_left]. unfold mount.
    eapply speaking_inv_path; [apply flush_ap, ap_nil|]. intro H. discriminate H.
  - rewrite fold_left_app. apply speaking_inv_step, IH.
Qed.

(** No session where no analysis can start. *)

Lemma mute_path w w' :
  audio_path audioContext w w' ->
  mute audioContext w -> sessions w = [] ->
  mute audioContext w' /\ sessions w' = [].
Proof.
  induction 1 as [w|w x y fs P IH A C|w x s P IH|w x sid sp P IH]; intros M E; auto.
  - destruct (IH M E) as [Mx Ex]. split.
    + destruct Mx as [Mx|Mx]; [left; exact Mx|right].
      intro s.
      rewrite (A F_audioTracks (audioCells_out fs F_audioTracks C ltac:(cbn; tauto))
               : audioTracks y = audioTracks x).
      apply Mx.
    + rewrite <- Ex.
      exact (A F_sessions (audioCells_out fs F_sessions C ltac:(cbn; tauto))).
  - destruct (IH M E) as [Mx Ex].
    rewrite setup_fails by (destruct Mx as [Mx|Mx]; auto).
    split; [|exact Ex]. exact Mx.
  - destruct (IH M E) as [Mx Ex].
    unfold detectVolume, find_session. rewrite Ex. cbn. auto.
Qed.

Lemma mute_step w e :
  mute audioContext w -> sessions w = [] ->
  (forall k, audioContext k = None) \/ isTrackChange e = false ->
  mute audioContext (step audioContext w e) /\ sessions (step audioContext w e) = [].
Proof.
  intros M E H. destruct (isTimerFire e) eqn:T.
  - destruct e; try discriminate T.
    eapply mute_path; [apply step_fire_ap | |].
    + destruct (timer_due t w); [|exact M].
      destruct M as [M|M]; [left; exact M|right]. intro s.
      replace (audioTracks (silenceCallback (clearTimeout t w))) with (audioTracks w)
        by (symmetry; fp_eq F_audioTracks).
      apply M.
    + destruct (timer_due t w); [|exact E]. rewrite <- E. fp_eq F_sessions.
  - destruct (isTrackChange e) eqn:C.
    + destruct H as [H|H]; [|discriminate]. destruct e; try discriminate C.
      eapply mute_path; [apply step_track_ap | left; exact H |].
      rewrite <- E. exact (handle_fp audioContext w (TrackChange s audio) F_sessions eq_refl).
    + eapply mute_path; [apply step_ap; assumption | exact M | exact E].
Qed.

Lemma mute_run tracks s r tr :
  (forall k, audioContext k = None)
  \/ ((forall x, tracks x = 0) /\ Forall (fun e => isTrackChange e = false) tr) ->
  mute audioContext (run audioContext tracks s r tr)
  /\ sessions (run audioContext tracks s r tr) = [].
Proof.
  unfold run. induction tr as [|e tr IH] using rev_ind; intro H.
  - cbn [fold_left]. unfold mount.
    eapply mute_path; [apply flush_ap, ap_nil | | reflexivity].
    destruct H as [H|[H _]]; [left|right]; exact H.
  - rewrite fold_left_app. cbn [fold_left].
    assert (H' : (forall k, audioContext k = None)
                 \/ ((forall x, tracks x = 0)
                     /\ Forall (fun e => isTrackChange e = false) tr)).
    { destruct H as [H|[H F]]; [left; exact H|right].
      split; [exact H|]. apply Forall_app in F. tauto. }
    destruct (IH H') as [M E]. apply mute_step; [exact M | exact E |].
    destruct H as [H|[_ F]]; [left; exact H|right].
    apply Forall_app in F. destruct F as [_ F]. inversion F; assumption.
Qed.

(** The acquisition path reaches the video whether or not analysis starts. *)

Lemma runEffects_keep w :
  streamDepsChanged (committed w) (stream w, localStream w, isRemote w) = false ->
  isLoading (runEffects audioContext w) = isLoading w
  /\ error (runEffects audioContext w) = error w.
Proof.
  intro H. unfold runEffects. rewrite H.
  destruct (allDepsChanged _ _), (localDepsChanged _ _);
    split; first [fp_eq F_isLoading | fp_eq F_error].
Qed.

Lemma granted_playing w id a :
  at_rest audioContext w -> mounted w = true ->
  existsb (Nat.eqb id) (pendingGum w) = true ->
  truthy (error w) = false ->
  presentation (step audioContext w (GumResolve id a)) = Playing.
Proof.
  intros R M P Er.
  pose proof (at_rest_settled audioContext w R) as Hs.
  destruct Hs as [Hs|Hs]; [congruence|].
  set (w1 := with_pendingGum (filter (fun x => negb (Nat.eqb x id)) (pendingGum w)) w).
  assert (Hh : handle audioContext w (GumResolve id a)
               = getLocalCamera_granted audioContext a w1).
  { cbn [handle]. unfold take_gum. rewrite P. reflexivity. }
  set (h := getLocalCamera_granted audioContext a w1) in *.
  assert (Hm : mounted h = true).
  { rewrite <- M. transitivity (mounted w1); [subst h; fp_eq F_mounted | reflexivity]. }
  assert (Hl : localStream h = Some a).
  { subst h. unfold getLocalCamera_granted.
    set (w2 := setLocalStream (Some a) (log (LogGranted a) w1)).
    assert (E2 : localStream w2 = Some a).
    { subst w2. unfold setLocalStream.
      replace (mounted (log (LogGranted a) w1)) with (mounted w) by reflexivity.
      rewrite M. reflexivity. }
    rewrite <- E2. destruct (videoRef w2); fp_eq F_localStream. }
  assert (He : error h = error w).
  { transitivity (error w1); [subst h; fp_eq F_error | reflexivity]. }
  assert (Hi : isLoading h = false).
  { subst h. unfold getLocalCamera_granted.
    set (w2 := setLocalStream (Some a) (log (LogGranted a) w1)).
    assert (V2 : videoRef w2 = videoRef w).
    { transitivity (videoRef w1); [subst w2; fp_eq F_videoRef | reflexivity]. }
    assert (M2 : mounted w2 = true).
    { rewrite <- M. transitivity (mounted w1); [subst w2; fp_eq F_mounted | reflexivity]. }
    rewrite V2. destruct (videoRef w) as [v|] eqn:V.
    - pose proof (at_rest_video audioContext w v R M V) as Sh.
      unfold videoShown in Sh. destruct (isLoading w) eqn:L; [discriminate|].
      rewrite <- L. transitivity (isLoading w2); [fp_eq F_isLoading|].
      transitivity (isLoading w1); [subst w2; fp_eq F_isLoading | reflexivity].
    - unfold getLocalCamera_finish, setIsLoading.
      replace (mounted (setupAudioAnalyser audioContext a w2)) with (mounted w2)
        by (symmetry; fp_eq F_mounted).
      rewrite M2. reflexivity. }
  assert (Hd : streamDepsChanged (committed (commitRef h))
                 (stream (commitRef h), localStream (commitRef h), isRemote (commitRef h))
               = false).
  { replace (committed (commitRef h)) with (committed w).
    2:{ symmetry. transitivity (committed h); [fp_eq F_committed|].
        transitivity (committed w1); [subst h; fp_eq F_committed | reflexivity]. }
    replace (stream (commitRef h)) with (stream w).
    2:{ symmetry. transitivity (stream h); [fp_eq F_stream|].
        transitivity (stream w1); [subst h; fp_eq F_stream | reflexivity]. }
    replace (isRemote (commitRef h)) with (isRemote w).
    2:{ symmetry. transitivity (isRemote h); [fp_eq F_isRemote|].
        transitivity (isRemote w1); [subst h; fp_eq F_isRemote | reflexivity]. }
    rewrite Hs. unfold streamDepsChanged.
    rewrite opt_eqb_refl, Bool.eqb_reflx. reflexivity. }
  destruct (runEffects_keep (commitRef h) Hd) as [K1 K2].
  unfold step. rewrite Hh. unfold flush. rewrite Hm.
  set (z := commitRef (runEffects audioContext (commitRef h))).
  assert (Zi : isLoading z = false).
  { rewrite <- Hi. transitivity (isLoading (runEffects audioContext (commitRef h)));
      [subst z; fp_eq F_isLoading|].
    rewrite K1. fp_eq F_isLoading. }
  assert (Ze : error z = error w).
  { rewrite <- He. transitivity (error (runEffects audioContext (commitRef h)));
      [subst z; fp_eq F_error|].
    rewrite K2. fp_eq F_error. }
  assert (Zl : localStream z = Some a).
  { rewrite <- Hl. subst z. fp_eq F_localStream. }
  unfold presentation. rewrite Zi, Ze, Zl.
  destruct (error w) as [[|c m]|]; try discriminate Er;
    destruct (stream z); reflexivity.
Qed.

End Degraded.

(** * Which stream is used *)

Section Precedence.

Variable audioContext : nat -> option (list Z).

Lemma allDepsChanged_false prev d :
  allDepsChanged prev d = false -> prev = Some d.
Proof.
  unfold allDepsChanged. destruct prev as [[[ps pl] pr]|], d as [[s l] r];
    [|discriminate].
  intro H. apply negb_false_iff in H.
  apply andb_prop in H. destruct H as [H Hr].
  apply andb_prop in H. destruct H as [Hs Hl].
  apply opt_eqb_eq in Hs. apply opt_eqb_eq in Hl. apply Bool.eqb_prop in Hr.
  congruence.
Qed.

Lemma runEffects_observed w :
  mounted w = true -> observed_inv w -> observed_inv (runEffects audioContext w).
Proof.
  intros M H. unfold observed_inv in *. rewrite M in H.
  replace (mounted (runEffects audioContext w)) with (mounted w)
    by (symmetry; fp_eq F_mounted).
  rewrite M. unfold runEffects.
  set (d := (stream w, localStream w, isRemote w)). set (prev := committed w) in *.
  set (w1 := if allDepsChanged prev d then trackCleanup prev w else w).
  set (w2 := if localDepsChanged prev d then stopCleanup prev w1 else w1).
  set (w3 := if streamDepsChanged prev d then streamEffect w2 else w2).
  set (w4 := if allDepsChanged prev d then trackEffect w3 else w3).
  set (w5 := if allDepsChanged prev d then audioEffect audioContext w4 else w4).
  cbn [committed with_committed trackListeners]. subst d. cbn [fst snd].
  assert (E5 : trackListeners w5 = trackListeners w4).
  { subst w5. destruct (allDepsChanged prev _); [fp_eq F_trackListeners | reflexivity]. }
  assert (E3 : trackListeners w3 = trackListeners w1).
  { subst w3 w2.
    destruct (streamDepsChanged prev _), (localDepsChanged prev _); fp_eq F_trackListeners. }
  assert (S3 : stream w3 = stream w /\ localStream w3 = localStream w).
  { subst w3 w2 w1.
    destruct (streamDepsChanged prev _), (localDepsChanged prev _),
      (allDepsChanged prev _); split; first [fp_eq F_stream | fp_eq F_localStream]. }
  destruct S3 as [Ss Sl].
  rewrite E5. subst w4. destruct (allDepsChanged prev _) eqn:C.
  - assert (E1 : trackListeners w1 = []).
    { subst w1. rewrite ?C. unfold trackCleanup.
      destruct prev as [[[ps pl] pr]|]; [|exact H].
      destruct (currentStream ps pl) as [c|]; [|exact H].
      cbn. rewrite H. cbn. rewrite Nat.eqb_refl. reflexivity. }
    unfold trackEffect. rewrite Ss, Sl.
    destruct (currentStream (stream w) (localStream w)); cbn; rewrite E3, E1; reflexivity.
  - apply allDepsChanged_false in C. rewrite C in H.
    rewrite E3. subst w1. rewrite ?C. exact H.
Qed.

Lemma flush_observed w : observed_inv w -> observed_inv (flush audioContext w).
Proof.
  intro H. unfold flush. destruct (mounted w) eqn:M; [|exact H].
  assert (H1 : observed_inv (runEffects audioContext (commitRef w))).
  { apply runEffects_observed; [exact M | exact H]. }
  exact H1.
Qed.

Lemma agree_observed fs w w' :
  agree fs w w' ->
  forallb (fun f => negb (inb f fs)) [F_mounted; F_committed; F_trackListeners] = true ->
  observed_inv w -> observed_inv w'.
Proof.
  intros H Hfs. cbn in Hfs.
  repeat (apply andb_prop in Hfs; destruct Hfs as [?%negb_true_iff Hfs]).
  pose proof (H F_mounted ltac:(assumption)) as E1.
  pose proof (H F_committed ltac:(assumption)) as E2.
  pose proof (H F_trackListeners ltac:(assumption)) as E3.
  cbn [get ftype] in E1, E2, E3. unfold observed_inv.
  rewrite E1, E2, E3. tauto.
Qed.

Lemma handle_observed w e :
  settled w -> observed_inv w -> observed_inv (handle audioContext w e).
Proof.
  intros Hs H.
  destruct e as [s r| |id s|id msg|id|id| | | |sid sp|t|dt|s a];
    try (eapply agree_observed; [apply handle_fp | reflexivity | exact H]).
  - (* Unmount *)
    cbn [handle]. destruct (mounted w) eqn:M; [|exact H].
    unfold observed_inv in *. rewrite M in H. unfold unmount.
    cbn [mounted with_mounted trackListeners with_videoRef].
    replace (trackListeners (stopCleanup (committed w) (trackCleanup (committed w) w)))
      with (trackListeners (trackCleanup (committed w) w))
      by (symmetry; fp_eq F_trackListeners).
    unfold trackCleanup. destruct (committed w) as [[[ps pl] pr]|]; [|exact H].
    destruct (currentStream ps pl) as [c|]; [|exact H].
    cbn. rewrite H. cbn. rewrite Nat.eqb_refl. reflexivity.
  - (* RetryClick *)
    eapply agree_observed; [apply handle_retry_fp, Hs | reflexivity | exact H].
Qed.

Lemma observed_run tracks s r tr :
  observed_inv (run audioContext tracks s r tr).
Proof.
  unfold run. induction tr as [|e tr IH] using rev_ind.
  - cbn [fold_left]. unfold mount. apply flush_observed. reflexivity.
  - rewrite fold_left_app. cbn [fold_left]. unfold step.
    apply flush_observed, handle_observed; [|exact IH].
    exact (settled_run audioContext tracks s r tr).
Qed.

Lemma audioEffect_target w :
  audioEffect audioContext w = w
  \/ exists c, currentStream (stream w) (localStream w) = Some c
       /\ audioEffect audioContext w = setupAudioAnalyser audioContext c w.
Proof.
  unfold audioEffect. destruct (negb (isRemote w)); [|auto].
  destruct (currentStream (stream w) (localStream w)) as [c|]; [|auto].
  destruct (Nat.ltb 0 (audioTracks w c)); eauto.
Qed.

Lemma map_replace_streams (s' : Session) l s :
  NoDup (map sess_id l) -> In s l ->
  sess_id s' = sess_id s -> sess_stream s' = sess_stream s ->
  map sess_stream (map (fun x => if Nat.eqb (sess_id x) (sess_id s) then s' else x) l)
  = map sess_stream l.
Proof.
  intros N Hin Hid Hst. rewrite map_map. apply map_ext_in. intros x Hx.
  destruct (Nat.eqb (sess_id x) (sess_id s)) eqn:E; [|reflexivity].
  apply Nat.eqb_eq in E. apply (NoDup_ids_eq _ _ _ N Hx Hin) in E. congruence.
Qed.

Lemma detectVolume_streams sid sp w :
  NoDup (map sess_id (sessions w)) ->
  map sess_stream (sessions (detectVolume sid sp w)) = map sess_stream (sessions w).
Proof.
  intro N. unfold detectVolume. destruct (find_session sid w) as [s|] eqn:F; [|reflexivity].
  destruct (detectVolume_in_effect s sp w _ eq_refl) as (_ & _ & _ & Es & _).
  rewrite Es. apply find_session_In in F.
  apply map_replace_streams; tauto || reflexivity.
Qed.

Lemma finish_streams a w sp :
  timer_inv w ->
  audioContext (setupCalls w) = Some sp -> audioTracks w a <> 0 ->
  map sess_stream (sessions (getLocalCamera_finish audioContext a w))
  = map sess_stream (sessions w) ++ [a].
Proof.
  intros Inv Hc Ht. unfold getLocalCamera_finish.
  replace (sessions (setIsLoading false (setupAudioAnalyser audioContext a w)))
    with (sessions (setupAudioAnalyser audioContext a w)) by (symmetry; fp_eq F_sessions).
  unfold setupAudioAnalyser. rewrite Hc. cbn [audioTracks with_setupCalls].
  apply Nat.eqb_neq in Ht. rewrite Ht.
  rewrite detectVolume_streams.
  - cbn. rewrite map_app. reflexivity.
  - destruct (timer_inv_new_session a w Inv) as (N & _). exact N.
Qed.

End Precedence.

(** C10, as the code has it.  Where the component evaluates
    [stream || localStream] the supplied stream comes first: in a mounted
    running world the track listeners sit on the supplied stream when there is
    one and on the local stream otherwise; the audio-level effect analyses
    that same stream or none; the render treats it as the stream to show; and
    the stream effect attaches the supplied stream to a mounted video element.
    [getLocalCamera], on the other hand, attaches to a mounted video element
    the stream it has just acquired and starts a session on it, without
    looking at [stream]. *)
Theorem supplied_stream_precedence
    (audioContext : nat -> option (list Z)) (tracks : nat -> nat)
    (s : option nat) (r : bool) (tr : list Event) :
  let w := run audioContext tracks s r tr in
  (mounted w = true ->
     trackListeners w = opt_list (currentStream (stream w) (localStream w)))
  /\ (forall e, stream w = Some e ->
        currentStream (stream w) (localStream w) = Some e
        /\ (audioEffect audioContext w = w
            \/ audioEffect audioContext w = setupAudioAnalyser audioContext e w))
  /\ (stream w = None ->
        currentStream (stream w) (localStream w) = localStream w)
  /\ (forall e v, stream w = Some e -> videoRef w = Some v ->
        option_map srcObject (videoRef (streamEffect w)) = Some (Some e))
  /\ (forall a v, mounted w = true -> videoRef w = Some v ->
        option_map srcObject (videoRef (getLocalCamera_granted audioContext a w))
        = Some (Some a))
  /\ (forall a sp,
        audioContext (setupCalls w) = Some sp -> audioTracks w a <> 0 ->
        map sess_stream (sessions (getLocalCamera_finish audioContext a w))
        = map sess_stream (sessions w) ++ [a]).
Proof.
  intro w.
  pose proof (observed_run audioContext tracks s r tr) as O. fold w in O.
  pose proof (settled_run audioContext tracks s r tr) as Hs. fold w in Hs.
  split; [|split; [|split; [|split; [|split]]]].
  - intro M. unfold observed_inv in O. rewrite M in O.
    destruct Hs as [Hs|Hs]; [congruence|]. rewrite Hs in O. exact O.
  - intros e He. rewrite He. split; [reflexivity|].
    destruct (audioEffect_target audioContext w) as [H|[c [Hc H]]]; [auto|].
    rewrite He in Hc. cbn in Hc. injection Hc as <-. auto.
  - intro He. rewrite He. reflexivity.
  - intros e v He Hv. unfold streamEffect. rewrite He, Hv. reflexivity.
  - intros a v M Hv. unfold getLocalCamera_granted.
    replace (videoRef (setLocalStream (Some a) (log (LogGranted a) w)))
      with (videoRef w) by (symmetry; fp_eq F_videoRef).
    rewrite Hv. reflexivity.
  - intros a sp. apply finish_streams.
    exact (timer_inv_run audioContext tracks s r tr).
Qed.

Lemma supplied_stream_precedence_witness :
  let w := run silentAudio oneTrack None false [GumResolve 0 9; SetProps (Some 5) false] in
  trackListeners w = [5]
  /\ option_map srcObject (videoRef w) = Some (Some 5).
Proof.
  intro w.
  assert (M : mounted w = true) by (vm_compute; reflexivity).
  destruct (supplied_stream_precedence silentAudio oneTrack None false
              [GumResolve 0 9; SetProps (Some 5) false]) as (A & _).
  fold w in A. rewrite (A M). vm_compute. auto.
Defined.

(** C10 as stated fails.  With a stream supplied while the camera request is
    in flight, the acquired stream 9 is analysed next to the supplied stream
    7, and the video element has no stream attached; with two requests in
    flight, the stream acquired last is attached to the video element although
    stream 8 is supplied. *)
Lemma local_stream_used_despite_supplied_stream :
  let w1 := run silentAudio oneTrack None false
              [SetProps (Some 7) false; GumResolve 0 9] in
  let w2 := run silentAudio oneTrack None false
              [SetProps (Some 7) false; SetProps None false;
               SetProps (Some 8) false; GumResolve 0 9; GumResolve 1 10] in
  (stream w1 = Some 7 /\ localStream w1 = Some 9
   /\ map sess_stream (sessions w1) = [7; 9; 7]
   /\ option_map srcObject (videoRef w1) = Some None)
  /\ (stream w2 = Some 8 /\ localStream w2 = Some 10
      /\ option_map srcObject (videoRef w2) = Some (Some 10)).
Proof. vm_compute. repeat split. Qed.

(** * Further properties

    ** The threshold test of [detectVolume] *)

Lemma values_acc l a : fold_left Z.add l a = (a + fold_left Z.add l 0)%Z.
Proof.
  revert a. induction l as [|x l IH]; intro a; cbn; [lia|].
  rewrite (IH (a + x)%Z), (IH x). lia.
Qed.

Lemma values_bounds lo hi l :
  Forall (fun x => (lo <= x <= hi)%Z) l ->
  (lo * Z.of_nat (List.length l) <= values l <= hi * Z.of_nat (List.length l))%Z.
Proof.
  unfold values. induction 1 as [|x l Hx _ IH]; [cbn; lia|].
  cbn [fold_left List.length]. rewrite values_acc. lia.
Qed.

Lemma getByteFrequencyData_length sp :
  List.length (getByteFrequencyData sp) = 256.
Proof. unfold getByteFrequencyData. rewrite length_map, length_seq. reflexivity. Qed.

Lemma getByteFrequencyData_bytes sp :
  Forall (fun x => (0 <= x <= 255)%Z) (getByteFrequencyData sp).
Proof.
  unfold getByteFrequencyData. apply Forall_forall. intros x Hx.
  apply in_map_iff in Hx. destruct Hx as [i [<- _]]. lia.
Qed.

Lemma aboveThreshold_sum d :
  List.length d = 256 -> (aboveThreshold d = true <-> (5120 < values d)%Z).
Proof.
  intro L. rewrite aboveThreshold_spec. unfold average. rewrite L.
  unfold Qlt. cbn. lia.
Qed.

(** X1.  The buffer read by [detectVolume] has 256 entries, each a byte; their sum
    is at most 65280, the mean lies between 0 and 255, and the test
    [average > 20] holds exactly when the sum exceeds 5120. *)
Theorem threshold_is_a_sum_test (sp : list Z) :
  let dataArray := getByteFrequencyData sp in
  List.length dataArray = 256
  /\ Forall (fun x => (0 <= x <= 255)%Z) dataArray
  /\ (0 <= values dataArray <= 65280)%Z
  /\ (0 <= average dataArray)%Q /\ (average dataArray <= 255 # 1)%Q
  /\ (aboveThreshold dataArray = true <-> (5120 < values dataArray)%Z).
Proof.
  intro dataArray.
  pose proof (getByteFrequencyData_length sp) as L.
  pose proof (getByteFrequencyData_bytes sp) as B.
  fold dataArray in L, B. clearbody dataArray.
  pose proof (values_bounds 0 255 dataArray B) as V. rewrite L in V.
  split; [exact L|]. split; [exact B|]. split; [lia|].
  split; [|split].
  - unfold average, Qle. rewrite L. cbn. lia.
  - unfold average, Qle. rewrite L. cbn. lia.
  - apply aboveThreshold_sum, L.
Qed.

(** X2.  A spectrum with no bin above 20 never passes the threshold, whatever its
    length; one whose first 256 bins are all above 20 always does. *)
Theorem uniform_spectra (sp : list Z) :
  (Forall (fun x => (x <= 20)%Z) sp ->
     aboveThreshold (getByteFrequencyData sp) = false)
  /\ (256 <= List.length sp -> Forall (fun x => (20 < x)%Z) (firstn 256 sp) ->
        aboveThreshold (getByteFrequencyData sp) = true).
Proof.
  pose proof (getByteFrequencyData_length sp) as L.
  split.
  - intro Q.
    assert (B : Forall (fun x => (0 <= x <= 20)%Z) (getByteFrequencyData sp)).
    { unfold getByteFrequencyData. apply Forall_forall. intros x Hx.
      apply in_map_iff in Hx. destruct Hx as [i [<- _]].
      assert (nth i sp 0 <= 20)%Z.
      { destruct (Nat.lt_ge_cases i (List.length sp)) as [Hi|Hi].
        - rewrite Forall_forall in Q. apply Q, nth_In, Hi.
        - rewrite nth_overflow by exact Hi. lia. }
      lia. }
    pose proof (aboveThreshold_sum _ L) as T.
    revert L B T. generalize (getByteFrequencyData sp) as d. intros d L B T.
    pose proof (values_bounds 0 20 d B) as V. rewrite L in V.
    destruct (aboveThreshold d); [|reflexivity].
    destruct T as [T _]. specialize (T eq_refl). lia.
  - intros Len Q.
    assert (B : Forall (fun x => (21 <= x <= 255)%Z) (getByteFrequencyData sp)).
    { unfold getByteFrequencyData. apply Forall_forall. intros x Hx.
      apply in_map_iff in Hx. destruct Hx as [i [<- Hi]].
      apply in_seq in Hi.
      assert (I : (i < 256)%nat) by (change frequencyBinCount with 256 in Hi; lia).
      assert (20 < nth i sp 0)%Z.
      { rewrite Forall_forall in Q. apply Q.
        assert (E : nth i (firstn 256 sp) 0%Z = nth i sp 0%Z).
        { rewrite nth_firstn. apply Nat.ltb_lt in I. rewrite I. reflexivity. }
        rewrite <- E. apply nth_In. rewrite length_firstn. lia. }
      lia. }
    pose proof (aboveThreshold_sum _ L) as T.
    revert L B T. generalize (getByteFrequencyData sp) as d. intros d L B T.
    pose proof (values_bounds 21 255 d B) as V. rewrite L in V.
    apply T. lia.
Qed.

Lemma uniform_spectra_witness :
  aboveThreshold (getByteFrequencyData [20; 20; 7]%Z) = false
  /\ aboveThreshold (getByteFrequencyData (flat 21)) = true.
Proof.
  destruct (uniform_spectra [20; 20; 7]%Z) as [A _].
  destruct (uniform_spectra (flat 21)) as [_ B].
  split.
  - apply A. repeat constructor; lia.
  - apply B.
    + unfold flat. rewrite repeat_length. apply Nat.le_refl.
    + rewrite firstn_all2
        by (unfold flat; rewrite repeat_length; apply Nat.le_refl).
      apply Forall_forall. intros x Hx.
      apply repeat_spec in Hx. subst x. reflexivity.
Defined.

(** ** Render passes that leave the stream effect idle *)

Lemma streamEffect_skip w s :
  stream w = Some s -> videoRef w = None -> streamEffect w = w.
Proof. intros Hs Hv. unfold streamEffect. rewrite Hs, Hv. reflexivity. Qed.

(** [use_frame A f] rewrites with what footprint [A] says about field [f]. *)
Ltac use_frame A f :=
  let E := fresh "E" in
  pose proof (A f eq_refl) as E; cbn [get ftype] in E; rewrite ?E; clear E.

Lemma commitRef_hidden w :
  videoShown w = false -> videoRef w = None -> commitRef w = w.
Proof. unfold commitRef. intros -> V. destruct w; cbn in *. subst. reflexivity. Qed.

Lemma commitRef_loading w : isLoading w = true -> videoRef (commitRef w) = None.
Proof. intro L. unfold commitRef, videoShown. rewrite L. reflexivity. Qed.

Section IdleEffects.

Variable audioContext : nat -> option (list Z).

Lemma runEffects_idle_fp w :
  streamDepsChanged (committed w) (stream w, localStream w, isRemote w) = false
  \/ (exists s, stream w = Some s /\ videoRef w = None) ->
  agree idleEffectsFP w (runEffects audioContext w).
Proof.
  intro H. unfold runEffects.
  destruct (streamDepsChanged _ _) eqn:C.
  - destruct H as [H|[s [Hs Hv]]]; [discriminate|].
    destruct (allDepsChanged _ _), (localDepsChanged _ _);
      (rewrite (streamEffect_skip _ s);
       [ footprint
       | rewrite <- Hs; fp_eq F_stream
       | rewrite <- Hv; fp_eq F_videoRef ]).
  - destruct (allDepsChanged _ _), (localDepsChanged _ _); footprint.
Qed.

End IdleEffects.

(** ** A stream supplied before the video element exists *)

Section Waiting.

Variable audioContext : nat -> option (list Z).

Lemma waiting_flush w : waiting_inv w -> waiting_inv (flush audioContext w).
Proof.
  intros (L & V & PP & PG & C & T & S & LS & Er). unfold flush.
  destruct (mounted w); [|repeat split; assumption].
  rewrite (commitRef_hidden w); [| unfold videoShown; rewrite L; reflexivity | exact V].
  destruct (stream w) as [s|] eqn:Hs; [|discriminate].
  pose proof (runEffects_idle_fp audioContext w
                (or_intror (ex_intro _ s (conj Hs V)))) as A.
  set (x := runEffects audioContext w) in *.
  assert (Lx : isLoading x = true) by (use_frame A F_isLoading; exact L).
  pose proof (commitRef_fp x) as B.
  unfold waiting_inv.
  rewrite (commitRef_loading x Lx).
  use_frame B F_isLoading. use_frame B F_pendingPlay. use_frame B F_pendingGum.
  use_frame B F_clickListeners. use_frame B F_touchListeners.
  use_frame B F_stream. use_frame B F_localStream. use_frame B F_error.
  use_frame A F_pendingPlay. use_frame A F_pendingGum.
  use_frame A F_clickListeners. use_frame A F_touchListeners.
  use_frame A F_stream. use_frame A F_localStream. use_frame A F_error.
  rewrite Hs. repeat split; assumption.
Qed.

Lemma waiting_handle w e :
  suppliesStream e = true -> waiting_inv w -> waiting_inv (handle audioContext w e).
Proof.
  intros Q I. pose proof I as (L & V & PP & PG & C & T & S & LS & Er).
  destruct e; cbn [handle];
    try (unfold take_gum; rewrite PG; exact I);
    try (unfold take_play; rewrite PP; exact I);
    try (rewrite ?C, ?T; exact I).
  - (* SetProps *)
    destruct (mounted w); [|exact I]. cbn in Q. repeat split; assumption.
  - (* Unmount *)
    destruct (mounted w); [|exact I].
    pose proof (unmount_fp w) as A. unfold waiting_inv.
    replace (videoRef (unmount w)) with (@None Video) by reflexivity.
    use_frame A F_isLoading. use_frame A F_pendingPlay. use_frame A F_pendingGum.
    use_frame A F_clickListeners. use_frame A F_touchListeners.
    use_frame A F_stream. use_frame A F_localStream. use_frame A F_error.
    repeat split; assumption.
  - (* RetryClick *)
    unfold retryShown. rewrite L, andb_false_r. exact I.
  - (* Frame *)
    pose proof (detectVolume_fp sid spectrum w) as A. unfold waiting_inv.
    use_frame A F_isLoading. use_frame A F_videoRef.
    use_frame A F_pendingPlay. use_frame A F_pendingGum.
    use_frame A F_clickListeners. use_frame A F_touchListeners.
    use_frame A F_stream. use_frame A F_localStream. use_frame A F_error.
    exact I.
  - (* TimerFire *)
    pose proof (handle_fp audioContext w (TimerFire t)) as A. cbn [handle] in A.
    unfold waiting_inv.
    use_frame A F_isLoading. use_frame A F_videoRef.
    use_frame A F_pendingPlay. use_frame A F_pendingGum.
    use_frame A F_clickListeners. use_frame A F_touchListeners.
    use_frame A F_stream. use_frame A F_localStream. use_frame A F_error.
    exact I.
  - (* TrackChange *)
    pose proof (handle_fp audioContext w (TrackChange s audio)) as A. cbn [handle] in A.
    unfold waiting_inv.
    use_frame A F_isLoading. use_frame A F_videoRef.
    use_frame A F_pendingPlay. use_frame A F_pendingGum.
    use_frame A F_clickListeners. use_frame A F_touchListeners.
    use_frame A F_stream. use_frame A F_localStream. use_frame A F_error.
    exact I.
Qed.

Lemma waiting_run tracks s r tr :
  forallb suppliesStream tr = true ->
  waiting_inv (run audioContext tracks (Some s) r tr).
Proof.
  unfold run. induction tr as [|e tr IH] using rev_ind; intro Q.
  - apply waiting_flush. cbn. repeat split; reflexivity.
  - rewrite forallb_app in Q. apply andb_prop in Q. destruct Q as [Q1 Q2].
    cbn in Q2. rewrite andb_true_r in Q2.
    rewrite fold_left_app. cbn [fold_left]. unfold step.
    apply waiting_flush, waiting_handle; [exact Q2 | exact (IH Q1)].
Qed.

End Waiting.

(** X3.  An instance mounted with a stream never leaves the loading state as
    long as its parent keeps supplying a stream: the first render shows the
    spinner, so the stream effect finds no video element and takes none of
    its three branches, and nothing else clears [isLoading].  Whatever
    happens, no video element is mounted, no [play()] and no camera request
    is ever issued, no unlock listener is armed and the spinner is what is
    rendered. *)
Theorem supplied_stream_stays_loading
    (audioContext : nat -> option (list Z)) (tracks : nat -> nat)
    (s : nat) (r : bool) (tr : list Event) :
  forallb suppliesStream tr = true ->
  let w := run audioContext tracks (Some s) r tr in
  isLoading w = true /\ videoRef w = None
  /\ pendingPlay w = [] /\ pendingGum w = []
  /\ clickListeners w = [] /\ localStream w = None
  /\ presentation w = Loading
  /\ exists text, render w = Spinner text.
Proof.
  intros Q w.
  destruct (waiting_run audioContext tracks s r tr Q)
    as (L & V & PP & PG & C & T & S & LS & Er).
  fold w in L, V, PP, PG, C, T, S, LS, Er.
  repeat split; try assumption.
  - unfold presentation. rewrite L. reflexivity.
  - unfold render. rewrite L. eexists. reflexivity.
Qed.

Lemma supplied_stream_stays_loading_witness :
  let tr := [PlayResolve 0; SetProps (Some 4) true; Click; Elapse 1000;
             TrackChange 4 1; RetryClick] in
  let w := run silentAudio oneTrack (Some 3) false tr in
  forallb suppliesStream tr = true
  /\ isLoading w = true /\ videoRef w = None /\ pendingPlay w = []
  /\ sessions w <> [].
Proof.
  intros tr w.
  assert (Q : forallb suppliesStream tr = true) by (vm_compute; reflexivity).
  destruct (supplied_stream_stays_loading silentAudio oneTrack 3 false tr Q)
    as (L & V & PP & _).
  split; [exact Q|]. split; [exact L|]. split; [exact V|]. split; [exact PP|].
  vm_compute. discriminate.
Defined.

(** ** Remote instances *)

Lemma remote_agree fs w w' :
  agree fs w w' ->
  forallb (fun f => negb (inb f fs)) remoteCells = true ->
  remote_inv w -> remote_inv w'.
Proof.
  intros A Hfs. cbn in Hfs.
  repeat (apply andb_prop in Hfs; destruct Hfs as [?%negb_true_iff Hfs]).
  pose proof (A F_isRemote ltac:(assumption)) as E1.
  pose proof (A F_pendingGum ltac:(assumption)) as E2.
  pose proof (A F_localStream ltac:(assumption)) as E3.
  pose proof (A F_error ltac:(assumption)) as E4.
  pose proof (A F_sessions ltac:(assumption)) as E5.
  pose proof (A F_isSpeaking ltac:(assumption)) as E6.
  pose proof (A F_stopped ltac:(assumption)) as E7.
  pose proof (A F_timers ltac:(assumption)) as E8.
  pose proof (A F_setupCalls ltac:(assumption)) as E9.
  pose proof (A F_committed ltac:(assumption)) as E10.
  pose proof (A F_pendingPlay ltac:(assumption)) as E11.
  cbn [get ftype] in *. unfold remote_inv.
  rewrite E1, E2, E3, E4, E5, E6, E7, E8, E9, E10, E11. exact (fun H => H).
Qed.

Ltac remote_frame :=
  match goal with
  | |- remote_inv _ -> remote_inv _ =>
      refine (remote_agree _ _ _ _ _); [ fp_chain | vm_compute; reflexivity ]
  | H : remote_inv ?w |- remote_inv _ =>
      revert H; refine (remote_agree _ _ _ _ _); [ fp_chain | vm_compute; reflexivity ]
  end.

Lemma stopCleanup_none prev w : local_of prev = None -> stopCleanup prev w = w.
Proof. destruct prev as [[[ps [l|]] pr]|]; cbn; intro H; [discriminate|reflexivity..]. Qed.

Lemma remote_play w k :
  isLocalPlay k = false -> remote_inv w -> remote_inv (play k w).
Proof.
  intros K (R & G & L & Er & S & Sp & St & T & C & Lc & P).
  unfold remote_inv, play. cbn.
  rewrite forallb_app, P. cbn. rewrite K. repeat split; assumption.
Qed.

Lemma remote_streamEffect w : remote_inv w -> remote_inv (streamEffect w).
Proof.
  intro I. pose proof I as (R & _). unfold streamEffect. rewrite R. cbn [negb].
  destruct (stream w) as [s|]; [destruct (videoRef w) as [v|]|].
  - apply remote_play; [reflexivity|]. remote_frame.
  - exact I.
  - remote_frame.
Qed.

Lemma remote_enableAudio l w : remote_inv w -> remote_inv (enableAudio l w).
Proof.
  intro I. unfold enableAudio. cbv zeta.
  set (w1 := match videoRef w with Some v => _ | None => w end).
  assert (I1 : remote_inv w1).
  { subst w1. destruct (videoRef w); [|exact I].
    apply remote_play; [reflexivity|]. remote_frame. }
  revert I1. generalize w1. intros x Ix.
  unfold remote_inv in *. exact Ix.
Qed.

Lemma remote_dispatch ls w : remote_inv w -> remote_inv (dispatch ls w).
Proof.
  unfold dispatch. revert w. induction ls as [|l ls IH]; intros w I; [exact I|].
  cbn [fold_left]. apply IH, remote_enableAudio, I.
Qed.

Lemma forallb_filter_keep {A} (p q : A -> bool) l :
  forallb p l = true -> forallb p (filter q l) = true.
Proof.
  induction l as [|a l IH]; cbn; [auto|].
  intro H. apply andb_prop in H. destruct H as [Ha Hl].
  destruct (q a); cbn; [rewrite Ha|]; auto.
Qed.

Lemma remote_take_play id w k w1 :
  take_play id w = Some (k, w1) -> remote_inv w ->
  isLocalPlay k = false /\ remote_inv w1.
Proof.
  unfold take_play. intros T I.
  destruct (find _ (pendingPlay w)) as [[i k']|] eqn:F; [|discriminate].
  injection T as <- <-.
  pose proof I as (R & G & L & Er & S & Sp & St & Tm & C & Lc & P).
  split.
  - apply find_some in F. destruct F as [Hin _].
    rewrite forallb_forall in P. specialize (P _ Hin). cbn in P.
    apply negb_true_iff in P. exact P.
  - unfold remote_inv. cbn. repeat split; try assumption.
    apply forallb_filter_keep, P.
Qed.

Section Remote.

Variable audioContext : nat -> option (list Z).

Lemma audioEffect_remote w : isRemote w = true -> audioEffect audioContext w = w.
Proof. intro R. unfold audioEffect. rewrite R. reflexivity. Qed.

Lemma remote_runEffects w : remote_inv w -> remote_inv (runEffects audioContext w).
Proof.
  intro I. pose proof I as (R & G & L & Er & S & Sp & St & T & C & Lc & P).
  unfold runEffects. cbv zeta.
  rewrite (stopCleanup_none (committed w)) by exact Lc.
  set (w1 := if allDepsChanged _ _ then trackCleanup (committed w) w else w).
  assert (I1 : remote_inv w1) by (subst w1; destruct (allDepsChanged _ _); [remote_frame | exact I]).
  set (w2 := if localDepsChanged _ _ then w1 else w1).
  assert (I2 : remote_inv w2) by (subst w2; destruct (localDepsChanged _ _); exact I1).
  set (w3 := if streamDepsChanged _ _ then streamEffect w2 else w2).
  assert (I3 : remote_inv w3)
    by (subst w3; destruct (streamDepsChanged _ _); [apply remote_streamEffect|]; exact I2).
  set (w4 := if allDepsChanged _ _ then trackEffect w3 else w3).
  assert (I4 : remote_inv w4) by (subst w4; destruct (allDepsChanged _ _); [remote_frame | exact I3]).
  set (w5 := if allDepsChanged _ _ then audioEffect audioContext w4 else w4).
  assert (I5 : remote_inv w5).
  { subst w5; destruct (allDepsChanged _ _); [|exact I4].
    rewrite audioEffect_remote; [exact I4 | apply I4]. }
  clearbody w5. clear - I5 L.
  destruct I5 as (R5 & G5 & L5 & Er5 & S5 & Sp5 & St5 & T5 & C5 & Lc5 & P5).
  unfold remote_inv. cbn. rewrite L. repeat split; assumption.
Qed.

Lemma remote_commitRef w : remote_inv w -> remote_inv (commitRef w).
Proof. intro I. remote_frame. Qed.

Lemma remote_flush w : remote_inv w -> remote_inv (flush audioContext w).
Proof.
  intro I. unfold flush. destruct (mounted w); [|exact I].
  apply remote_commitRef, remote_runEffects, remote_commitRef, I.
Qed.

Lemma remote_handle w e :
  staysRemote e = true -> remote_inv w -> remote_inv (handle audioContext w e).
Proof.
  intros Q I. pose proof I as (R & G & L & Er & S & Sp & St & T & C & Lc & P).
  destruct e; cbn [handle].
  - (* SetProps *)
    destruct (mounted w); [|exact I]. cbn in Q. subst r.
    unfold remote_inv. cbn. repeat split; assumption.
  - (* Unmount *)
    destruct (mounted w); [|exact I]. unfold unmount.
    rewrite (stopCleanup_none (committed w)) by exact Lc. remote_frame.
  - unfold take_gum. rewrite G. exact I.
  - unfold take_gum. rewrite G. exact I.
  - (* PlayResolve *)
    destruct (take_play id w) as [[k w1]|] eqn:E; [|exact I].
    destruct (remote_take_play id w k w1 E I) as [K I1].
    destruct k; [|discriminate|exact I1]. cbn [play_resolved]. remote_frame.
  - (* PlayReject *)
    destruct (take_play id w) as [[k w1]|] eqn:E; [|exact I].
    destruct (remote_take_play id w k w1 E I) as [K I1].
    destruct k as [r| |]; [|discriminate|]; cbn [play_rejected].
    + cbv zeta. destruct r; remote_frame.
    + remote_frame.
  - apply remote_dispatch, I.
  - apply remote_dispatch, I.
  - (* RetryClick *)
    unfold retryShown. rewrite Er. cbn. rewrite !andb_false_r. exact I.
  - (* Frame *)
    unfold detectVolume, find_session. rewrite S. exact I.
  - (* TimerFire *)
    unfold timer_due. rewrite T. exact I.
  - (* Elapse *) remote_frame.
  - (* TrackChange *)
    pose proof (handle_fp audioContext w (TrackChange s audio)) as A. cbn [handle] in A.
    revert I. apply (remote_agree _ _ _ A). vm_compute; reflexivity.
Qed.

Lemma remote_run tracks s tr :
  forallb staysRemote tr = true ->
  remote_inv (run audioContext tracks s true tr).
Proof.
  unfold run. induction tr as [|e tr IH] using rev_ind; intro Q.
  - apply remote_flush. unfold remote_inv. cbn. repeat split; reflexivity.
  - rewrite forallb_app in Q. apply andb_prop in Q. destruct Q as [Q1 Q2].
    cbn in Q2. rewrite andb_true_r in Q2.
    rewrite fold_left_app. cbn [fold_left]. unfold step.
    apply remote_flush, remote_handle; [exact Q2 | exact (IH Q1)].
Qed.

End Remote.

(** X4.  An instance that is remote from its first render on never asks for
    the camera and never analyses audio: whatever the events and whatever
    streams its parent supplies, no [getUserMedia] request is pending, no
    local stream is stored, [error] is unset, [setupAudioAnalyser] was never
    called, there is no session and no timer, [isSpeaking] is false, no
    track was stopped, and no waves are rendered. *)
Theorem remote_instance_never_acquires
    (audioContext : nat -> option (list Z)) (tracks : nat -> nat)
    (s : option nat) (tr : list Event) :
  forallb staysRemote tr = true ->
  let w := run audioContext tracks s true tr in
  pendingGum w = [] /\ localStream w = None /\ error w = None
  /\ setupCalls w = 0 /\ sessions w = [] /\ timers w = []
  /\ isSpeaking w = false /\ stopped w = []
  /\ renderWaves w = None.
Proof.
  intros Q w.
  destruct (remote_run audioContext tracks s tr Q)
    as (R & G & L & Er & S & Sp & St & T & C & Lc & P).
  fold w in R, G, L, Er, S, Sp, St, T, C.
  repeat split; try assumption.
  unfold renderWaves. rewrite R, orb_true_r. reflexivity.
Qed.

Lemma remote_instance_never_acquires_witness :
  let tr := [SetProps (Some 7) true; PlayReject 0; Click; PlayResolve 1;
             SetProps None true; Frame 0 (flat 200); Unmount] in
  let w := run silentAudio oneTrack None true tr in
  forallb staysRemote tr = true
  /\ pendingGum w = [] /\ setupCalls w = 0 /\ stopped w = [].
Proof.
  intros tr w.
  assert (Q : forallb staysRemote tr = true) by (vm_compute; reflexivity).
  destruct (remote_instance_never_acquires silentAudio oneTrack None tr Q)
    as (G & _ & _ & C & _ & _ & _ & St & _).
  split; [exact Q|]. split; [exact G|]. split; [exact C|exact St].
Defined.

(** ** The unlock listeners *)

Lemma paired_agree fs w w' :
  agree fs w w' ->
  forallb (fun f => negb (inb f fs)) listenerCells = true ->
  paired_inv w -> paired_inv w'.
Proof.
  intros A Hfs. cbn in Hfs.
  repeat (apply andb_prop in Hfs; destruct Hfs as [?%negb_true_iff Hfs]).
  pose proof (A F_clickListeners ltac:(assumption)) as E1.
  pose proof (A F_touchListeners ltac:(assumption)) as E2.
  pose proof (A F_nextListener ltac:(assumption)) as E3.
  cbn [get ftype] in *. unfold paired_inv.
  rewrite E1, E2, E3. exact (fun H => H).
Qed.

Ltac paired_frame :=
  match goal with
  | |- paired_inv _ -> paired_inv _ =>
      refine (paired_agree _ _ _ _ _); [ fp_chain | vm_compute; reflexivity ]
  | H : paired_inv ?w |- paired_inv _ =>
      revert H; refine (paired_agree _ _ _ _ _); [ fp_chain | vm_compute; reflexivity ]
  end.

Lemma remove_first_In x y l : In y (remove_first x l) -> In y l.
Proof.
  induction l as [|a l IH]; cbn; [auto|].
  destruct (Nat.eqb x a); cbn; [auto|]. intros [H|H]; auto.
Qed.

Lemma remove_first_NoDup x l : NoDup l -> NoDup (remove_first x l).
Proof.
  induction 1 as [|a l Ha Hl IH]; cbn; [constructor|].
  destruct (Nat.eqb x a); [exact Hl|].
  constructor; [|exact IH]. intro H. apply Ha. eapply remove_first_In, H.
Qed.

Lemma paired_enableAudio l w : paired_inv w -> paired_inv (enableAudio l w).
Proof.
  intros (P & N & B). unfold paired_inv.
  rewrite enableAudio_click, enableAudio_touch, P.
  replace (nextListener (enableAudio l w)) with (nextListener w)
    by (unfold enableAudio; destruct (videoRef w); reflexivity).
  split; [reflexivity|]. split; [apply remove_first_NoDup, N|].
  intros x Hx. apply B. eapply remove_first_In, Hx.
Qed.

Lemma paired_dispatch ls w : paired_inv w -> paired_inv (dispatch ls w).
Proof.
  unfold dispatch. revert w. induction ls as [|l ls IH]; intros w I; [exact I|].
  cbn [fold_left]. apply IH, paired_enableAudio, I.
Qed.

Lemma paired_armEnableAudio w : paired_inv w -> paired_inv (armEnableAudio w).
Proof.
  intros (P & N & B). unfold paired_inv, armEnableAudio. cbn. rewrite P.
  split; [reflexivity|]. split.
  - apply NoDup_app; [exact N | repeat constructor; intros [] |].
    intros x Hx [<-|[]]. specialize (B _ Hx). lia.
  - intros x Hx. apply in_app_or in Hx. destruct Hx as [Hx|[<-|[]]]; [|lia].
    specialize (B _ Hx). lia.
Qed.

Section Paired.

Variable audioContext : nat -> option (list Z).

Lemma paired_flush w : paired_inv w -> paired_inv (flush audioContext w).
Proof. intro I. paired_frame. Qed.

Lemma paired_handle w e : paired_inv w -> paired_inv (handle audioContext w e).
Proof.
  intro I.
  destruct e;
    try (revert I; refine (paired_agree _ _ _ (handle_fp audioContext w _) _);
         vm_compute; reflexivity);
    cbn [handle].
  - (* PlayReject *)
    destruct (take_play id w) as [[k w1]|] eqn:E; [|exact I].
    assert (I1 : paired_inv w1).
    { revert I. refine (paired_agree _ _ _ (take_play_fp _ _ _ _ E) _).
      vm_compute; reflexivity. }
    destruct k as [r| |]; cbn [play_rejected]; [|paired_frame..].
    cbv zeta. destruct r; [|paired_frame].
    apply paired_armEnableAudio. paired_frame.
  - apply paired_dispatch, I.
  - apply paired_dispatch, I.
  - (* RetryClick *)
    destruct (retryShown w); [|exact I]. cbv zeta.
    apply paired_dispatch, paired_flush. paired_frame.
Qed.

Lemma paired_run tracks s r tr : paired_inv (run audioContext tracks s r tr).
Proof.
  unfold run. induction tr as [|e tr IH] using rev_ind.
  - apply paired_flush. unfold paired_inv. cbn.
    split; [reflexivity|]. split; [constructor | intros l []].
  - rewrite fold_left_app. cbn [fold_left]. unfold step.
    apply paired_flush, paired_handle, IH.
Qed.

End Paired.

(** X5.  In every running world the [click] and the [touchstart]
    registrations of [document] hold the same [enableAudio] closures, each of
    them once: a closure is added to both at lines 59-60 and removed from
    both at lines 55-56.  So one click, or one touch, leaves neither event
    with a registration, however many blocked playbacks had armed one. *)
Theorem unlock_listeners_paired
    (audioContext : nat -> option (list Z)) (tracks : nat -> nat)
    (s : option nat) (r : bool) (tr : list Event) :
  let w := run audioContext tracks s r tr in
  touchListeners w = clickListeners w
  /\ NoDup (clickListeners w)
  /\ (forall e, e = Click \/ e = Touch ->
        clickListeners (step audioContext w e) = []
        /\ touchListeners (step audioContext w e) = []).
Proof.
  intro w. destruct (paired_run audioContext tracks s r tr) as (P & N & _).
  fold w in P, N. split; [exact P|]. split; [exact N|].
  intros e He. rewrite step_clickListeners, step_touchListeners.
  destruct He as [-> | ->]; cbn [handle];
    rewrite dispatch_click, dispatch_touch, ?P.
  - rewrite <- (app_nil_r (clickListeners w)) at 2 4.
    rewrite remove_first_fold_self. auto.
  - rewrite <- (app_nil_r (clickListeners w)) at 2 4.
    rewrite remove_first_fold_self. auto.
Qed.

(** ** The timer table *)

Lemma fresh_agree fs w w' :
  agree fs w w' ->
  forallb (fun f => negb (inb f fs)) [F_timers; F_nextTimer] = true ->
  fresh_inv w -> fresh_inv w'.
Proof.
  intros A Hfs. cbn in Hfs.
  repeat (apply andb_prop in Hfs; destruct Hfs as [?%negb_true_iff Hfs]).
  pose proof (A F_timers ltac:(assumption)) as E1.
  pose proof (A F_nextTimer ltac:(assumption)) as E2.
  cbn [get ftype] in *. unfold fresh_inv. rewrite E1, E2. exact (fun H => H).
Qed.

Lemma NoDup_map_filter {A B} (f : A -> B) (p : A -> bool) l :
  NoDup (map f l) -> NoDup (map f (filter p l)).
Proof.
  induction l as [|a l IH]; cbn; [auto|].
  intro H. inversion H as [|x xs Hx Hxs]; subst.
  destruct (p a); cbn; [|auto].
  constructor; [|auto]. intro Hin. apply Hx.
  apply in_map_iff in Hin. destruct Hin as [y [Hy Hin]].
  apply filter_In in Hin. destruct Hin as [Hin _].
  apply in_map_iff. exists y. auto.
Qed.

Lemma fresh_arm (ts : list (positive * Z)) (n : positive) (d : Z) :
  NoDup (map fst ts) -> (forall t e, In (t, e) ts -> (t < n)%positive) ->
  NoDup (map fst (ts ++ [(n, d)]))
  /\ (forall t e, In (t, e) (ts ++ [(n, d)]) -> (t < Pos.succ n)%positive).
Proof.
  intros N B. split.
  - rewrite map_app. cbn. apply NoDup_app; [exact N | repeat constructor; intros [] |].
    intros x Hx [<-|[]]. apply in_map_iff in Hx. destruct Hx as [[t e] [<- Hin]].
    specialize (B _ _ Hin). cbn in B. lia.
  - intros t e Hin. apply in_app_or in Hin. destruct Hin as [Hin|[Hin|[]]].
    + specialize (B _ _ Hin). lia.
    + injection Hin as <- <-. lia.
Qed.

Lemma fresh_detect_in s sp w : fresh_inv w -> fresh_inv (detectVolume_in s sp w).
Proof.
  intros (N & B).
  destruct (detectVolume_in_effect s sp w _ eq_refl) as (_ & T & NT & _).
  unfold fresh_inv. rewrite T, NT.
  generalize (aboveThreshold (getByteFrequencyData sp)). intros [|]; [|auto].
  destruct (silenceTimeout s) as [t|]; apply fresh_arm; auto.
  - apply NoDup_map_filter, N.
  - intros t' e Hin. apply filter_In in Hin. destruct Hin as [Hin _]. eauto.
Qed.

Lemma fresh_detectVolume sid sp w : fresh_inv w -> fresh_inv (detectVolume sid sp w).
Proof.
  intro H. unfold detectVolume. destruct (find_session sid w); [|exact H].
  apply fresh_detect_in, H.
Qed.

Lemma fresh_fire t w : fresh_inv w -> fresh_inv (silenceCallback (clearTimeout t w)).
Proof.
  intros (N & B).
  eapply fresh_agree; [apply silenceCallback_fp | reflexivity |].
  unfold fresh_inv, clearTimeout. cbn. split.
  - apply NoDup_map_filter, N.
  - intros t' e Hin. apply filter_In in Hin. destruct Hin as [Hin _]. eauto.
Qed.

Lemma heldTimers_length ss : List.length (heldTimers ss) <= List.length ss.
Proof.
  induction ss as [|s ss IH]; [cbn; auto|].
  unfold heldTimers in *. cbn [flat_map List.length]. rewrite length_app.
  destruct (silenceTimeout s); cbn [List.length]; lia.
Qed.

Lemma heldTimers_In ss s t :
  In s ss -> silenceTimeout s = Some t -> In t (heldTimers ss).
Proof.
  intros Hin Ht. unfold heldTimers. apply in_flat_map. exists s.
  rewrite Ht. cbn. auto.
Qed.

Section Timers.

Variable audioContext : nat -> option (list Z).

Lemma fresh_setup s w : fresh_inv w -> fresh_inv (setupAudioAnalyser audioContext s w).
Proof.
  intro H. unfold setupAudioAnalyser. cbv zeta.
  destruct (audioContext (setupCalls w)) as [sp|].
  - destruct (Nat.eqb _ _).
    + revert H. refine (fresh_agree _ _ _ _ _); [fp_chain | vm_compute; reflexivity].
    + apply fresh_detectVolume.
      revert H. refine (fresh_agree _ _ _ _ _); [fp_chain | vm_compute; reflexivity].
  - revert H. refine (fresh_agree _ _ _ _ _); [fp_chain | vm_compute; reflexivity].
Qed.

Lemma fresh_path w w' :
  audio_path audioContext w w' -> fresh_inv w -> fresh_inv w'.
Proof.
  induction 1 as [w|w x y fs P IH A C|w x s P IH|w x sid sp P IH]; intro Hw; auto.
  - eapply fresh_agree; [exact A | | auto].
    cbn [forallb].
    rewrite (audioCells_out fs F_timers C), (audioCells_out fs F_nextTimer C)
      by (cbn; tauto).
    reflexivity.
  - apply fresh_setup; auto.
  - apply fresh_detectVolume; auto.
Qed.

Lemma fresh_step w e : fresh_inv w -> fresh_inv (step audioContext w e).
Proof.
  intro H. destruct (isTimerFire e) eqn:T.
  - destruct e; try discriminate T.
    eapply fresh_path; [apply step_fire_ap|].
    destruct (timer_due t w); [apply fresh_fire|]; exact H.
  - destruct (isTrackChange e) eqn:C.
    + destruct e; try discriminate C.
      eapply fresh_path; [apply step_track_ap|].
      eapply fresh_agree; [apply handle_fp | reflexivity | exact H].
    + eapply fresh_path; [apply step_ap; assumption | exact H].
Qed.

Lemma fresh_run tracks s r tr : fresh_inv (run audioContext tracks s r tr).
Proof.
  unfold run. induction tr as [|e tr IHtr] using rev_ind.
  - cbn [fold_left]. unfold mount. eapply fresh_path; [apply flush_ap, ap_nil|].
    unfold fresh_inv. cbn. split; [constructor | intros t d []].
  - rewrite fold_left_app. apply fresh_step, IHtr.
Qed.

End Timers.

(** X6.  Each analysis session clears the silence timer it armed before it
    arms the next one (line 177), so in every running world the armed timers
    have distinct ids, each is the [silenceTimeout] of a session, and there
    are never more armed timers than sessions. *)
Theorem one_silence_timer_per_session
    (audioContext : nat -> option (list Z)) (tracks : nat -> nat)
    (s : option nat) (r : bool) (tr : list Event) :
  let w := run audioContext tracks s r tr in
  NoDup (map fst (timers w))
  /\ incl (map fst (timers w)) (heldTimers (sessions w))
  /\ List.length (timers w) <= List.length (sessions w).
Proof.
  intro w.
  destruct (fresh_run audioContext tracks s r tr) as (N & _). fold w in N.
  destruct (timer_inv_run audioContext tracks s r tr) as (_ & _ & _ & Harm).
  fold w in Harm.
  assert (I : incl (map fst (timers w)) (heldTimers (sessions w))).
  { intros t Ht. apply in_map_iff in Ht. destruct Ht as [[t' d] [<- Hin]].
    destruct (Harm _ _ Hin) as [x [Hx Hxt]]. eapply heldTimers_In; eauto. }
  split; [exact N|]. split; [exact I|].
  rewrite <- (length_map fst (timers w)).
  eapply Nat.le_trans; [apply NoDup_incl_length; eassumption|].
  apply heldTimers_length.
Qed.

(** ** What a rejected camera request renders *)

(** X7.  In a mounted world at rest with a pending camera request, the
    rejection of the request ends the loading state.  With a non-empty
    message the error panel with that message and the retry button is
    rendered and no video element is mounted, whether or not a stream is at
    hand.  With an empty message [error] is the empty string, which the test
    of line 258 takes for no error: no error panel and no retry button are
    rendered, a retry click is not available, and the render falls through to
    the video or the placeholder. *)
Theorem rejection_rendering
    (audioContext : nat -> option (list Z)) (w : World) (id : nat) (msg : string) :
  at_rest audioContext w -> mounted w = true ->
  existsb (Nat.eqb id) (pendingGum w) = true ->
  let w' := step audioContext w (GumReject id msg) in
  isLoading w' = false
  /\ match msg with
     | String _ _ =>
         render w' = ErrorPanel msg /\ retryShown w' = true /\ videoRef w' = None
     | EmptyString =>
         error w' = Some EmptyString
         /\ retryShown w' = false
         /\ step audioContext w' RetryClick = w'
         /\ render w' =
              if isSome (currentStream (stream w) (localStream w))
              then VideoView (if isRemote w then false else isMuted) (renderWaves w)
              else Placeholder (if isRemote w then "Waiting for AI Doctor..."
                                else "No camera stream")
     end.
Proof.
  intros R M P w'.
  pose proof (at_rest_settled audioContext w R) as Hs.
  destruct (reject_sets_error audioContext w id msg Hs M P) as (E & L & M').
  fold w' in E, L, M'.
  pose proof (step_reject_fp audioContext w id msg Hs) as A. fold w' in A.
  assert (R' : at_rest audioContext w') by apply flush_idem.
  split; [exact L|].
  destruct msg as [|a m].
  - split; [exact E|].
    assert (Sh : retryShown w' = false)
      by (unfold retryShown; rewrite E; cbn; apply andb_false_r).
    split; [exact Sh|]. split.
    + unfold step. cbn [handle]. rewrite Sh. exact R'.
    + unfold render, renderWaves. rewrite L, E. cbn [truthy].
      use_frame A F_stream. use_frame A F_localStream. use_frame A F_isRemote.
      use_frame A F_isSpeaking. reflexivity.
  - split; [|split].
    + unfold render. rewrite L, E. reflexivity.
    + unfold retryShown. rewrite M', L, E. reflexivity.
    + destruct (videoRef w') as [v|] eqn:V; [|reflexivity].
      pose proof (at_rest_video audioContext w' v R' M' V) as Sh.
      unfold videoShown in Sh. rewrite L, E in Sh. discriminate.
Qed.

Lemma rejection_rendering_witness :
  let w := run silentAudio oneTrack None false [SetProps (Some 3) false] in
  let w' := step silentAudio w (GumReject 0 "NotAllowedError") in
  at_rest silentAudio w /\ stream w' = Some 3
  /\ render w' = ErrorPanel "NotAllowedError" /\ videoRef w' = None.
Proof.
  intros w w'.
  assert (R : at_rest silentAudio w) by apply at_rest_run.
  assert (M : mounted w = true) by (vm_compute; reflexivity).
  assert (P : existsb (Nat.eqb 0) (pendingGum w) = true) by (vm_compute; reflexivity).
  destruct (rejection_rendering silentAudio w 0 "NotAllowedError" R M P)
    as (_ & Rd & _ & V).
  split; [exact R|]. split; [vm_compute; reflexivity|]. split; [exact Rd | exact V].
Defined.

(** ** Track changes *)

Lemma trackLog_console r s a ls w :
  console (fold_left
             (fun acc c => if Nat.eqb c s then log (LogTracks r s a) acc else acc)
             ls w)
  = console w
    ++ flat_map (fun c => if Nat.eqb c s then [LogTracks r s a] else []) ls.
Proof.
  revert w. induction ls as [|c ls IH]; intro w; cbn [fold_left flat_map].
  - symmetry. apply app_nil_r.
  - rewrite IH. destruct (Nat.eqb c s); [|reflexivity].
    unfold log. cbn. rewrite <- app_assoc. reflexivity.
Qed.

(** X8.  An [addtrack]/[removetrack] event changes the track count of its
    stream and nothing of the component but the console: the handler of
    lines 126-131 logs once when the stream is the [stream || localStream] of
    a mounted component and not at all otherwise, and the audio-level effect,
    whose dependencies are not touched, does not run again, so a stream that
    gets its first audio track this way is given no analysis session. *)
Theorem track_change_only_logs
    (audioContext : nat -> option (list Z)) (tracks : nat -> nat)
    (s0 : option nat) (r0 : bool) (tr : list Event) (s a : nat) :
  let w := run audioContext tracks s0 r0 tr in
  let w' := step audioContext w (TrackChange s a) in
  agree [F_audioTracks; F_console] w w'
  /\ audioTracks w' s = a
  /\ (forall x, x <> s -> audioTracks w' x = audioTracks w x)
  /\ console w' =
       console w ++
         (if mounted w && opt_eqb (currentStream (stream w) (localStream w)) (Some s)
          then [LogTracks (isRemote w) s a] else [])
  /\ sessions w' = sessions w /\ setupCalls w' = setupCalls w.
Proof.
  intros w w'.
  pose proof (settled_run audioContext tracks s0 r0 tr) as Hs. fold w in Hs.
  pose proof (at_rest_run audioContext tracks s0 r0 tr) as R. fold w in R.
  pose proof (observed_run audioContext tracks s0 r0 tr) as O. fold w in O.
  pose proof (step_quiet audioContext w (TrackChange s a) eq_refl Hs) as A.
  fold w' in A. cbn [handleFP] in A.
  assert (Hh : settled (handle audioContext w (TrackChange s a)))
    by (apply handle_settled; [reflexivity | exact Hs]).
  pose proof (flush_settled_fp audioContext _ Hh) as B.
  fold (step audioContext w (TrackChange s a)) in B. fold w' in B.
  assert (V : videoRef w' = videoRef w).
  { unfold w', step. rewrite (flush_settled audioContext _ Hh).
    set (h := handle audioContext w (TrackChange s a)).
    assert (Eh : videoRef h = videoRef w) by (subst h; handle_frame F_videoRef).
    assert (Mh : mounted h = mounted w) by (subst h; handle_frame F_mounted).
    rewrite Mh. destruct (mounted w) eqn:M; [|exact Eh].
    assert (Sh : videoShown h = videoShown w).
    { eapply videoShown_agree; [apply handle_fp | reflexivity]. }
    unfold commitRef. cbn [videoRef with_videoRef]. rewrite Sh, Eh.
    destruct (videoRef w) as [v|] eqn:Vw.
    - rewrite (at_rest_video audioContext w v R M Vw). reflexivity.
    - rewrite (at_rest_novideo audioContext w R M Vw). reflexivity. }
  split; [|split; [|split; [|split; [|split]]]].
  - intros f Hf. destruct f; try discriminate Hf;
      try (match goal with |- get ?f _ = _ => exact (A f eq_refl) end).
    exact V.
  - rewrite (B F_audioTracks eq_refl : audioTracks w' = audioTracks _).
    cbn [handle]. cbv zeta.
    match goal with |- audioTracks ?y s = a =>
      replace (audioTracks y) with
        (fun k => if Nat.eqb k s then a else audioTracks w k)
    end; [rewrite Nat.eqb_refl; reflexivity|].
    symmetry.
    match goal with |- audioTracks (fold_left ?f ?l ?y) = _ =>
      exact (trackLog_fp (isRemote w) s a l y F_audioTracks eq_refl)
    end.
  - intros x Hx.
    rewrite (B F_audioTracks eq_refl : audioTracks w' = audioTracks _).
    cbn [handle]. cbv zeta.
    match goal with |- audioTracks (fold_left ?f ?l ?y) x = _ =>
      rewrite (trackLog_fp (isRemote w) s a l y F_audioTracks eq_refl
               : audioTracks (fold_left f l y) = audioTracks y)
    end.
    cbn. apply Nat.eqb_neq in Hx. rewrite Hx. reflexivity.
  - rewrite (B F_console eq_refl : console w' = console _).
    cbn [handle]. cbv zeta. rewrite trackLog_console. cbn [console with_audioTracks].
    f_equal. unfold observed_inv in O. rewrite O.
    destruct (mounted w) eqn:M; [|reflexivity].
    destruct Hs as [Hs|Hs]; [congruence|]. rewrite Hs.
    destruct (currentStream (stream w) (localStream w)) as [c|]; cbn; [|reflexivity].
    destruct (Nat.eqb c s); reflexivity.
  - exact (A F_sessions eq_refl).
  - exact (A F_setupCalls eq_refl).
Qed.

(** ** When tracks are stopped *)

Section Release.

Variable audioContext : nat -> option (list Z).

Lemma runEffects_stopped_eq w :
  stopped (runEffects audioContext w)
  = stopped w
    ++ (if localDepsChanged (committed w) (stream w, localStream w, isRemote w)
        then opt_list (local_of (committed w)) else []).
Proof.
  unfold runEffects.
  set (d := (stream w, localStream w, isRemote w)). set (prev := committed w).
  set (w1 := if allDepsChanged prev d then trackCleanup prev w else w).
  set (w2 := if localDepsChanged prev d then stopCleanup prev w1 else w1).
  set (w3 := if streamDepsChanged prev d then streamEffect w2 else w2).
  set (w4 := if allDepsChanged prev d then trackEffect w3 else w3).
  set (w5 := if allDepsChanged prev d then audioEffect audioContext w4 else w4).
  assert (E5 : stopped (with_committed (Some d) w5) = stopped w2).
  { subst w5 w4 w3.
    destruct (allDepsChanged prev d), (streamDepsChanged prev d); fp_eq F_stopped. }
  assert (E1 : stopped w1 = stopped w).
  { subst w1. destruct (allDepsChanged prev d); fp_eq F_stopped. }
  rewrite E5. subst w2. destruct (localDepsChanged prev d).
  - clearbody w1. clearbody prev. unfold stopCleanup, local_of, stopTracks.
    destruct prev as [[[ps [l|]] pr]|]; cbn [opt_list stopped with_stopped];
      rewrite E1, ?app_nil_r; reflexivity.
  - rewrite E1, app_nil_r. reflexivity.
Qed.

Lemma flush_stopped_eq w :
  stopped (flush audioContext w)
  = stopped w
    ++ (if mounted w
           && localDepsChanged (committed w) (stream w, localStream w, isRemote w)
        then opt_list (local_of (committed w)) else []).
Proof.
  unfold flush. destruct (mounted w); cbn [andb]; [|symmetry; apply app_nil_r].
  replace (stopped (commitRef (runEffects audioContext (commitRef w))))
    with (stopped (runEffects audioContext (commitRef w))) by (symmetry; fp_eq F_stopped).
  rewrite runEffects_stopped_eq. reflexivity.
Qed.

Lemma granted_localStream_eq s w :
  localStream (getLocalCamera_granted audioContext s w)
  = if mounted w then Some s else localStream w.
Proof.
  unfold getLocalCamera_granted.
  set (w1 := setLocalStream (Some s) (log (LogGranted s) w)).
  assert (H : localStream w1 = if mounted w then Some s else localStream w).
  { subst w1. unfold setLocalStream.
    replace (mounted (log (LogGranted s) w)) with (mounted w) by reflexivity.
    destruct (mounted w); reflexivity. }
  rewrite <- H. destruct (videoRef w1); fp_eq F_localStream.
Qed.

Lemma step_mounted_eq w e :
  mounted (step audioContext w e)
  = match e with Unmount => false | _ => mounted w end.
Proof.
  unfold step.
  transitivity (mounted (handle audioContext w e)); [fp_eq F_mounted|].
  destruct e; try handle_frame F_mounted.
  cbn [handle]. destruct (mounted w) eqn:M; [reflexivity | exact M].
Qed.

Lemma step_localStream_eq w e :
  localStream (step audioContext w e)
  = match e with
    | GumResolve id s =>
        if mounted w && existsb (Nat.eqb id) (pendingGum w) then Some s
        else localStream w
    | _ => localStream w
    end.
Proof.
  unfold step. rewrite flush_localStream.
  destruct e; try handle_frame F_localStream.
  cbn [handle]. unfold take_gum.
  destruct (existsb (Nat.eqb id) (pendingGum w)); [|rewrite andb_false_r; reflexivity].
  rewrite granted_localStream_eq, andb_true_r. reflexivity.
Qed.

Lemma step_stopped_eq w e :
  settled w -> stopped (step audioContext w e) = stopped w ++ released w e.
Proof.
  intro Hs.
  destruct (quietEvent e) eqn:Q.
  - pose proof (step_quiet audioContext w e Q Hs) as A.
    destruct e; try discriminate Q; cbn [released]; rewrite app_nil_r;
      exact (A F_stopped eq_refl).
  - destruct e; try discriminate Q; cbn [released].
    + (* SetProps *)
      unfold step. rewrite flush_stopped_eq.
      set (h := handle audioContext w (SetProps s r)).
      assert (E1 : stopped h = stopped w) by (subst h; handle_frame F_stopped).
      assert (E2 : committed h = committed w) by (subst h; handle_frame F_committed).
      assert (E3 : localStream h = localStream w) by (subst h; handle_frame F_localStream).
      assert (E4 : mounted h = mounted w) by (subst h; handle_frame F_mounted).
      rewrite E1, E2, E3, E4. f_equal.
      destruct Hs as [M|C]; [rewrite M; reflexivity|].
      rewrite C. cbn [localDepsChanged]. rewrite opt_eqb_refl, andb_false_r. reflexivity.
    + (* Unmount *)
      destruct (mounted w) eqn:M.
      * destruct (unmount_effect audioContext w M) as (_ & _ & _ & _ & E).
        rewrite E. destruct Hs as [M'|C]; [congruence|]. rewrite C.
        destruct (localStream w); reflexivity.
      * rewrite step_unmounted; cbn [handle]; rewrite M; [|exact M].
        symmetry. apply app_nil_r.
    + (* GumResolve *)
      unfold step. rewrite flush_stopped_eq.
      set (h := handle audioContext w (GumResolve id s)).
      assert (E1 : stopped h = stopped w) by (subst h; handle_frame F_stopped).
      assert (E2 : committed h = committed w) by (subst h; handle_frame F_committed).
      assert (E4 : mounted h = mounted w) by (subst h; handle_frame F_mounted).
      assert (E3 : localStream h
                   = if mounted w && existsb (Nat.eqb id) (pendingGum w)
                     then Some s else localStream w).
      { subst h. cbn [handle]. unfold take_gum.
        destruct (existsb (Nat.eqb id) (pendingGum w));
          [|rewrite andb_false_r; reflexivity].
        rewrite granted_localStream_eq, andb_true_r. reflexivity. }
      rewrite E1, E2, E3, E4. f_equal.
      destruct Hs as [M|C]; [rewrite M; reflexivity|].
      rewrite C. cbn [localDepsChanged local_of].
      destruct (mounted w); cbn [andb]; [|reflexivity].
      destruct (existsb (Nat.eqb id) (pendingGum w)); cbn [andb]; [reflexivity|].
      rewrite opt_eqb_refl. reflexivity.
    + (* RetryClick *)
      rewrite app_nil_r.
      exact (step_retry_fp audioContext w Hs F_stopped eq_refl).
Qed.

Lemma held_step x w e :
  settled w -> held_or_stopped x w -> held_or_stopped x (step audioContext w e).
Proof.
  intros Hs [[M L]|H]; unfold held_or_stopped;
    rewrite (step_stopped_eq w e Hs), step_mounted_eq, step_localStream_eq.
  - destruct e; cbn [released]; rewrite ?M, ?L;
      try (left; split; reflexivity).
    + right. apply in_or_app. right. cbn. auto.
    + cbn [andb]. destruct (existsb (Nat.eqb id) (pendingGum w)); cbn [andb];
        [|left; split; reflexivity].
      cbn [opt_eqb]. destruct (Nat.eqb x s) eqn:E; cbn [negb].
      * apply Nat.eqb_eq in E. subst s. left. split; reflexivity.
      * right. apply in_or_app. right. cbn. auto.
  - right. apply in_or_app. auto.
Qed.

Lemma stored_held tracks s r tr x :
  localStream (run audioContext tracks s r tr) = Some x ->
  held_or_stopped x (run audioContext tracks s r tr).
Proof.
  revert x. induction tr as [|e tr IH] using rev_ind; intros x L.
  - unfold run in L. cbn [fold_left] in L. unfold mount in L.
    rewrite flush_localStream in L. discriminate.
  - unfold run in *. rewrite fold_left_app in *. cbn [fold_left] in *.
    fold (run audioContext tracks s r tr) in *.
    set (w := run audioContext tracks s r tr) in *.
    pose proof (settled_run audioContext tracks s r tr) as Hs. fold w in Hs.
    rewrite step_localStream_eq in L.
    assert (D : localStream w = Some x
                \/ (exists id, e = GumResolve id x)
                   /\ mounted w && true = true).
    { destruct e; auto.
      destruct (mounted w); cbn [andb] in *; auto.
      destruct (existsb (Nat.eqb id) (pendingGum w)); auto.
      injection L as <-. right. eauto. }
    destruct D as [D|[[id ->] M]].
    + apply held_step; auto.
    + rewrite andb_true_r in M. left. rewrite step_mounted_eq, step_localStream_eq.
      split; [exact M|]. rewrite M in *. cbn [andb] in *. exact L.
Qed.

Lemma handle_novideo w e :
  mounted w = false -> videoRef w = None ->
  videoRef (handle audioContext w e) = None.
Proof.
  intros M V.
  destruct e; try (rewrite <- V; handle_frame F_videoRef); cbn [handle]; rewrite ?M;
    try exact V.
  - (* GumResolve *)
    destruct (take_gum id w) as [w1|] eqn:T; [|exact V].
    apply take_gum_fp in T.
    unfold getLocalCamera_granted.
    set (w2 := setLocalStream (Some s) (log (LogGranted s) w1)).
    assert (V2 : videoRef w2 = None).
    { rewrite <- V, <- (T F_videoRef eq_refl : videoRef w1 = videoRef w).
      subst w2. fp_eq F_videoRef. }
    rewrite V2, <- V2. fp_eq F_videoRef.
  - (* Click *)
    generalize (clickListeners w). intro ls. revert w M V.
    induction ls as [|l ls IH]; intros w M V; [exact V|].
    unfold dispatch in *. cbn [fold_left]. apply IH.
    + unfold enableAudio. rewrite V. exact M.
    + unfold enableAudio. rewrite V. exact V.
  - (* Touch *)
    generalize (touchListeners w). intro ls. revert w M V.
    induction ls as [|l ls IH]; intros w M V; [exact V|].
    unfold dispatch in *. cbn [fold_left]. apply IH.
    + unfold enableAudio. rewrite V. exact M.
    + unfold enableAudio. rewrite V. exact V.
  - (* RetryClick *)
    unfold retryShown. rewrite M. exact V.
Qed.

Lemma detached_run tracks s r tr :
  let w := run audioContext tracks s r tr in
  mounted w = false -> videoRef w = None.
Proof.
  induction tr as [|e tr IH] using rev_ind; intros w M.
  - exfalso. revert M. subst w. unfold run. cbn [fold_left]. unfold mount.
    replace (mounted (flush audioContext (pristine tracks s r))) with true
      by (symmetry; transitivity (mounted (pristine tracks s r));
          [fp_eq F_mounted | reflexivity]).
    discriminate.
  - subst w. unfold run in *. rewrite fold_left_app in *. cbn [fold_left] in *.
    fold (run audioContext tracks s r tr) in *.
    set (w := run audioContext tracks s r tr) in *.
    rewrite step_mounted_eq in M.
    destruct (mounted w) eqn:Mw.
    + destruct e; try discriminate M.
      destruct (unmount_effect audioContext w Mw) as (_ & V & _). exact V.
    + assert (Mh : mounted (handle audioContext w e) = false).
      { destruct e; try (rewrite <- Mw; handle_frame F_mounted).
        cbn [handle]. rewrite Mw. exact Mw. }
      rewrite step_unmounted by exact Mh.
      apply handle_novideo; [exact Mw | apply IH; reflexivity].
Qed.

Lemma setup_counts s w :
  setupCalls (setupAudioAnalyser audioContext s w) = S (setupCalls w).
Proof.
  unfold setupAudioAnalyser. cbv zeta.
  destruct (audioContext (setupCalls w)) as [sp|]; [|reflexivity].
  destruct (Nat.eqb _ _); [reflexivity|].
  match goal with |- setupCalls (detectVolume _ _ ?y) = _ =>
    transitivity (setupCalls y); [fp_eq F_setupCalls | reflexivity]
  end.
Qed.

Lemma unmounted_stopped w tr :
  mounted w = false ->
  mounted (fold_left (step audioContext) tr w) = false
  /\ stopped (fold_left (step audioContext) tr w) = stopped w
  /\ localStream (fold_left (step audioContext) tr w) = localStream w.
Proof.
  revert w. induction tr as [|e tr IH]; intros w M; [auto|].
  cbn [fold_left].
  assert (M1 : mounted (step audioContext w e) = false).
  { rewrite step_mounted_eq. destruct e; auto. }
  destruct (IH _ M1) as (A & B & C). rewrite B, C.
  split; [exact A|]. split.
  - rewrite (step_stopped_eq w e (or_introl M)).
    destruct e; cbn [released]; rewrite ?M; cbn [andb]; apply app_nil_r.
  - rewrite step_localStream_eq. destruct e; try reflexivity.
    rewrite M. reflexivity.
Qed.

End Release.

(** X9.  The places where the component stops tracks.  In a running world an
    event stops the tracks of the stored local stream in two cases, and of
    nothing otherwise: when the component is unmounted, and when a camera
    request of the mounted component is granted a stream other than the one
    stored, through the cleanup of lines 224-230 that the new [localStream]
    triggers.  No other event, prop changes and retries included, stops a
    track. *)
Theorem tracks_stop_on_unmount_or_replacement
    (audioContext : nat -> option (list Z)) (tracks : nat -> nat)
    (s0 : option nat) (r0 : bool) (tr : list Event) (e : Event) :
  let w := run audioContext tracks s0 r0 tr in
  stopped (step audioContext w e)
  = stopped w
    ++ match e with
       | Unmount => if mounted w then opt_list (localStream w) else []
       | GumResolve id s =>
           if mounted w && existsb (Nat.eqb id) (pendingGum w)
              && negb (opt_eqb (localStream w) (Some s))
           then opt_list (localStream w) else []
       | _ => []
       end.
Proof.
  intro w.
  exact (step_stopped_eq audioContext w e (settled_run audioContext tracks s0 r0 tr)).
Qed.

(** X10.  Every stream the component has stored as its local stream is
    released: while the component is mounted it is still the stored stream
    or its tracks were stopped, and once the component is unmounted its
    tracks were stopped. *)
Theorem stored_streams_are_released
    (audioContext : nat -> option (list Z)) (tracks : nat -> nat)
    (s0 : option nat) (r0 : bool) (tr1 tr2 : list Event) (x : nat) :
  localStream (run audioContext tracks s0 r0 tr1) = Some x ->
  let w := run audioContext tracks s0 r0 (tr1 ++ tr2) in
  (mounted w = true -> localStream w = Some x \/ In x (stopped w))
  /\ (mounted w = false -> In x (stopped w)).
Proof.
  intros L w.
  assert (K : held_or_stopped x w).
  { subst w. induction tr2 as [|e tr2 IH] using rev_ind.
    - rewrite app_nil_r. apply stored_held, L.
    - rewrite app_assoc. unfold run in *. rewrite fold_left_app. cbn [fold_left].
      apply held_step; [|exact IH].
      exact (settled_run audioContext tracks s0 r0 (tr1 ++ tr2)). }
  destruct K as [[M E]|H]; split; auto; congruence.
Qed.

Lemma stored_streams_are_released_witness :
  let tr1 := [GumResolve 0 9] in
  let tr2 := [SetProps None true; SetProps None false; GumResolve 1 4; Unmount] in
  let w := run silentAudio oneTrack None false (tr1 ++ tr2) in
  localStream (run silentAudio oneTrack None false tr1) = Some 9
  /\ mounted w = false /\ In 9 (stopped w).
Proof.
  intros tr1 tr2 w.
  assert (L : localStream (run silentAudio oneTrack None false tr1) = Some 9)
    by (vm_compute; reflexivity).
  destruct (stored_streams_are_released silentAudio oneTrack None false tr1 tr2 9 L)
    as [_ H].
  assert (M : mounted w = false) by (vm_compute; reflexivity).
  split; [exact L|]. split; [exact M|]. exact (H M).
Defined.

(** X11.  After unmount the component stops no track any more.  A camera
    request still pending at unmount and granted afterwards is therefore
    never released: the stream is not stored ([setLocalStream] has no
    component to update), [setupAudioAnalyser] is still called on it and,
    where an analyser can be built on it, starts one more session; and
    whatever follows, the set of stopped streams stays as it was. *)
Theorem late_grant_is_never_released
    (audioContext : nat -> option (list Z)) (tracks : nat -> nat)
    (s0 : option nat) (r0 : bool) (tr : list Event) (id s : nat) :
  let w := run audioContext tracks s0 r0 tr in
  mounted w = false ->
  existsb (Nat.eqb id) (pendingGum w) = true ->
  let w1 := step audioContext w (GumResolve id s) in
  localStream w1 = localStream w
  /\ setupCalls w1 = S (setupCalls w)
  /\ (forall sp, audioContext (setupCalls w) = Some sp -> audioTracks w s <> 0 ->
        map sess_stream (sessions w1) = map sess_stream (sessions w) ++ [s])
  /\ (forall tr', stopped (fold_left (step audioContext) tr' w1) = stopped w).
Proof.
  intros w M P w1.
  pose proof (detached_run audioContext tracks s0 r0 tr M) as V. fold w in V.
  pose proof (timer_inv_run audioContext tracks s0 r0 tr) as Inv. fold w in Inv.
  assert (Hh : handle audioContext w (GumResolve id s)
               = getLocalCamera_finish audioContext s
                   (log (LogGranted s)
                      (with_pendingGum
                         (filter (fun x => negb (Nat.eqb x id)) (pendingGum w)) w))).
  { cbn [handle]. unfold take_gum. rewrite P. unfold getLocalCamera_granted.
    unfold setLocalStream. cbn [mounted log with_console with_pendingGum].
    rewrite M. cbn [videoRef with_console with_pendingGum log]. rewrite V. reflexivity. }
  assert (M1 : mounted (handle audioContext w (GumResolve id s)) = false)
    by (rewrite <- M; handle_frame F_mounted).
  assert (E1 : w1 = handle audioContext w (GumResolve id s))
    by (apply step_unmounted, M1).
  set (y := log (LogGranted s)
              (with_pendingGum
                 (filter (fun x => negb (Nat.eqb x id)) (pendingGum w)) w)) in *.
  split; [|split; [|split]].
  - subst w1. rewrite step_localStream_eq, M. reflexivity.
  - rewrite E1, Hh. unfold getLocalCamera_finish.
    transitivity (setupCalls (setupAudioAnalyser audioContext s y));
      [fp_eq F_setupCalls | rewrite setup_counts; reflexivity].
  - intros sp Hc Ht. rewrite E1, Hh.
    assert (Iy : timer_inv y).
    { refine (timer_inv_agree _ _ _ _ _ Inv);
        [subst y; fp_chain | vm_compute; reflexivity]. }
    rewrite (finish_streams audioContext s y sp Iy Hc Ht). reflexivity.
  - intro tr'.
    assert (M1' : mounted w1 = false) by (rewrite E1; exact M1).
    destruct (unmounted_stopped audioContext w1 tr' M1') as (_ & B & _).
    rewrite B, E1. handle_frame F_stopped.
Qed.

Lemma late_grant_is_never_released_witness :
  let w := run silentAudio oneTrack None false [Unmount] in
  let w1 := step silentAudio w (GumResolve 0 9) in
  mounted w = false
  /\ map sess_stream (sessions w1) = [9]
  /\ stopped (fold_left (step silentAudio) [Frame 0 (flat 30); Unmount] w1) = [].
Proof.
  intros w w1.
  assert (M : mounted w = false) by (vm_compute; reflexivity).
  assert (P : existsb (Nat.eqb 0) (pendingGum w) = true) by (vm_compute; reflexivity).
  destruct (late_grant_is_never_released silentAudio oneTrack None false [Unmount] 0 9 M P)
    as (_ & _ & S & St).
  split; [exact M|]. split.
  - exact (S [] eq_refl ltac:(vm_compute; discriminate)).
  - exact (St [Frame 0 (flat 30); Unmount]).
Defined.

(** ** The self-acquired stream and the video element *)

Lemma self_agree fs w w' :
  agree fs w w' ->
  forallb (fun f => negb (inb f fs)) selfCells = true ->
  self_core w -> self_core w'.
Proof.
  intros A Hfs. cbn in Hfs.
  repeat (apply andb_prop in Hfs; destruct Hfs as [?%negb_true_iff Hfs]).
  pose proof (A F_stream ltac:(assumption)) as E1.
  pose proof (A F_isRemote ltac:(assumption)) as E2.
  pose proof (A F_pendingPlay ltac:(assumption)) as E3.
  pose proof (A F_clickListeners ltac:(assumption)) as E4.
  pose proof (A F_touchListeners ltac:(assumption)) as E5.
  pose proof (A F_videoRef ltac:(assumption)) as E6.
  pose proof (A F_mounted ltac:(assumption)) as E7.
  pose proof (A F_committed ltac:(assumption)) as E8.
  pose proof (A F_pendingGum ltac:(assumption)) as E9.
  pose proof (A F_isLoading ltac:(assumption)) as E10.
  cbn [get ftype] in *. unfold self_core.
  rewrite E1, E2, E3, E4, E5, E6, E7, E8, E9, E10. exact (fun H => H).
Qed.

Lemma filter_single id (l : list nat) :
  List.length l <= 1 -> existsb (Nat.eqb id) l = true ->
  filter (fun x => negb (Nat.eqb x id)) l = [].
Proof.
  destruct l as [|a [|b l]]; cbn; try discriminate; [|lia].
  intros _ H. rewrite orb_false_r in H. apply Nat.eqb_eq in H. subst a.
  rewrite Nat.eqb_refl. reflexivity.
Qed.

Section SelfAcquired.

Variable audioContext : nat -> option (list Z).

Lemma self_flush h : self_core h -> self_inv (flush audioContext h).
Proof.
  intros C. pose proof C as (S & R & PP & CL & TL & V & MV & CM & LG & PL).
  unfold flush. destruct (mounted h) eqn:M.
  2:{ split; [exact C|]. intros _. apply MV. reflexivity. }
  destruct CM as [CM|[l CM]]; [congruence|].
  set (x := commitRef h).
  assert (D : streamDepsChanged (committed x) (stream x, localStream x, isRemote x) = false).
  { replace (committed x) with (committed h) by reflexivity.
    replace (stream x) with (stream h) by reflexivity.
    replace (isRemote x) with (isRemote h) by reflexivity.
    rewrite CM, S, R. reflexivity. }
  pose proof (runEffects_idle_fp audioContext x (or_introl D)) as A.
  set (y := runEffects audioContext x) in *.
  assert (Vx : videoRef x = None \/ videoRef x = Some newVideo).
  { subst x. unfold commitRef. cbn [videoRef with_videoRef].
    destruct (videoShown h); [|auto]. destruct V as [-> | ->]; auto. }
  assert (Vy : videoRef y = videoRef x) by exact (A F_videoRef eq_refl).
  assert (Ly : isLoading y = isLoading h) by exact (A F_isLoading eq_refl).
  assert (Gy : pendingGum y = pendingGum h) by exact (A F_pendingGum eq_refl).
  assert (My : mounted y = true) by (rewrite <- M; exact (A F_mounted eq_refl)).
  assert (Cy : committed y = Some (stream x, localStream x, isRemote x)).
  { subst y. unfold runEffects. reflexivity. }
  assert (Vz : videoRef (commitRef y) = None \/ videoRef (commitRef y) = Some newVideo).
  { unfold commitRef. cbn [videoRef with_videoRef].
    destruct (videoShown y); [|auto]. rewrite Vy. destruct Vx as [-> | ->]; auto. }
  split; [|].
  - unfold self_core.
    replace (stream (commitRef y)) with (stream h) by (symmetry; exact (A F_stream eq_refl)).
    replace (isRemote (commitRef y)) with (isRemote h)
      by (symmetry; exact (A F_isRemote eq_refl)).
    replace (pendingPlay (commitRef y)) with (pendingPlay h)
      by (symmetry; exact (A F_pendingPlay eq_refl)).
    replace (clickListeners (commitRef y)) with (clickListeners h)
      by (symmetry; exact (A F_clickListeners eq_refl)).
    replace (touchListeners (commitRef y)) with (touchListeners h)
      by (symmetry; exact (A F_touchListeners eq_refl)).
    replace (mounted (commitRef y)) with (mounted y) by reflexivity.
    replace (committed (commitRef y)) with (committed y) by reflexivity.
    replace (pendingGum (commitRef y)) with (pendingGum y) by reflexivity.
    replace (isLoading (commitRef y)) with (isLoading y) by reflexivity.
    rewrite My, Cy, Gy, Ly.
    repeat split; try assumption; try (intro; discriminate).
    right. replace (stream x) with (stream h) by reflexivity.
    replace (isRemote x) with (isRemote h) by reflexivity.
    rewrite S, R. eauto.
  - replace (pendingGum (commitRef y)) with (pendingGum y) by reflexivity.
    rewrite Gy. intro G. apply commitRef_loading. rewrite Ly. apply PL; [exact G | reflexivity].
Qed.

Lemma self_request w :
  self_core w -> mounted w = true -> pendingGum w = [] ->
  self_core (getLocalCamera w).
Proof.
  intros (S & R & PP & CL & TL & V & MV & CM & LG & PL) M G.
  unfold getLocalCamera, getUserMedia, setError, setIsLoading.
  cbn [mounted with_isLoading with_error log with_console]. rewrite M.
  cbn [mounted with_isLoading with_error log with_console]. rewrite M.
  unfold self_core. cbn. rewrite G. cbn.
  repeat split; try assumption; auto.
Qed.

Lemma self_handle w e :
  keepsProps e = true -> self_inv w -> self_core (handle audioContext w e).
Proof.
  intros Q [C P]. pose proof C as (S & R & PP & CL & TL & V & MV & CM & LG & PL).
  destruct e; try discriminate Q; cbn [handle].
  - (* Unmount *)
    destruct (mounted w) eqn:M; [|exact C].
    unfold self_core, unmount. cbn.
    replace (pendingGum (stopCleanup (committed w) (trackCleanup (committed w) w)))
      with (pendingGum w) by (symmetry; fp_eq F_pendingGum).
    replace (stream (stopCleanup (committed w) (trackCleanup (committed w) w)))
      with (stream w) by (symmetry; fp_eq F_stream).
    replace (isRemote (stopCleanup (committed w) (trackCleanup (committed w) w)))
      with (isRemote w) by (symmetry; fp_eq F_isRemote).
    replace (pendingPlay (stopCleanup (committed w) (trackCleanup (committed w) w)))
      with (pendingPlay w) by (symmetry; fp_eq F_pendingPlay).
    replace (clickListeners (stopCleanup (committed w) (trackCleanup (committed w) w)))
      with (clickListeners w) by (symmetry; fp_eq F_clickListeners).
    replace (touchListeners (stopCleanup (committed w) (trackCleanup (committed w) w)))
      with (touchListeners w) by (symmetry; fp_eq F_touchListeners).
    repeat split; try assumption; auto; try (intros _ H; discriminate H).
  - (* GumResolve *)
    unfold take_gum. destruct (existsb (Nat.eqb id) (pendingGum w)) eqn:E; [|exact C].
    assert (G : pendingGum w <> []) by (intro G; rewrite G in E; discriminate).
    specialize (P G).
    set (w1 := with_pendingGum _ w).
    assert (G1 : pendingGum w1 = []) by (apply filter_single; assumption).
    unfold getLocalCamera_granted.
    set (w2 := setLocalStream (Some s) (log (LogGranted s) w1)).
    assert (V2 : videoRef w2 = None) by (rewrite <- P; subst w2 w1; fp_eq F_videoRef).
    rewrite V2.
    assert (C2 : self_core w2).
    { unfold self_core.
      replace (stream w2) with (stream w) by (symmetry; subst w2 w1; fp_eq F_stream).
      replace (isRemote w2) with (isRemote w) by (symmetry; subst w2 w1; fp_eq F_isRemote).
      replace (pendingPlay w2) with (pendingPlay w)
        by (symmetry; subst w2 w1; fp_eq F_pendingPlay).
      replace (clickListeners w2) with (clickListeners w)
        by (symmetry; subst w2 w1; fp_eq F_clickListeners).
      replace (touchListeners w2) with (touchListeners w)
        by (symmetry; subst w2 w1; fp_eq F_touchListeners).
      replace (mounted w2) with (mounted w) by (symmetry; subst w2 w1; fp_eq F_mounted).
      replace (committed w2) with (committed w)
        by (symmetry; subst w2 w1; fp_eq F_committed).
      replace (pendingGum w2) with (pendingGum w1)
        by (symmetry; subst w2; fp_eq F_pendingGum).
      rewrite V2, G1. cbn [List.length].
      repeat split; try assumption; auto;
      try (intro H; contradiction H; reflexivity). }
    assert (G2 : pendingGum w2 = []) by (rewrite <- G1; subst w2; fp_eq F_pendingGum).
    clearbody w2. clear - C2 G2.
    destruct C2 as (S & R & PP & CL & TL & V & MV & CM & LG & PL).
    unfold getLocalCamera_finish.
    set (z := setIsLoading false (setupAudioAnalyser audioContext s w2)).
    assert (A : agree (F_isLoading :: audioFP) w2 z) by (subst z; footprint).
    unfold self_core.
    use_frame A F_stream. use_frame A F_isRemote. use_frame A F_pendingPlay.
    use_frame A F_clickListeners. use_frame A F_touchListeners.
    use_frame A F_videoRef. use_frame A F_mounted. use_frame A F_committed.
    use_frame A F_pendingGum. rewrite G2.
    repeat split; try assumption; auto;
      try (intro H; contradiction H; reflexivity).
  - (* GumReject *)
    unfold take_gum. destruct (existsb (Nat.eqb id) (pendingGum w)) eqn:E; [|exact C].
    set (w1 := with_pendingGum _ w).
    assert (G1 : pendingGum w1 = []) by (apply filter_single; assumption).
    set (z := getLocalCamera_denied msg w1).
    assert (A : agree [F_pendingGum; F_isLoading; F_error; F_console] w z)
      by (subst z w1; footprint).
    assert (Gz : pendingGum z = []) by (rewrite <- G1; subst z; fp_eq F_pendingGum).
    unfold self_core.
    use_frame A F_stream. use_frame A F_isRemote. use_frame A F_pendingPlay.
    use_frame A F_clickListeners. use_frame A F_touchListeners.
    use_frame A F_videoRef. use_frame A F_mounted. use_frame A F_committed.
    rewrite Gz.
    repeat split; try assumption; auto;
      try (intro H; contradiction H; reflexivity).
  - (* PlayResolve *) unfold take_play. rewrite PP. exact C.
  - (* PlayReject *) unfold take_play. rewrite PP. exact C.
  - (* Click *) rewrite CL. exact C.
  - (* Touch *) rewrite TL. exact C.
  - (* RetryClick *)
    destruct (retryShown w) eqn:Sh; [|exact C]. cbv zeta.
    unfold retryShown in Sh.
    apply andb_prop in Sh. destruct Sh as [Sh _].
    apply andb_prop in Sh. destruct Sh as [M L]. apply negb_true_iff in L.
    assert (G : pendingGum w = []).
    { destruct (pendingGum w) eqn:G; [reflexivity|].
      rewrite PL in L; [discriminate | discriminate | exact M]. }
    destruct (self_flush _ (self_request w C M G)) as [C1 _].
    set (x := flush audioContext (getLocalCamera w)) in *.
    destruct C1 as (S1 & R1 & PP1 & CL1 & TL1 & V1 & MV1 & CM1 & LG1 & PL1).
    rewrite CL1. cbn [dispatch fold_left].
    repeat split; assumption.
  - (* Frame *)
    revert C. refine (self_agree _ _ _ (detectVolume_fp sid spectrum w) _).
    vm_compute; reflexivity.
  - (* TimerFire *)
    revert C.
    refine (self_agree _ _ _ (handle_fp audioContext w (TimerFire t)) _).
    vm_compute; reflexivity.
  - (* Elapse *)
    revert C. refine (self_agree _ _ _ (with_now_fp _ w) _). vm_compute; reflexivity.
  - (* TrackChange *)
    revert C.
    refine (self_agree _ _ _ (handle_fp audioContext w (TrackChange s audio)) _).
    vm_compute; reflexivity.
Qed.

Lemma self_run tracks tr :
  forallb keepsProps tr = true ->
  self_inv (run audioContext tracks None false tr).
Proof.
  unfold run. induction tr as [|e tr IH] using rev_ind; intro Q.
  - cbn [fold_left]. unfold mount.
    assert (E : flush audioContext (pristine tracks None false)
                = commitRef (runEffects audioContext (pristine tracks None false)))
      by reflexivity.
    rewrite E. unfold self_inv, self_core. cbn.
    repeat split; auto; try (right; eauto; fail).
  - rewrite forallb_app in Q. apply andb_prop in Q. destruct Q as [Q1 Q2].
    cbn in Q2. rewrite andb_true_r in Q2.
    rewrite fold_left_app. cbn [fold_left]. unfold step.
    apply self_flush, self_handle; [exact Q2 | exact (IH Q1)].
Qed.

End SelfAcquired.

(** X12.  An instance without supplied stream that shows the user's own
    camera never attaches the stream it acquires: the request is granted
    while the spinner is rendered, so line 99 finds no video element, and when
    the element is mounted by the next render the stream effect does not run,
    its dependencies being unchanged.  As long as the props stay as they are,
    the video element, when there is one, has no [srcObject], no [play()] is
    ever requested and no unlock listener is armed; at most one camera
    request is pending, and none while the video element is mounted. *)
Theorem self_acquired_stream_is_never_attached
    (audioContext : nat -> option (list Z)) (tracks : nat -> nat)
    (tr : list Event) :
  forallb keepsProps tr = true ->
  let w := run audioContext tracks None false tr in
  (forall v, videoRef w = Some v -> srcObject v = None)
  /\ pendingPlay w = []
  /\ clickListeners w = []
  /\ List.length (pendingGum w) <= 1
  /\ (pendingGum w <> [] -> videoRef w = None).
Proof.
  intros Q w.
  destruct (self_run audioContext tracks tr Q)
    as [(S & R & PP & CL & TL & V & MV & CM & LG & PL) P].
  fold w in PP, CL, V, LG, P.
  split; [|auto].
  intros v Hv. destruct V as [V|V]; rewrite V in Hv; [discriminate|].
  injection Hv as <-. reflexivity.
Qed.

Lemma self_acquired_stream_is_never_attached_witness :
  let tr := [GumResolve 0 9; Frame 0 (flat 40); Click] in
  let w := run silentAudio oneTrack None false tr in
  forallb keepsProps tr = true
  /\ localStream w = Some 9 /\ presentation w = Playing
  /\ option_map srcObject (videoRef w) = Some None /\ pendingPlay w = [].
Proof.
  intros tr w.
  assert (Q : forallb keepsProps tr = true) by (vm_compute; reflexivity).
  destruct (self_acquired_stream_is_never_attached silentAudio oneTrack tr Q)
    as (_ & PP & _).
  split; [exact Q|]. split; [vm_compute; reflexivity|].
  split; [vm_compute; reflexivity|]. split; [vm_compute; reflexivity | exact PP].
Defined.

(** ** The [muted] property of the video element *)

Lemma unmuted_agree fs w w' :
  agree fs w w' -> inb F_videoRef fs = false -> unmuted_inv w -> unmuted_inv w'.
Proof.
  intros A Hfs U v Hv. apply U. rewrite <- Hv. symmetry. exact (A F_videoRef Hfs).
Qed.

Ltac unmuted_frame :=
  match goal with
  | |- unmuted_inv _ -> unmuted_inv _ =>
      refine (unmuted_agree _ _ _ _ _); [ fp_chain | vm_compute; reflexivity ]
  | H : unmuted_inv ?w |- unmuted_inv _ =>
      revert H; refine (unmuted_agree _ _ _ _ _); [ fp_chain | vm_compute; reflexivity ]
  end.

Lemma unmuted_commitRef w : unmuted_inv w -> unmuted_inv (commitRef w).
Proof.
  intros U v. unfold commitRef. cbn [videoRef with_videoRef].
  destruct (videoShown w); [|discriminate].
  destruct (videoRef w) as [v0|] eqn:V0; intro Hv; injection Hv as <-.
  - apply U. exact V0.
  - split; reflexivity.
Qed.

Lemma unmuted_attach w v0 s :
  unmuted_inv w -> videoRef w = Some v0 ->
  unmuted_inv (with_videoRef (Some (mkVideo (Some s) (muted v0) (volume v0))) w).
Proof.
  intros U V0 v Hv. cbn in Hv. injection Hv as <-. cbn. apply U, V0.
Qed.

Lemma unmuted_streamEffect w : unmuted_inv w -> unmuted_inv (streamEffect w).
Proof.
  intro U. unfold streamEffect.
  destruct (stream w) as [s|]; [destruct (videoRef w) as [v0|] eqn:V0|].
  - assert (U1 : unmuted_inv (log (LogSettingUp (isRemote w) s) w)) by unmuted_frame.
    pose proof (unmuted_attach _ v0 s U1 V0) as U2.
    revert U2. refine (unmuted_agree _ _ _ (play_fp _ _) _). reflexivity.
  - exact U.
  - destruct (negb (isRemote w)); unmuted_frame.
Qed.

Lemma unmuted_enableAudio l w : unmuted_inv w -> unmuted_inv (enableAudio l w).
Proof.
  intros U v. unfold enableAudio. cbv zeta.
  destruct (videoRef w) as [v0|] eqn:V0; cbn; rewrite ?V0.
  - intro Hv. injection Hv as <-. split; reflexivity.
  - discriminate.
Qed.

Lemma unmuted_dispatch ls w : unmuted_inv w -> unmuted_inv (dispatch ls w).
Proof.
  unfold dispatch. revert w. induction ls as [|l ls IH]; intros w U; [exact U|].
  cbn [fold_left]. apply IH, unmuted_enableAudio, U.
Qed.

Section Unmuted.

Variable audioContext : nat -> option (list Z).

Lemma unmuted_runEffects w : unmuted_inv w -> unmuted_inv (runEffects audioContext w).
Proof.
  intro U. unfold runEffects. cbv zeta.
  set (w1 := if allDepsChanged _ _ then trackCleanup (committed w) w else w).
  assert (U1 : unmuted_inv w1)
    by (subst w1; destruct (allDepsChanged _ _); [unmuted_frame | exact U]).
  set (w2 := if localDepsChanged _ _ then stopCleanup (committed w) w1 else w1).
  assert (U2 : unmuted_inv w2)
    by (subst w2; destruct (localDepsChanged _ _); [unmuted_frame | exact U1]).
  set (w3 := if streamDepsChanged _ _ then streamEffect w2 else w2).
  assert (U3 : unmuted_inv w3)
    by (subst w3; destruct (streamDepsChanged _ _);
        [apply unmuted_streamEffect|]; exact U2).
  set (w4 := if allDepsChanged _ _ then trackEffect w3 else w3).
  assert (U4 : unmuted_inv w4)
    by (subst w4; destruct (allDepsChanged _ _); [unmuted_frame | exact U3]).
  set (w5 := if allDepsChanged _ _ then audioEffect audioContext w4 else w4).
  assert (U5 : unmuted_inv w5)
    by (subst w5; destruct (allDepsChanged _ _); [unmuted_frame | exact U4]).
  clearbody w5. unmuted_frame.
Qed.

Lemma unmuted_flush w : unmuted_inv w -> unmuted_inv (flush audioContext w).
Proof.
  intro U. unfold flush. destruct (mounted w); [|exact U].
  apply unmuted_commitRef, unmuted_runEffects, unmuted_commitRef, U.
Qed.

Lemma unmuted_handle w e : unmuted_inv w -> unmuted_inv (handle audioContext w e).
Proof.
  intro U.
  destruct e;
    try (revert U; refine (unmuted_agree _ _ _ (handle_fp audioContext w _) _);
         reflexivity);
    cbn [handle].
  - (* Unmount *)
    destruct (mounted w); [|exact U]. intros v Hv. discriminate Hv.
  - (* GumResolve *)
    destruct (take_gum id w) as [w1|] eqn:T; [|exact U].
    assert (U1 : unmuted_inv w1).
    { revert U. refine (unmuted_agree _ _ _ (take_gum_fp _ _ _ T) _). reflexivity. }
    unfold getLocalCamera_granted.
    set (w2 := setLocalStream (Some s) (log (LogGranted s) w1)).
    assert (U2 : unmuted_inv w2) by (subst w2; unmuted_frame).
    clearbody w2. destruct (videoRef w2) as [v0|] eqn:V0.
    + pose proof (unmuted_attach _ v0 s U2 V0) as U3.
      revert U3. refine (unmuted_agree _ _ _ (play_fp _ _) _). reflexivity.
    + unmuted_frame.
  - apply unmuted_dispatch, U.
  - apply unmuted_dispatch, U.
  - (* RetryClick *)
    destruct (retryShown w); [|exact U]. cbv zeta.
    apply unmuted_dispatch, unmuted_flush. unmuted_frame.
Qed.

Lemma unmuted_run tracks s r tr : unmuted_inv (run audioContext tracks s r tr).
Proof.
  unfold run. induction tr as [|e tr IH] using rev_ind.
  - apply unmuted_flush. intros v Hv. discriminate Hv.
  - rewrite fold_left_app. cbn [fold_left]. unfold step.
    apply unmuted_flush, unmuted_handle, IH.
Qed.

End Unmuted.

(** X13.  The component never mutes its video element.  [isMuted] keeps its
    initial value, so the element is rendered with [muted] false for remote
    and local instances alike, and the only assignments to [muted] and
    [volume], those of [enableAudio] at lines 51-52, write the values the
    element already has: in every running world the video element, when there
    is one, is unmuted and at full volume, and a dispatched click or touch
    changes neither. *)
Theorem video_is_never_muted
    (audioContext : nat -> option (list Z)) (tracks : nat -> nat)
    (s : option nat) (r : bool) (tr : list Event) :
  let w := run audioContext tracks s r tr in
  (forall v, videoRef w = Some v -> muted v = false /\ volume v = 1%Q)
  /\ (forall e v v', e = Click \/ e = Touch ->
        videoRef w = Some v -> videoRef (step audioContext w e) = Some v' ->
        muted v' = muted v /\ volume v' = volume v).
Proof.
  intro w. split.
  - exact (unmuted_run audioContext tracks s r tr).
  - intros e v v' He Hv Hv'.
    destruct (unmuted_run audioContext tracks s r tr v Hv) as [-> ->].
    assert (U : unmuted_inv (step audioContext w e)).
    { unfold step. apply unmuted_flush, unmuted_handle.
      exact (unmuted_run audioContext tracks s r tr). }
    destruct (U v' Hv') as [-> ->]. split; reflexivity.
Qed.

(** ** The rendered view *)

Lemma render_video w m wv :
  render w = VideoView m wv ->
  videoShown w = true /\ m = false /\ wv = renderWaves w.
Proof.
  unfold render, videoShown.
  destruct (isLoading w); [discriminate|].
  destruct (truthy (error w)); [discriminate|].
  destruct (isSome (currentStream (stream w) (localStream w))); [|discriminate].
  intro H. injection H as <- <-. split; [reflexivity|]. split; [|reflexivity].
  destruct (isRemote w); reflexivity.
Qed.

Lemma videoShown_render w :
  videoShown w = true -> render w = VideoView false (renderWaves w).
Proof.
  unfold render, videoShown. intro H.
  apply andb_prop in H. destruct H as [H H3].
  apply andb_prop in H. destruct H as [H1 H2].
  apply negb_true_iff in H1. apply negb_true_iff in H2.
  rewrite H1, H2, H3. destruct (isRemote w); reflexivity.
Qed.

(** X14.  In a running world of a mounted component the video element is
    mounted exactly when the render takes its third branch, and it is then
    rendered unmuted.  The wave bars of [renderWaves] are part of the view
    only next to the video element, only on a non-remote instance and only
    while [isSpeaking] holds, which needs an analysis session; they are five
    bars. *)
Theorem waves_accompany_a_local_video
    (audioContext : nat -> option (list Z)) (tracks : nat -> nat)
    (s : option nat) (r : bool) (tr : list Event) :
  let w := run audioContext tracks s r tr in
  mounted w = true ->
  (isSome (videoRef w) = true <-> render w = VideoView false (renderWaves w))
  /\ (forall m wv, render w = VideoView m wv ->
        m = false /\ isSome (videoRef w) = true
        /\ (wv = None \/ wv = Some 5)
        /\ (wv <> None ->
            isRemote w = false /\ isSpeaking w = true /\ sessions w <> []))
  /\ (forall text, render w = Spinner text \/ render w = Placeholder text
        \/ render w = ErrorPanel text -> videoRef w = None).
Proof.
  intros w M.
  pose proof (at_rest_run audioContext tracks s r tr) as R. fold w in R.
  pose proof (speaking_inv_run audioContext tracks s r tr) as Sp. fold w in Sp.
  assert (V1 : videoShown w = true -> isSome (videoRef w) = true).
  { intro Sh. destruct (videoRef w) eqn:V; [reflexivity|].
    rewrite (at_rest_novideo audioContext w R M V) in Sh. discriminate. }
  assert (V2 : isSome (videoRef w) = true -> videoShown w = true).
  { destruct (videoRef w) as [v|] eqn:V; [|discriminate].
    intros _. exact (at_rest_video audioContext w v R M V). }
  split; [|split].
  - split.
    + intro H. apply videoShown_render, V2, H.
    + intro H. apply render_video in H. apply V1, H.
  - intros m wv H. apply render_video in H. destruct H as (Sh & -> & ->).
    split; [reflexivity|]. split; [apply V1, Sh|].
    unfold renderWaves.
    destruct (isSpeaking w) eqn:S, (isRemote w) eqn:Rm; cbn; split; auto;
      try (intro H; contradiction H; reflexivity).
  - intros text H.
    destruct (videoRef w) as [v|] eqn:V; [|reflexivity].
    pose proof (videoShown_render w (at_rest_video audioContext w v R M V)) as E.
    rewrite E in H. destruct H as [H|[H|H]]; discriminate H.
Qed.

Lemma waves_accompany_a_local_video_witness :
  let w := run silentAudio oneTrack None false [GumResolve 0 9; Frame 0 (flat 40)] in
  mounted w = true
  /\ render w = VideoView false (Some 5)
  /\ isSome (videoRef w) = true.
Proof.
  intro w.
  assert (M : mounted w = true) by (vm_compute; reflexivity).
  destruct (waves_accompany_a_local_video silentAudio oneTrack None false
              [GumResolve 0 9; Frame 0 (flat 40)] M) as (_ & H & _).
  assert (E : render w = VideoView false (Some 5)) by (vm_compute; reflexivity).
  destruct (H false (Some 5) E) as (_ & V & _).
  split; [exact M|]. split; [exact E | exact V].
Defined.

(** ** A change of the props *)

Section PropChange.

Variable audioContext : nat -> option (list Z).

(** The render pass after a change of [stream] or [isRemote] in a settled
    world: every effect but the unmount cleanup runs. *)
Lemma flush_props_changed w s r :
  mounted w = true ->
  committed w = Some (stream w, localStream w, isRemote w) ->
  stream w <> s \/ isRemote w <> r ->
  let x := commitRef (with_isRemote r (with_stream s w)) in
  step audioContext w (SetProps s r)
  = commitRef
      (with_committed (Some (s, localStream w, r))
         (audioEffect audioContext
            (trackEffect (streamEffect (trackCleanup (committed w) x))))).
Proof.
  intros M C Hch x.
  assert (D : opt_eqb (stream w) s && Bool.eqb (isRemote w) r = false).
  { destruct (opt_eqb (stream w) s) eqn:E1; [|reflexivity].
    destruct (Bool.eqb (isRemote w) r) eqn:E2; [|reflexivity].
    apply opt_eqb_eq in E1. apply Bool.eqb_prop in E2. tauto. }
  unfold step. cbn [handle]. rewrite M. unfold flush.
  replace (mounted (with_isRemote r (with_stream s w))) with true by (symmetry; exact M).
  fold x. f_equal. unfold runEffects. cbv zeta.
  replace (committed x) with (committed w) by reflexivity.
  replace (stream x) with s by reflexivity.
  replace (isRemote x) with r by reflexivity.
  replace (localStream x) with (localStream w) by reflexivity.
  assert (F1 : streamDepsChanged (committed w) (s, localStream w, r) = true).
  { rewrite C. cbn [streamDepsChanged]. rewrite D. reflexivity. }
  assert (F2 : allDepsChanged (committed w) (s, localStream w, r) = true).
  { rewrite C. cbn [allDepsChanged]. rewrite opt_eqb_refl.
    destruct (opt_eqb (stream w) s); cbn in *; [rewrite D|]; reflexivity. }
  assert (F3 : localDepsChanged (committed w) (s, localStream w, r) = false).
  { rewrite C. cbn [localDepsChanged]. rewrite opt_eqb_refl. reflexivity. }
  rewrite F1, F2, F3. reflexivity.
Qed.

End PropChange.

(** X15.  What a change of [stream] or [isRemote] does to a mounted component
    in a running world.  A supplied stream is attached to the video element
    and played, with exactly one [play()] awaited by [playVideo], when the
    component is neither loading nor showing an error at that moment, the
    element being the one already mounted or the one this render mounts;
    otherwise there is no video element and the stream is neither attached
    nor played.  Without a supplied stream a non-remote instance requests
    the camera, whether or not it already holds a local stream, and shows the
    spinner, and a remote instance just leaves the loading state. *)
Theorem prop_change_runs_stream_effect
    (audioContext : nat -> option (list Z)) (tracks : nat -> nat)
    (s0 : option nat) (r0 : bool) (tr : list Event) (s : option nat) (r : bool) :
  let w := run audioContext tracks s0 r0 tr in
  mounted w = true ->
  stream w <> s \/ isRemote w <> r ->
  let w' := step audioContext w (SetProps s r) in
  let v0 := match videoRef w with Some v => v | None => newVideo end in
  match s with
  | Some a =>
      pendingGum w' = pendingGum w /\ isLoading w' = isLoading w
      /\ if negb (isLoading w) && negb (truthy (error w)) then
           videoRef w' = Some (mkVideo (Some a) (muted v0) (volume v0))
           /\ pendingPlay w' = pendingPlay w ++ [(nextReq w, PlayVideo r)]
         else videoRef w' = None /\ pendingPlay w' = pendingPlay w
  | None =>
      pendingPlay w' = pendingPlay w
      /\ if r then isLoading w' = false /\ pendingGum w' = pendingGum w
         else isLoading w' = true /\ error w' = None /\ videoRef w' = None
              /\ pendingGum w' = pendingGum w ++ [nextReq w]
  end.
Proof.
  intros w M Hch w' v0.
  pose proof (settled_run audioContext tracks s0 r0 tr) as Hs. fold w in Hs.
  destruct Hs as [Hs|C]; [congruence|].
  pose proof (flush_props_changed audioContext w s r M C Hch) as E.
  fold w' in E. cbv zeta in E.
  set (h := with_isRemote r (with_stream s w)) in *.
  set (x := commitRef h) in *.
  set (x1 := trackCleanup (committed w) x) in *.
  set (x3 := streamEffect x1) in *.
  set (y := with_committed (Some (s, localStream w, r))
              (audioEffect audioContext (trackEffect x3))) in *.
  assert (Vx : videoRef x1
               = if negb (isLoading w) && negb (truthy (error w))
                    && isSome (currentStream s (localStream w))
                 then Some v0 else None).
  { transitivity (videoRef x); [subst x1; fp_eq F_videoRef | reflexivity]. }
  assert (Sx : stream x1 = s) by (transitivity (stream x); [subst x1; fp_eq F_stream | reflexivity]).
  assert (Rx : isRemote x1 = r)
    by (transitivity (isRemote x); [subst x1; fp_eq F_isRemote | reflexivity]).
  assert (Mx : mounted x1 = true)
    by (rewrite <- M; transitivity (mounted x); [subst x1; fp_eq F_mounted | reflexivity]).
  assert (Lx : isLoading x1 = isLoading w)
    by (transitivity (isLoading x); [subst x1; fp_eq F_isLoading | reflexivity]).
  assert (Ex : error x1 = error w)
    by (transitivity (error x); [subst x1; fp_eq F_error | reflexivity]).
  assert (Px : pendingPlay x1 = pendingPlay w)
    by (transitivity (pendingPlay x); [subst x1; fp_eq F_pendingPlay | reflexivity]).
  assert (Gx : pendingGum x1 = pendingGum w)
    by (transitivity (pendingGum x); [subst x1; fp_eq F_pendingGum | reflexivity]).
  assert (Nx : nextReq x1 = nextReq w)
    by (transitivity (nextReq x); [subst x1; fp_eq F_nextReq | reflexivity]).
  assert (LSx : localStream x1 = localStream w)
    by (transitivity (localStream x); [subst x1; fp_eq F_localStream | reflexivity]).
  assert (Vy : videoRef y = videoRef x3) by (subst y; fp_eq F_videoRef).
  assert (Ly : isLoading y = isLoading x3) by (subst y; fp_eq F_isLoading).
  assert (Ey : error y = error x3) by (subst y; fp_eq F_error).
  assert (Sy : stream y = stream x3) by (subst y; fp_eq F_stream).
  assert (LSy : localStream y = localStream x3) by (subst y; fp_eq F_localStream).
  assert (Py : pendingPlay y = pendingPlay x3) by (subst y; fp_eq F_pendingPlay).
  assert (Gy : pendingGum y = pendingGum x3) by (subst y; fp_eq F_pendingGum).
  assert (V' : videoRef w'
               = if videoShown y
                 then Some (match videoRef y with Some v => v | None => newVideo end)
                 else None) by (rewrite E; reflexivity).
  assert (P' : pendingPlay w' = pendingPlay x3) by (rewrite E; exact Py).
  assert (G' : pendingGum w' = pendingGum x3) by (rewrite E; exact Gy).
  assert (L' : isLoading w' = isLoading x3) by (rewrite E; exact Ly).
  assert (E' : error w' = error x3) by (rewrite E; exact Ey).
  unfold videoShown in V'. rewrite Ly, Ey, Sy, LSy, Vy in V'.
  clearbody y w'. clear E Vy Ly Ey Sy LSy Py Gy.
  rewrite V', P', G', L', ?E'. clear V' P' G' L' E'.
  destruct s as [a|].
  - (* a stream is supplied *)
    cbn [currentStream isSome] in Vx. rewrite andb_true_r in Vx.
    destruct (negb (isLoading w) && negb (truthy (error w))) eqn:Sh.
    + assert (E3 : x3 = play (PlayVideo r)
                          (with_videoRef (Some (mkVideo (Some a) (muted v0) (volume v0)))
                             (log (LogSettingUp r a) x1))).
      { subst x3. unfold streamEffect. rewrite Sx, Vx, Rx. reflexivity. }
      rewrite E3. cbn. rewrite Gx, Lx, Ex, Px, Nx, Sx, Sh. cbn. auto.
    + assert (E3 : x3 = x1).
      { subst x3. unfold streamEffect. rewrite Sx, Vx. reflexivity. }
      rewrite E3, Gx, Lx, Ex, Px, Sh. cbn. auto.
  - (* no stream is supplied *)
    destruct r.
    + assert (E3 : x3 = setIsLoading false x1).
      { subst x3. unfold streamEffect. rewrite Sx, Rx. reflexivity. }
      rewrite E3. unfold setIsLoading. rewrite Mx. cbn. auto.
    + assert (E3 : x3 = getLocalCamera x1).
      { subst x3. unfold streamEffect. rewrite Sx, Rx. reflexivity. }
      rewrite E3. unfold getLocalCamera, getUserMedia, setError, setIsLoading.
      rewrite Mx. cbn [mounted with_isLoading]. rewrite Mx. cbn.
      rewrite Px, Gx, Nx. auto.
Qed.

Lemma prop_change_runs_stream_effect_witness :
  let w := run silentAudio oneTrack None true [] in
  let w' := step silentAudio w (SetProps (Some 3) true) in
  mounted w = true
  /\ videoRef w' = Some (mkVideo (Some 3) false 1%Q)
  /\ pendingPlay w' = [(0, PlayVideo true)].
Proof.
  intros w w'.
  assert (M : mounted w = true) by (vm_compute; reflexivity).
  assert (Hch : stream w <> Some 3 \/ isRemote w <> true)
    by (left; vm_compute; discriminate).
  pose proof (prop_change_runs_stream_effect silentAudio oneTrack None true []
                (Some 3) true M Hch) as H.
  cbv zeta in H. destruct H as (_ & _ & H).
  split; [exact M|]. exact H.
Defined.

(** ** The two analyser set-ups of one acquisition *)

Section TwoSetups.

Variable audioContext : nat -> option (list Z).

Lemma setup_streams s w sp :
  timer_inv w ->
  audioContext (setupCalls w) = Some sp -> audioTracks w s <> 0 ->
  map sess_stream (sessions (setupAudioAnalyser audioContext s w))
  = map sess_stream (sessions w) ++ [s].
Proof.
  intros Inv Hc Ht.
  rewrite <- (finish_streams audioContext s w sp Inv Hc Ht).
  unfold getLocalCamera_finish. f_equal. symmetry. fp_eq F_sessions.
Qed.

(** The render pass after a handler that stored a new local stream in a
    settled world: every effect but the stream effect runs. *)
Lemma runEffects_local_changed x ps pl pr :
  committed x = Some (ps, pl, pr) ->
  stream x = ps -> isRemote x = pr -> localStream x <> pl ->
  runEffects audioContext x
  = with_committed (Some (stream x, localStream x, isRemote x))
      (audioEffect audioContext
         (trackEffect
            (stopCleanup (committed x) (trackCleanup (committed x) x)))).
Proof.
  intros C S R L.
  assert (D : opt_eqb pl (localStream x) = false).
  { destruct (opt_eqb pl (localStream x)) eqn:E; [|reflexivity].
    apply opt_eqb_eq in E. congruence. }
  unfold runEffects. cbv zeta. rewrite C, S, R.
  cbn [allDepsChanged localDepsChanged streamDepsChanged].
  rewrite D, opt_eqb_refl, Bool.eqb_reflx, andb_false_r. reflexivity.
Qed.

End TwoSetups.

(** X16.  One acquisition starts two analyses of the same stream.  When the
    camera request of a non-remote instance without supplied stream is
    granted while the spinner is shown, [getLocalCamera] calls
    [setupAudioAnalyser] on the new stream at line 111, and the render that
    stores the stream runs the audio-level effect, which calls it again at
    line 149.  Where the platform builds both analysers, two sessions on that
    stream are added, each with its own [detectVolume] loop. *)
Theorem granted_stream_is_analysed_twice
    (audioContext : nat -> option (list Z)) (tracks : nat -> nat)
    (s0 : option nat) (r0 : bool) (tr : list Event)
    (id s : nat) (sp1 sp2 : list Z) :
  let w := run audioContext tracks s0 r0 tr in
  mounted w = true -> isRemote w = false -> stream w = None ->
  isLoading w = true ->
  existsb (Nat.eqb id) (pendingGum w) = true ->
  localStream w <> Some s ->
  audioTracks w s <> 0 ->
  audioContext (setupCalls w) = Some sp1 ->
  audioContext (S (setupCalls w)) = Some sp2 ->
  let w' := step audioContext w (GumResolve id s) in
  setupCalls w' = S (S (setupCalls w))
  /\ map sess_stream (sessions w') = map sess_stream (sessions w) ++ [s; s]
  /\ map sess_id (sessions w')
     = map sess_id (sessions w) ++ [setupCalls w; S (setupCalls w)].
Proof.
  intros w M Rm St L P NL Ht A1 A2 w'.
  pose proof (settled_run audioContext tracks s0 r0 tr) as Hs. fold w in Hs.
  destruct Hs as [Hs|C]; [congruence|].
  pose proof (at_rest_run audioContext tracks s0 r0 tr) as R. fold w in R.
  pose proof (timer_inv_run audioContext tracks s0 r0 tr) as Inv. fold w in Inv.
  assert (V : videoRef w = None).
  { destruct (videoRef w) as [v|] eqn:V; [|reflexivity].
    pose proof (at_rest_video audioContext w v R M V) as Sh.
    unfold videoShown in Sh. rewrite L in Sh. discriminate. }
  (* the handler: lines 96-113 without video element *)
  set (w1 := with_pendingGum (filter (fun x => negb (Nat.eqb x id)) (pendingGum w)) w).
  set (w2 := setLocalStream (Some s) (log (LogGranted s) w1)).
  assert (Hh : handle audioContext w (GumResolve id s)
               = getLocalCamera_finish audioContext s w2).
  { cbn [handle]. unfold take_gum. rewrite P. unfold getLocalCamera_granted.
    fold w1. fold w2.
    replace (videoRef w2) with (videoRef w) by (subst w2 w1; symmetry; fp_eq F_videoRef).
    rewrite V. reflexivity. }
  assert (I2 : timer_inv w2).
  { refine (timer_inv_agree _ _ _ _ _ Inv); [subst w2 w1; fp_chain | vm_compute; reflexivity]. }
  assert (C2 : setupCalls w2 = setupCalls w) by (subst w2 w1; fp_eq F_setupCalls).
  assert (T2 : audioTracks w2 = audioTracks w) by (subst w2 w1; fp_eq F_audioTracks).
  assert (S2 : sessions w2 = sessions w) by (subst w2 w1; fp_eq F_sessions).
  assert (L2 : localStream w2 = Some s).
  { subst w2. unfold setLocalStream.
    replace (mounted (log (LogGranted s) w1)) with (mounted w) by reflexivity.
    rewrite M. reflexivity. }
  set (h := getLocalCamera_finish audioContext s w2) in *.
  assert (Ah : agree (F_isLoading :: audioFP) w2 h) by (subst h; footprint).
  assert (Ih : timer_inv h).
  { subst h. unfold getLocalCamera_finish.
    refine (timer_inv_agree _ _ _ (setIsLoading_fp false _) _ _); [reflexivity|].
    apply timer_inv_setup, I2. }
  assert (Sh : map sess_stream (sessions h) = map sess_stream (sessions w) ++ [s]).
  { subst h. rewrite (finish_streams audioContext s w2 sp1 I2); [rewrite S2; reflexivity| |].
    - rewrite C2. exact A1.
    - rewrite T2. exact Ht. }
  assert (Idh : map sess_id (sessions h) = map sess_id (sessions w) ++ [setupCalls w]).
  { subst h. unfold getLocalCamera_finish.
    replace (sessions (setIsLoading false (setupAudioAnalyser audioContext s w2)))
      with (sessions (setupAudioAnalyser audioContext s w2))
      by (symmetry; fp_eq F_sessions).
    rewrite setup_ids, C2, A1, T2, S2.
    apply Nat.eqb_neq in Ht. rewrite Ht. reflexivity. }
  assert (Ch : setupCalls h = S (setupCalls w)).
  { subst h. unfold getLocalCamera_finish.
    transitivity (setupCalls (setupAudioAnalyser audioContext s w2));
      [fp_eq F_setupCalls | rewrite setup_counts, C2; reflexivity]. }
  assert (Th : audioTracks h = audioTracks w)
    by (rewrite <- T2; exact (Ah F_audioTracks eq_refl)).
  assert (Lh : localStream h = Some s)
    by (rewrite <- L2; exact (Ah F_localStream eq_refl)).
  assert (Sth : stream h = None).
  { rewrite <- St. transitivity (stream w2); [exact (Ah F_stream eq_refl)|].
    subst w2 w1. fp_eq F_stream. }
  assert (Rh : isRemote h = false).
  { rewrite <- Rm. transitivity (isRemote w2); [exact (Ah F_isRemote eq_refl)|].
    subst w2 w1. fp_eq F_isRemote. }
  assert (Mh : mounted h = true).
  { rewrite <- M. transitivity (mounted w2); [exact (Ah F_mounted eq_refl)|].
    subst w2 w1. fp_eq F_mounted. }
  assert (Cmh : committed h = committed w).
  { transitivity (committed w2); [exact (Ah F_committed eq_refl)|].
    subst w2 w1. fp_eq F_committed. }
  clearbody h. clear Ah.
  (* the render pass: lines 144-152 *)
  assert (Ew : w' = commitRef (runEffects audioContext (commitRef h))).
  { unfold w', step. rewrite Hh. unfold flush. rewrite Mh. reflexivity. }
  set (x := commitRef h) in *.
  assert (Ex : runEffects audioContext x
               = with_committed (Some (stream x, localStream x, isRemote x))
                   (audioEffect audioContext
                      (trackEffect
                         (stopCleanup (committed x) (trackCleanup (committed x) x))))).
  { apply (runEffects_local_changed audioContext x (stream w) (localStream w) (isRemote w)).
    - transitivity (committed h); [reflexivity|]. rewrite Cmh. exact C.
    - transitivity (stream h); [reflexivity|]. rewrite Sth, St. reflexivity.
    - transitivity (isRemote h); [reflexivity|]. rewrite Rh, Rm. reflexivity.
    - replace (localStream x) with (localStream h) by reflexivity.
      rewrite Lh. intro H. apply NL. symmetry. exact H. }
  set (x4 := trackEffect (stopCleanup (committed x) (trackCleanup (committed x) x))) in *.
  assert (A4 : agree [F_trackListeners; F_stopped; F_videoRef] h x4)
    by (subst x4 x; footprint).
  assert (E4 : audioEffect audioContext x4 = setupAudioAnalyser audioContext s x4).
  { unfold audioEffect.
    rewrite (A4 F_isRemote eq_refl : isRemote x4 = isRemote h), Rh.
    rewrite (A4 F_stream eq_refl : stream x4 = stream h), Sth.
    rewrite (A4 F_localStream eq_refl : localStream x4 = localStream h), Lh.
    cbn [negb currentStream].
    rewrite (A4 F_audioTracks eq_refl : audioTracks x4 = audioTracks h), Th.
    destruct (audioTracks w s) eqn:Tr; [contradiction Ht; reflexivity | reflexivity]. }
  assert (I4 : timer_inv x4).
  { refine (timer_inv_agree _ _ _ A4 _ Ih). reflexivity. }
  assert (C4 : setupCalls x4 = S (setupCalls w))
    by (rewrite <- Ch; exact (A4 F_setupCalls eq_refl)).
  assert (S4 : sessions x4 = sessions h) by exact (A4 F_sessions eq_refl).
  assert (T4 : audioTracks x4 = audioTracks w)
    by (rewrite <- Th; exact (A4 F_audioTracks eq_refl)).
  assert (Es : sessions w' = sessions (setupAudioAnalyser audioContext s x4)).
  { rewrite Ew, Ex, E4. reflexivity. }
  assert (Ec : setupCalls w' = setupCalls (setupAudioAnalyser audioContext s x4)).
  { rewrite Ew, Ex, E4. reflexivity. }
  split; [|split].
  - rewrite Ec, setup_counts, C4. reflexivity.
  - rewrite Es, (setup_streams audioContext s x4 sp2 I4).
    + rewrite S4, Sh, <- app_assoc. reflexivity.
    + rewrite C4. exact A2.
    + rewrite T4. exact Ht.
  - rewrite Es, setup_ids, C4, A2, T4, S4, Idh.
    apply Nat.eqb_neq in Ht. rewrite Ht, <- app_assoc. reflexivity.
Qed.

Lemma granted_stream_is_analysed_twice_witness :
  let w := run silentAudio oneTrack None false [] in
  let w' := step silentAudio w (GumResolve 0 9) in
  mounted w = true
  /\ map sess_stream (sessions w') = [9; 9]
  /\ map sess_id (sessions w') = [0; 1].
Proof.
  intros w w'.
  assert (M : mounted w = true) by (vm_compute; reflexivity).
  assert (Rm : isRemote w = false) by (vm_compute; reflexivity).
  assert (St : stream w = None) by (vm_compute; reflexivity).
  assert (L : isLoading w = true) by (vm_compute; reflexivity).
  assert (P : existsb (Nat.eqb 0) (pendingGum w) = true) by (vm_compute; reflexivity).
  assert (NL : localStream w <> Some 9) by (vm_compute; discriminate).
  assert (Ht : audioTracks w 9 <> 0) by (vm_compute; discriminate).
  destruct (granted_stream_is_analysed_twice silentAudio oneTrack None false []
              0 9 [] [] M Rm St L P NL Ht eq_refl eq_refl) as (_ & A & B).
  split; [exact M|]. split; [exact A | exact B].
Defined.

(** ** A remote instance without stream *)

Lemma idle_agree fs w w' :
  agree fs w w' ->
  forallb (fun f => negb (inb f fs)) idleCells = true ->
  idle_inv w -> idle_inv w'.
Proof.
  intros A Hfs. cbn in Hfs.
  repeat (apply andb_prop in Hfs; destruct Hfs as [?%negb_true_iff Hfs]).
  pose proof (A F_stream ltac:(assumption)) as E1.
  pose proof (A F_isRemote ltac:(assumption)) as E2.
  pose proof (A F_isLoading ltac:(assumption)) as E3.
  pose proof (A F_error ltac:(assumption)) as E4.
  pose proof (A F_localStream ltac:(assumption)) as E5.
  pose proof (A F_videoRef ltac:(assumption)) as E6.
  pose proof (A F_pendingPlay ltac:(assumption)) as E7.
  pose proof (A F_pendingGum ltac:(assumption)) as E8.
  pose proof (A F_clickListeners ltac:(assumption)) as E9.
  pose proof (A F_touchListeners ltac:(assumption)) as E10.
  pose proof (A F_mounted ltac:(assumption)) as E11.
  pose proof (A F_committed ltac:(assumption)) as E12.
  cbn [get ftype] in *. unfold idle_inv.
  rewrite E1, E2, E3, E4, E5, E6, E7, E8, E9, E10, E11, E12. exact (fun H => H).
Qed.

Section Idle.

Variable audioContext : nat -> option (list Z).

Lemma idle_flush w : idle_inv w -> flush audioContext w = w.
Proof.
  intros (S & R & L & Er & LS & V & PP & PG & CL & TL & CM).
  assert (Hs : settled w).
  { destruct CM as [CM|CM]; [left; exact CM|]. right. rewrite CM, S, LS, R. reflexivity. }
  rewrite (flush_settled audioContext w Hs).
  destruct (mounted w); [|reflexivity].
  apply commitRef_hidden; [|exact V].
  unfold videoShown. rewrite S, LS. cbn. rewrite !andb_false_r. reflexivity.
Qed.

Lemma idle_handle w e :
  keepsProps e = true -> idle_inv w -> idle_inv (handle audioContext w e).
Proof.
  intros Q I. pose proof I as (S & R & L & Er & LS & V & PP & PG & CL & TL & CM).
  destruct e; try discriminate Q; cbn [handle];
    try (unfold take_gum; rewrite PG; exact I);
    try (unfold take_play; rewrite PP; exact I);
    try (rewrite ?CL, ?TL; exact I).
  - (* Unmount *)
    destruct (mounted w); [|exact I]. unfold unmount.
    destruct CM as [CM|CM]; [discriminate|]. rewrite CM. cbn.
    unfold idle_inv. cbn. repeat split; auto.
  - (* RetryClick *)
    unfold retryShown. rewrite Er. cbn. rewrite !andb_false_r. exact I.
  - (* Frame *)
    revert I. refine (idle_agree _ _ _ (detectVolume_fp sid spectrum w) _).
    vm_compute; reflexivity.
  - (* TimerFire *)
    revert I. refine (idle_agree _ _ _ (handle_fp audioContext w (TimerFire t)) _).
    vm_compute; reflexivity.
  - (* TrackChange *)
    revert I.
    refine (idle_agree _ _ _ (handle_fp audioContext w (TrackChange s audio)) _).
    vm_compute; reflexivity.
Qed.

Lemma idle_run tracks tr :
  forallb keepsProps tr = true ->
  idle_inv (run audioContext tracks None true tr).
Proof.
  unfold run. induction tr as [|e tr IH] using rev_ind; intro Q.
  - cbn [fold_left]. unfold mount.
    assert (E : flush audioContext (pristine tracks None true)
                = commitRef (runEffects audioContext (pristine tracks None true)))
      by reflexivity.
    rewrite E. unfold idle_inv. cbn. repeat split; auto.
  - rewrite forallb_app in Q. apply andb_prop in Q. destruct Q as [Q1 Q2].
    cbn in Q2. rewrite andb_true_r in Q2.
    rewrite fold_left_app. cbn [fold_left].
    pose proof (idle_handle _ e Q2 (IH Q1)) as I.
    set (w := fold_left (step audioContext) tr _) in *.
    unfold step. rewrite (idle_flush _ I). exact I.
Qed.

End Idle.

(** X17.  A remote instance rendered without stream leaves the loading state
    in its first effect (line 70) and then waits: as long as its props stay as
    they are it renders the placeholder for the remote party, mounts no video
    element, issues no request, and no event but a timer, an animation frame
    or a track change, which have nothing to act on, changes its world. *)
Theorem remote_without_stream_waits
    (audioContext : nat -> option (list Z)) (tracks : nat -> nat)
    (tr : list Event) :
  forallb keepsProps tr = true ->
  let w := run audioContext tracks None true tr in
  render w = Placeholder "Waiting for AI Doctor..."
  /\ presentation w = Idle
  /\ videoRef w = None /\ pendingPlay w = [] /\ pendingGum w = []
  /\ (forall e, e = Click \/ e = Touch \/ e = RetryClick
                \/ (exists id, e = PlayResolve id \/ e = PlayReject id)
                \/ (exists id s, e = GumResolve id s)
                \/ (exists id m, e = GumReject id m) ->
        step audioContext w e = w).
Proof.
  intros Q w.
  pose proof (idle_run audioContext tracks tr Q) as I. fold w in I.
  pose proof I as (S & R & L & Er & LS & V & PP & PG & CL & TL & CM).
  split; [|split; [|split; [|split; [|split]]]]; try assumption.
  - unfold render. rewrite L, Er, S, LS, R. reflexivity.
  - unfold presentation. rewrite L, Er, S, LS. reflexivity.
  - intros e He.
    assert (Hh : handle audioContext w e = w).
    { destruct He as [-> | [-> | [-> | [[id [-> | ->]] | [[id [s ->]] | [id [m ->]]]]]]];
        cbn [handle]; unfold take_play, take_gum, retryShown;
        rewrite ?CL, ?TL, ?PP, ?PG, ?Er; cbn; rewrite ?andb_false_r; reflexivity. }
    unfold step. rewrite Hh. apply idle_flush, I.
Qed.

Lemma remote_without_stream_waits_witness :
  let tr := [Click; PlayReject 0; Elapse 500; RetryClick] in
  let w := run noAudio noTrack None true tr in
  forallb keepsProps tr = true
  /\ render w = Placeholder "Waiting for AI Doctor..."
  /\ step noAudio w Touch = w.
Proof.
  intros tr w.
  assert (Q : forallb keepsProps tr = true) by (vm_compute; reflexivity).
  destruct (remote_without_stream_waits noAudio noTrack tr Q) as (A & _ & _ & _ & _ & B).
  split; [exact Q|]. split; [exact A|]. apply B. auto.
Defined.

(** * Hysteresis with several sampling loops *)

Lemma armed_agree sid t d fs w w' :
  agree fs w w' ->
  forallb (fun f => negb (inb f fs)) [F_timers; F_nextTimer; F_sessions] = true ->
  armed_inv sid t d w -> armed_inv sid t d w'.
Proof.
  intros A Hfs. cbn in Hfs.
  repeat (apply andb_prop in Hfs; destruct Hfs as [?%negb_true_iff Hfs]).
  pose proof (A F_timers ltac:(assumption)) as E1.
  pose proof (A F_nextTimer ltac:(assumption)) as E2.
  pose proof (A F_sessions ltac:(assumption)) as E3.
  cbn [get ftype] in *. unfold armed_inv. rewrite E1, E2, E3. exact (fun H => H).
Qed.

Lemma retired_agree t fs w w' :
  agree fs w w' ->
  forallb (fun f => negb (inb f fs)) [F_timers; F_nextTimer] = true ->
  retired t w -> retired t w'.
Proof.
  intros A Hfs. cbn in Hfs.
  repeat (apply andb_prop in Hfs; destruct Hfs as [?%negb_true_iff Hfs]).
  pose proof (A F_timers ltac:(assumption)) as E1.
  pose proof (A F_nextTimer ltac:(assumption)) as E2.
  cbn [get ftype] in *. unfold retired. rewrite E1, E2. exact (fun H => H).
Qed.

Lemma armed_detect_in sid t d s sp w :
  In s (sessions w) ->
  armed_inv sid t d w -> armed_inv sid t d (detectVolume_in s sp w).
Proof.
  intros Hs (N & D & O).
  destruct (detectVolume_in_effect s sp w _ eq_refl) as (_ & T & NT & Es & _).
  unfold armed_inv. rewrite T, NT, Es. clear T NT Es.
  generalize (aboveThreshold (getByteFrequencyData sp)). intro loud.
  split; [|split].
  - destruct loud; lia.
  - intros d' Hin. destruct loud; [|auto].
    apply in_app_or in Hin. destruct Hin as [Hin|[Hin|[]]].
    + destruct (silenceTimeout s); [|auto].
      apply filter_In in Hin. destruct Hin as [Hin _]. auto.
    + injection Hin as E _. lia.
  - intros x Hx Hxt. apply In_replace in Hx.
    destruct Hx as [[-> _] | [Hx _]]; [|auto].
    cbn in Hxt |- *. destruct loud; [|auto].
    injection Hxt as E. lia.
Qed.

Lemma retired_detect_in t s sp w :
  retired t w -> retired t (detectVolume_in s sp w).
Proof.
  intros (N & R).
  destruct (detectVolume_in_effect s sp w _ eq_refl) as (_ & T & NT & _).
  unfold retired. rewrite T, NT. clear T NT.
  generalize (aboveThreshold (getByteFrequencyData sp)). intro loud.
  destruct loud; [|auto]. split; [lia|].
  rewrite map_app, in_app_iff. cbn. intros [H|[H|[]]]; [|lia].
  apply R. destruct (silenceTimeout s); [|exact H].
  apply in_map_iff in H. destruct H as [[t' d'] [E Hin]].
  apply filter_In in Hin. destruct Hin as [Hin _].
  apply in_map_iff. exists (t', d'). auto.
Qed.

Lemma armed_detectVolume sid t d sid' sp w :
  armed_inv sid t d w -> armed_inv sid t d (detectVolume sid' sp w).
Proof.
  intro H. unfold detectVolume. destruct (find_session sid' w) as [s|] eqn:F; [|exact H].
  apply find_session_In in F. apply armed_detect_in; tauto.
Qed.

Lemma retired_detectVolume t sid' sp w :
  retired t w -> retired t (detectVolume sid' sp w).
Proof.
  intro H. unfold detectVolume. destruct (find_session sid' w); [|exact H].
  apply retired_detect_in, H.
Qed.

Lemma armed_fire sid t d t' w :
  armed_inv sid t d w -> armed_inv sid t d (silenceCallback (clearTimeout t' w)).
Proof.
  intros (N & D & O).
  eapply armed_agree; [apply silenceCallback_fp | reflexivity |].
  unfold armed_inv, clearTimeout. cbn. repeat split; auto.
  intros d' Hin. apply filter_In in Hin. destruct Hin as [Hin _]. auto.
Qed.

Lemma retired_fire t t' w :
  retired t w -> retired t (silenceCallback (clearTimeout t' w)).
Proof.
  intros (N & R).
  eapply retired_agree; [apply silenceCallback_fp | reflexivity |].
  unfold retired, clearTimeout. cbn. split; [exact N|].
  intro H. apply R. apply in_map_iff in H. destruct H as [[t0 d0] [E Hin]].
  apply filter_In in Hin. destruct Hin as [Hin _].
  apply in_map_iff. exists (t0, d0). auto.
Qed.

Lemma find_session_some sid w :
  In sid (map sess_id (sessions w)) -> exists s, find_session sid w = Some s.
Proof.
  unfold find_session. induction (sessions w) as [|a l IH]; cbn; [tauto|].
  intros [H|H].
  - subst sid. rewrite Nat.eqb_refl. eauto.
  - destruct (Nat.eqb (sess_id a) sid); eauto.
Qed.

Section Loops.

Variable audioContext : nat -> option (list Z).

Lemma armed_setup sid t d s w :
  armed_inv sid t d w -> armed_inv sid t d (setupAudioAnalyser audioContext s w).
Proof.
  intro H. unfold setupAudioAnalyser. cbv zeta.
  destruct (audioContext (setupCalls w)) as [sp|].
  - destruct (Nat.eqb _ _).
    + revert H. refine (armed_agree sid t d _ _ _ _ _);
        [fp_chain | vm_compute; reflexivity].
    + apply armed_detectVolume. destruct H as (N & D & O).
      unfold armed_inv. cbn. repeat split; auto.
      intros x Hx Hxt. apply in_app_or in Hx.
      destruct Hx as [Hx|[<-|[]]]; [auto | discriminate].
  - revert H. refine (armed_agree sid t d _ _ _ _ _);
      [fp_chain | vm_compute; reflexivity].
Qed.

Lemma retired_setup t s w :
  retired t w -> retired t (setupAudioAnalyser audioContext s w).
Proof.
  intro H. unfold setupAudioAnalyser. cbv zeta.
  destruct (audioContext (setupCalls w)) as [sp|].
  - destruct (Nat.eqb _ _).
    + revert H. refine (retired_agree t _ _ _ _ _); [fp_chain | vm_compute; reflexivity].
    + apply retired_detectVolume.
      revert H. refine (retired_agree t _ _ _ _ _); [fp_chain | vm_compute; reflexivity].
  - revert H. refine (retired_agree t _ _ _ _ _); [fp_chain | vm_compute; reflexivity].
Qed.

Lemma armed_path sid t d w w' :
  audio_path audioContext w w' -> armed_inv sid t d w -> armed_inv sid t d w'.
Proof.
  induction 1 as [w|w x y fs P IH A C|w x s P IH|w x sid' sp P IH]; intro Hw; auto.
  - eapply armed_agree; [exact A | | auto].
    cbn [forallb].
    rewrite (audioCells_out fs F_timers C), (audioCells_out fs F_nextTimer C),
      (audioCells_out fs F_sessions C) by (cbn; tauto).
    reflexivity.
  - apply armed_setup; auto.
  - apply armed_detectVolume; auto.
Qed.

Lemma retired_path t w w' :
  audio_path audioContext w w' -> retired t w -> retired t w'.
Proof.
  induction 1 as [w|w x y fs P IH A C|w x s P IH|w x sid' sp P IH]; intro Hw; auto.
  - eapply retired_agree; [exact A | | auto].
    cbn [forallb].
    rewrite (audioCells_out fs F_timers C), (audioCells_out fs F_nextTimer C)
      by (cbn; tauto).
    reflexivity.
  - apply retired_setup; auto.
  - apply retired_detectVolume; auto.
Qed.

Lemma armed_step sid t d w e :
  armed_inv sid t d w -> armed_inv sid t d (step audioContext w e).
Proof.
  intro H. destruct (isTimerFire e) eqn:T.
  - destruct e; try discriminate T.
    eapply armed_path; [apply step_fire_ap|].
    destruct (timer_due t0 w); [apply armed_fire|]; exact H.
  - destruct (isTrackChange e) eqn:C.
    + destruct e; try discriminate C.
      eapply armed_path; [apply step_track_ap|].
      eapply armed_agree; [apply handle_fp | reflexivity | exact H].
    + eapply armed_path; [apply step_ap; assumption | exact H].
Qed.

Lemma retired_step t w e : retired t w -> retired t (step audioContext w e).
Proof.
  intro H. destruct (isTimerFire e) eqn:T.
  - destruct e; try discriminate T.
    eapply retired_path; [apply step_fire_ap|].
    destruct (timer_due t0 w); [apply retired_fire|]; exact H.
  - destruct (isTrackChange e) eqn:C.
    + destruct e; try discriminate C.
      eapply retired_path; [apply step_track_ap|].
      eapply retired_agree; [apply handle_fp | reflexivity | exact H].
    + eapply retired_path; [apply step_ap; assumption | exact H].
Qed.

Lemma now_step w e :
  now (step audioContext w e)
  = match e with Elapse dt => (now w + Z.of_N dt)%Z | _ => now w end.
Proof.
  unfold step.
  transitivity (now (handle audioContext w e)); [fp_eq F_now|].
  destruct e; try handle_frame F_now. reflexivity.
Qed.

(** What holds along every continuation of a running world. *)
Lemma fold_invariants sid t d w tr2 :
  settled w -> timer_inv w -> armed_inv sid t d w ->
  In sid (map sess_id (sessions w)) ->
  let w2 := fold_left (step audioContext) tr2 w in
  settled w2 /\ timer_inv w2 /\ armed_inv sid t d w2
  /\ In sid (map sess_id (sessions w2)) /\ (now w <= now w2)%Z.
Proof.
  revert w. induction tr2 as [|e tr2 IH]; intros w Hs Inv A S; cbn [fold_left].
  - split; [exact Hs|]. split; [exact Inv|]. split; [exact A|].
    split; [exact S|]. lia.
  - assert (S1 : In sid (map sess_id (sessions (step audioContext w e)))).
    { destruct (step_ids_grow audioContext w e) as [l E]. rewrite E.
      apply in_or_app. auto. }
    destruct (IH _ (settled_step audioContext w e) (timer_inv_step audioContext w e Inv)
                (armed_step sid t d w e A) S1) as (H1 & H2 & H3 & H4 & H5).
    split; [exact H1|]. split; [exact H2|]. split; [exact H3|].
    split; [exact H4|].
    rewrite now_step in H5. destruct e; lia.
Qed.

Lemma retired_fold t w tr2 :
  retired t w -> retired t (fold_left (step audioContext) tr2 w).
Proof.
  revert w. induction tr2 as [|e tr2 IH]; intros w H; cbn [fold_left]; [exact H|].
  apply IH, retired_step, H.
Qed.

(** A further above-threshold reading of the session that armed [t] retires
    it. *)
Lemma loud_frame_retires sid t d w sp :
  settled w -> timer_inv w -> armed_inv sid t d w ->
  In sid (map sess_id (sessions w)) ->
  aboveThreshold (getByteFrequencyData sp) = true ->
  retired t (step audioContext w (Frame sid sp)).
Proof.
  intros Hs Inv A S Q.
  destruct (find_session_some sid w S) as [s F].
  destruct (frame_step_effect audioContext w sid s sp true Hs F Q) as (_ & T & _).
  destruct (armed_step sid t d w (Frame sid sp) A) as (N' & _).
  split; [exact N'|]. rewrite T. clear T.
  destruct A as (N & D & O). destruct Inv as (ND & _ & _ & Harm).
  destruct (find_session_In sid w s F) as [Hin Hid].
  rewrite map_app, in_app_iff. cbn. intros [H|[H|[]]]; [|lia].
  assert (Ht : In t (map fst (timers w))).
  { destruct (silenceTimeout s); [|exact H].
    apply in_map_iff in H. destruct H as [[t' d'] [E H]].
    apply filter_In in H. destruct H as [H _].
    apply in_map_iff. exists (t', d'). auto. }
  apply in_map_iff in Ht. destruct Ht as [[t' d'] [E Ht]]. cbn in E. subst t'.
  destruct (Harm t d' Ht) as [x [Hx Hxt]].
  assert (Ex : x = s).
  { apply (NoDup_ids_eq (sessions w)); auto. rewrite Hid. apply O; auto. }
  subst x. rewrite Hxt in H.
  apply in_map_iff in H. destruct H as [[t' d''] [E H]]. cbn in E. subst t'.
  apply filter_In in H. destruct H as [_ H]. cbn in H.
  rewrite Pos.eqb_refl in H. discriminate.
Qed.

Lemma fire_clears w t :
  settled w -> mounted w = true -> timer_due t w = true ->
  isSpeaking (step audioContext w (TimerFire t)) = false
  /\ timers (step audioContext w (TimerFire t))
     = filter (fun e => negb (Pos.eqb (fst e) t)) (timers w).
Proof.
  intros Hs M D.
  pose proof (step_quiet audioContext w (TimerFire t) eq_refl Hs) as A.
  assert (Hh : settled (handle audioContext w (TimerFire t)))
    by (apply handle_settled; [reflexivity | exact Hs]).
  pose proof (flush_settled_fp audioContext _ Hh) as B.
  fold (step audioContext w (TimerFire t)) in B.
  rewrite (B F_isSpeaking eq_refl
           : isSpeaking (step audioContext w (TimerFire t)) = isSpeaking _).
  rewrite (B F_timers eq_refl
           : timers (step audioContext w (TimerFire t)) = timers _).
  cbn [handle]. rewrite D.
  unfold silenceCallback, setIsSpeaking, clearTimeout. cbn. rewrite M. cbn. auto.
Qed.

End Loops.

(** C1, as the code has it.  In a running world, an animation frame of a
    sampling loop whose mean magnitude is at most 20 leaves [isSpeaking], the
    timer table and the loop's [silenceTimeout] as they were.  A frame whose
    mean is above 20 sets [isSpeaking] (of a mounted component) in that same
    step, removes the timer that loop had armed before, and no timer of
    another loop, and arms a new one due 800 ms later, which becomes the
    loop's [silenceTimeout].  Whatever the event, [isSpeaking] goes from true
    to false only when a timer fires whose deadline has passed and which is
    still the [silenceTimeout] of some loop, and the firing of a due timer
    does set [isSpeaking] false, whatever the other loops have read in the
    meantime.  The timer armed by an above-threshold frame keeps its deadline,
    so it is not due before 800 ms have passed since that frame, and a
    further above-threshold frame of the same loop retires it for good. *)
Theorem detectVolume_hysteresis
    (audioContext : nat -> option (list Z)) (tracks : nat -> nat)
    (s0 : option nat) (r0 : bool) (tr : list Event)
    (sid : nat) (sess : Session) (sp : list Z) :
  let w := run audioContext tracks s0 r0 tr in
  let w' := step audioContext w (Frame sid sp) in
  let dataArray := getByteFrequencyData sp in
  find_session sid w = Some sess ->
  ((average dataArray <= 20 # 1)%Q ->
     isSpeaking w' = isSpeaking w
     /\ timers w' = timers w
     /\ option_map silenceTimeout (find_session sid w') = Some (silenceTimeout sess))
  /\ ((20 # 1 < average dataArray)%Q ->
        (mounted w = true -> isSpeaking w' = true)
        /\ timers w' =
             match silenceTimeout sess with
             | Some t => filter (fun e => negb (Pos.eqb (fst e) t)) (timers w)
             | None => timers w
             end ++ [(nextTimer w, (now w + 800)%Z)]
        /\ option_map silenceTimeout (find_session sid w') = Some (Some (nextTimer w))
        /\ (forall t, silenceTimeout sess = Some t -> ~ In t (map fst (timers w')))
        /\ (forall t d, In (t, d) (timers w) -> silenceTimeout sess <> Some t ->
              In (t, d) (timers w'))
        /\ (forall tr2,
              let w2 := fold_left (step audioContext) tr2 w' in
              (forall d, In (nextTimer w, d) (timers w2) -> d = (now w + 800)%Z)
              /\ (timer_due (nextTimer w) w2 = true -> (now w + 800 <= now w2)%Z)
              /\ (forall sp2 tr3,
                    aboveThreshold (getByteFrequencyData sp2) = true ->
                    let w3 := fold_left (step audioContext) tr3
                                (step audioContext w2 (Frame sid sp2)) in
                    ~ In (nextTimer w) (map fst (timers w3))
                    /\ timer_due (nextTimer w) w3 = false)))
  /\ (forall e, isSpeaking w = true -> isSpeaking (step audioContext w e) = false ->
        exists t d, e = TimerFire t /\ In (t, d) (timers w) /\ (d <= now w)%Z
          /\ exists s, In s (sessions w) /\ silenceTimeout s = Some t)
  /\ (forall t, mounted w = true -> timer_due t w = true ->
        isSpeaking (step audioContext w (TimerFire t)) = false
        /\ timers (step audioContext w (TimerFire t))
           = filter (fun e => negb (Pos.eqb (fst e) t)) (timers w)).
Proof.
  intros w w' dataArray F.
  pose proof (settled_run audioContext tracks s0 r0 tr) as Hs. fold w in Hs.
  pose proof (timer_inv_run audioContext tracks s0 r0 tr) as Inv. fold w in Inv.
  split; [|split; [|split]].
  - intro Q. apply belowThreshold_spec in Q.
    destruct (frame_step_effect audioContext w sid sess sp false Hs F Q) as (A & B & C).
    fold w' in A, B, C. rewrite A, B, C. cbn. auto.
  - intro Q. apply aboveThreshold_spec in Q.
    destruct (frame_step_effect audioContext w sid sess sp true Hs F Q) as (A & B & C).
    fold w' in A, B, C.
    destruct (find_session_In sid w sess F) as [Hin Hid].
    assert (Fresh : forall t d, In (t, d) (timers w) -> (t < nextTimer w)%positive).
    { intros t d Ht. destruct Inv as (_ & _ & Hlt & Harm).
      destruct (Harm t d Ht) as [x [Hx Hxt]]. eauto. }
    split; [rewrite A; cbn [andb]; intros ->; reflexivity|].
    split; [exact B|].
    split; [rewrite C; reflexivity|].
    split; [|split].
    + intros t Ht. rewrite B, Ht, map_app, in_app_iff. cbn.
      destruct Inv as (_ & _ & Hlt & _). specialize (Hlt sess t Hin Ht).
      intros [H|[H|[]]].
      * apply in_map_iff in H. destruct H as [[t' d] [<- H]].
        apply filter_In in H. destruct H as [_ H]. cbn in H.
        rewrite Pos.eqb_refl in H. discriminate.
      * lia.
    + intros t d Ht Hn. rewrite B. apply in_or_app. left.
      destruct (silenceTimeout sess) as [t'|]; [|exact Ht].
      apply filter_In. split; [exact Ht|]. cbn.
      apply negb_true_iff, Pos.eqb_neq. intros ->. apply Hn. reflexivity.
    + (* the life of the timer armed by this frame *)
      assert (Hs' : settled w') by apply settled_step.
      assert (Inv' : timer_inv w') by (apply timer_inv_step, Inv).
      assert (S' : In sid (map sess_id (sessions w'))).
      { destruct (step_ids_grow audioContext w (Frame sid sp)) as [l E].
        fold w' in E. rewrite E. apply in_or_app. left.
        rewrite <- Hid. apply in_map, Hin. }
      assert (A' : armed_inv sid (nextTimer w) (now w + 800)%Z w').
      { destruct Inv' as (ND' & _ & Hlt' & _).
        assert (F' : find_session sid w'
                     = Some (mkSession (sess_id sess) (sess_stream sess)
                               (Some (nextTimer w)) (S (reads sess)))) by exact C.
        destruct (find_session_In sid w' _ F') as [Hin' Hid'].
        split; [|split].
        - apply (Hlt' _ _ Hin' eq_refl).
        - intros d' Hd. rewrite B in Hd. apply in_app_or in Hd.
          destruct Hd as [Hd|[Hd|[]]].
          + assert (Hd' : In (nextTimer w, d') (timers w)).
            { destruct (silenceTimeout sess); [|exact Hd].
              apply filter_In in Hd. destruct Hd as [Hd _]. exact Hd. }
            specialize (Fresh _ _ Hd'). lia.
          + injection Hd as <-. reflexivity.
        - intros x Hx Hxt.
          assert (Hh : settled (handle audioContext w (Frame sid sp)))
            by (apply handle_settled; [reflexivity | exact Hs]).
          assert (Es : sessions w' = sessions (detectVolume_in sess sp w)).
          { transitivity (sessions (handle audioContext w (Frame sid sp)));
              [exact (flush_settled_fp audioContext _ Hh F_sessions eq_refl)|].
            cbn [handle]. unfold detectVolume. rewrite F. reflexivity. }
          destruct (detectVolume_in_effect sess sp w _ eq_refl) as (_ & _ & _ & Es2 & _).
          rewrite Es, Es2 in Hx. apply In_replace in Hx.
          destruct Hx as [[-> _] | [Hx _]]; [exact Hid|].
          destruct Inv as (_ & _ & Hlt & _). specialize (Hlt x _ Hx Hxt). lia. }
      intros tr2 w2.
      destruct (fold_invariants audioContext sid (nextTimer w) (now w + 800)%Z w' tr2
                  Hs' Inv' A' S') as (Hs2 & Inv2 & A2 & S2 & N2).
      fold w2 in Hs2, Inv2, A2, S2, N2.
      assert (Nw : now w' = now w).
      { unfold w'. rewrite now_step. reflexivity. }
      split; [|split].
      * destruct A2 as (_ & D2 & _). exact D2.
      * intro Du. unfold timer_due in Du. apply existsb_exists in Du.
        destruct Du as [[t d] [Hd Hc]]. cbn in Hc.
        apply andb_prop in Hc. destruct Hc as [Ht Hle].
        apply Pos.eqb_eq in Ht. subst t. apply Z.leb_le in Hle.
        destruct A2 as (_ & D2 & _). rewrite (D2 _ Hd) in Hle. exact Hle.
      * intros sp2 tr3 Q2 w3.
        pose proof (loud_frame_retires audioContext sid (nextTimer w) (now w + 800)%Z
                      w2 sp2 Hs2 Inv2 A2 S2 Q2) as R.
        apply (retired_fold audioContext _ _ tr3) in R. fold w3 in R.
        destruct R as (_ & R). split; [exact R|].
        destruct (timer_due (nextTimer w) w3) eqn:Du; [|reflexivity].
        exfalso. apply R. unfold timer_due in Du. apply existsb_exists in Du.
        destruct Du as [[t d] [Hd Hc]]. cbn in Hc.
        apply andb_prop in Hc. destruct Hc as [Ht _].
        apply Pos.eqb_eq in Ht. subst t.
        apply in_map_iff. exists (nextTimer w, d). auto.
  - intros e. apply speaking_cleared_by_timer, Inv.
  - intros t M D. apply fire_clears; assumption.
Qed.

Lemma detectVolume_hysteresis_witness :
  let w := run silentAudio oneTrack None false [GumResolve 0 9] in
  let w' := step silentAudio w (Frame 0 (flat 25)) in
  isSpeaking w' = true /\ timers w' = [(1%positive, 800%Z)]
  /\ timer_due 1 (fold_left (step silentAudio) [Elapse 799] w') = false
  /\ isSpeaking (step silentAudio
                   (fold_left (step silentAudio) [Elapse 800] w') (TimerFire 1)) = false.
Proof.
  intros w w'.
  assert (F : find_session 0 w = Some (mkSession 0 9 None 1)) by (vm_compute; reflexivity).
  destruct (detectVolume_hysteresis silentAudio oneTrack None false [GumResolve 0 9]
              0 (mkSession 0 9 None 1) (flat 25) F) as (_ & H & _).
  destruct H as (A & B & _).
  - unfold Qlt. vm_compute. reflexivity.
  - subst w' w. split; [|split; [|split]].
    + apply A. vm_compute. reflexivity.
    + rewrite B. vm_compute. reflexivity.
    + vm_compute. reflexivity.
    + vm_compute. reflexivity.
Defined.

(** C1 as stated fails where two sampling loops run, as they do after every
    acquisition.  Loop 0 reads above threshold at 0 ms and loop 1 at 500 ms;
    at 800 ms the timer of loop 0 fires and clears [isSpeaking], 300 ms after
    an above-threshold reading and while the timer armed by that reading is
    still pending. *)
Lemma speaking_cleared_despite_later_reading :
  let w0 := run silentAudio oneTrack None false
              [GumResolve 0 9; Frame 0 (flat 30); Elapse 500] in
  let w1 := step silentAudio w0 (Frame 1 (flat 30)) in
  let w2 := step silentAudio w1 (Elapse 300) in
  let w3 := step silentAudio w2 (TimerFire 1) in
  (20 # 1 < average (getByteFrequencyData (flat 30)))%Q
  /\ now w1 = 500%Z /\ isSpeaking w1 = true
  /\ timers w1 = [(1%positive, 800%Z); (2%positive, 1300%Z)]
  /\ now w2 = 800%Z /\ isSpeaking w2 = true
  /\ isSpeaking w3 = false /\ timers w3 = [(2%positive, 1300%Z)]
  /\ (now w3 - now w1 < 800)%Z.
Proof. vm_compute. repeat split. Qed.

(** * Stacking of the unlock listeners *)

Section Stacking.

Variable audioContext : nat -> option (list Z).

(** Registrations are removed by a dispatch only. *)
Lemma step_keeps_listeners w e :
  isInteraction e = false ->
  exists armed,
    clickListeners (step audioContext w e) = clickListeners w ++ armed
    /\ touchListeners (step audioContext w e) = touchListeners w ++ armed
    /\ (armed = [] \/ armed = [nextListener w]).
Proof.
  intro Q. rewrite step_clickListeners, step_touchListeners.
  destruct e; try discriminate Q;
    try (exists []; rewrite !app_nil_r;
         split; [handle_frame F_clickListeners
                | split; [handle_frame F_touchListeners | left; reflexivity]]).
  (* PlayReject *)
  destruct (take_play id w) as [[k w1]|] eqn:T.
  - destruct (reject_listeners audioContext w id k w1 T) as [C Tc].
    rewrite step_clickListeners in C. rewrite step_touchListeners in Tc.
    rewrite C, Tc.
    destruct k as [[|]| |];
      [ exists [nextListener w]; auto
      | exists []; rewrite !app_nil_r; auto .. ].
  - exists []. rewrite !app_nil_r. cbn [handle]. rewrite T. auto.
Qed.

End Stacking.

(** C3, as the code has it.  In a running world every rejected [playVideo]
    attempt that was started while the instance was remote registers one
    more [enableAudio] closure, a new one, and leaves the closures armed
    earlier in place, so pending bindings stack, one per such block; no other
    rejected [play()] arms one.  A pending binding is removed only by firing:
    an event that is not a click or a touch reaching [document] removes no
    registration, and the next click or touch, a click on the retry button
    included, removes all click and all touch registrations. *)
Theorem blocked_playback_stacks_listeners
    (audioContext : nat -> option (list Z)) (tracks : nat -> nat)
    (s : option nat) (r : bool) (tr : list Event) :
  let w := run audioContext tracks s r tr in
  (forall id k w1, take_play id w = Some (k, w1) ->
     let w' := step audioContext w (PlayReject id) in
     match k with
     | PlayVideo true =>
         clickListeners w' = clickListeners w ++ [nextListener w]
         /\ touchListeners w' = touchListeners w ++ [nextListener w]
         /\ ~ In (nextListener w) (clickListeners w)
         /\ List.length (clickListeners w') = S (List.length (clickListeners w))
     | _ => clickListeners w' = clickListeners w
            /\ touchListeners w' = touchListeners w
     end)
  /\ (forall e, isInteraction e = false ->
        exists armed,
          clickListeners (step audioContext w e) = clickListeners w ++ armed
          /\ touchListeners (step audioContext w e) = touchListeners w ++ armed)
  /\ (forall e, e = Click \/ e = Touch \/ (e = RetryClick /\ retryShown w = true) ->
        clickListeners (step audioContext w e) = []
        /\ touchListeners (step audioContext w e) = []).
Proof.
  intro w.
  destruct (paired_run audioContext tracks s r tr) as (P & _ & B). fold w in P, B.
  split; [|split].
  - intros id k w1 T w'. subst w'.
    destruct (reject_listeners audioContext w id k w1 T) as [C Tc].
    rewrite C, Tc. destruct k as [[|]| |]; try (split; reflexivity).
    split; [reflexivity|]. split; [reflexivity|]. split.
    + intro H. specialize (B _ H). lia.
    + rewrite length_app. cbn. lia.
  - intros e Q. destruct (step_keeps_listeners audioContext w e Q) as (a & A1 & A2 & _).
    exists a. auto.
  - intros e He. rewrite step_clickListeners, step_touchListeners.
    assert (D : forall x : World,
               clickListeners x = clickListeners w -> touchListeners x = clickListeners w ->
               clickListeners (dispatch (clickListeners w) x) = []
               /\ touchListeners (dispatch (clickListeners w) x) = []).
    { intros x Cx Tx. rewrite dispatch_click, dispatch_touch, Cx, Tx.
      rewrite <- (app_nil_r (clickListeners w)) at 2 4.
      rewrite remove_first_fold_self. auto. }
    destruct He as [-> | [-> | [-> Sh]]]; cbn [handle].
    + apply D; [reflexivity | exact P].
    + rewrite P. apply D; [reflexivity | exact P].
    + rewrite Sh. cbv zeta.
      set (x := flush audioContext (getLocalCamera w)).
      assert (Cx : clickListeners x = clickListeners w) by (subst x; fp_eq F_clickListeners).
      assert (Tx : touchListeners x = clickListeners w)
        by (rewrite <- P; subst x; fp_eq F_touchListeners).
      rewrite Cx. apply D; assumption.
Qed.

Lemma blocked_playback_stacks_listeners_witness :
  let w := run silentAudio oneTrack None true
             [SetProps (Some 1) true; PlayReject 0; SetProps (Some 2) true] in
  clickListeners w = [0]
  /\ clickListeners (step silentAudio w (PlayReject 1)) = [0; 1]
  /\ clickListeners (step silentAudio w (PlayResolve 1)) = [0]
  /\ clickListeners (step silentAudio w Touch) = [].
Proof.
  intro w.
  destruct (blocked_playback_stacks_listeners silentAudio oneTrack None true
              [SetProps (Some 1) true; PlayReject 0; SetProps (Some 2) true])
    as (A & B & C).
  fold w in A, B, C.
  assert (E0 : clickListeners w = [0]) by (vm_compute; reflexivity).
  assert (T : exists w1, take_play 1 w = Some (PlayVideo true, w1)).
  { eexists. vm_compute. reflexivity. }
  destruct T as [w1 T]. destruct (A 1 _ w1 T) as (A1 & _).
  destruct (B (PlayResolve 1) eq_refl) as (armed & B1 & _).
  destruct (C Touch (or_intror (or_introl eq_refl))) as (C1 & _).
  split; [exact E0|]. split; [rewrite A1; vm_compute; reflexivity|].
  split; [vm_compute; reflexivity | exact C1].
Defined.

(** * Firing the unlock listeners *)

Lemma retries_succ first n :
  retries first (S n) = (first, EnableAudio) :: retries (S first) n.
Proof.
  unfold retries. cbn [seq map]. rewrite Nat.add_0_r. f_equal.
  rewrite <- seq_shift, map_map. apply map_ext. intro i.
  rewrite Nat.add_succ_r. reflexivity.
Qed.

Lemma enableAudio_video l w v :
  videoRef w = Some v ->
  videoRef (enableAudio l w) = Some (mkVideo (srcObject v) false 1%Q)
  /\ pendingPlay (enableAudio l w) = pendingPlay w ++ [(nextReq w, EnableAudio)]
  /\ nextReq (enableAudio l w) = S (nextReq w).
Proof. intro V. unfold enableAudio. rewrite V. cbn. auto. Qed.

Lemma enableAudio_novideo l w :
  videoRef w = None ->
  videoRef (enableAudio l w) = None
  /\ pendingPlay (enableAudio l w) = pendingPlay w.
Proof. intro V. unfold enableAudio. rewrite V. cbn. auto. Qed.

(** Every listener of a dispatch issues its own retry. *)
Lemma dispatch_video ls w v :
  videoRef w = Some v ->
  pendingPlay (dispatch ls w)
  = pendingPlay w ++ retries (nextReq w) (List.length ls)
  /\ videoRef (dispatch ls w)
     = Some (match ls with [] => v | _ => mkVideo (srcObject v) false 1%Q end).
Proof.
  unfold dispatch. revert w v. induction ls as [|l ls IH]; intros w v V.
  - cbn. rewrite app_nil_r. auto.
  - cbn [fold_left List.length].
    destruct (enableAudio_video l w v V) as (V1 & P1 & N1).
    destruct (IH _ _ V1) as (P & V').
    rewrite P, V', P1, N1, retries_succ, <- app_assoc. split; [reflexivity|].
    destruct ls; reflexivity.
Qed.

Lemma dispatch_novideo ls w :
  videoRef w = None ->
  videoRef (dispatch ls w) = None /\ pendingPlay (dispatch ls w) = pendingPlay w.
Proof.
  unfold dispatch. revert w. induction ls as [|l ls IH]; intros w V; [auto|].
  cbn [fold_left]. destruct (enableAudio_novideo l w V) as (V1 & P1).
  destruct (IH _ V1) as (V' & P). rewrite V', P, P1. auto.
Qed.

Section FiringAll.

Variable audioContext : nat -> option (list Z).

(** The render pass after a dispatch keeps the video element as the
    listeners left it. *)
Lemma fire_all w ls :
  at_rest audioContext w ->
  let w' := flush audioContext (dispatch ls w) in
  pendingPlay w' = pendingPlay (dispatch ls w)
  /\ videoRef w' = videoRef (dispatch ls w).
Proof.
  intros R w'. subst w'.
  pose proof (at_rest_settled audioContext w R) as Hs.
  assert (Hs' : settled (dispatch ls w)).
  { eapply agree_settled; [apply dispatch_fp | reflexivity | exact Hs]. }
  split; [exact (flush_settled_fp audioContext _ Hs' F_pendingPlay eq_refl)|].
  rewrite (flush_settled audioContext _ Hs').
  replace (mounted (dispatch ls w)) with (mounted w) by (symmetry; fp_eq F_mounted).
  destruct (mounted w) eqn:M; [|reflexivity].
  assert (Sh : videoShown (dispatch ls w) = videoShown w).
  { eapply videoShown_agree; [apply dispatch_fp | reflexivity]. }
  unfold commitRef. cbn [videoRef with_videoRef]. rewrite Sh.
  destruct (videoRef w) as [v|] eqn:V.
  - rewrite (at_rest_video audioContext w v R M V).
    destruct (dispatch_video ls w v V) as (_ & V'). rewrite V'. reflexivity.
  - rewrite (at_rest_novideo audioContext w R M V).
    destruct (dispatch_novideo ls w V) as (V' & _). rewrite V'. reflexivity.
Qed.

End FiringAll.

Lemma unmuted_video (v : Video) :
  muted v = false -> volume v = 1%Q -> mkVideo (srcObject v) false 1%Q = v.
Proof. destruct v; cbn. intros -> ->. reflexivity. Qed.

(** C7, as the code has it.  Whether a rejected [play()] arms a listener is
    decided by the attempt, not by the instance at the time of the rejection:
    a rejected [playVideo] attempt started while [isRemote] was true registers
    one [enableAudio] closure for both [click] and [touchstart], whatever
    [isRemote] is by then; a rejected attempt started while it was false, a
    rejected [play()] of [getLocalCamera] and a rejected retry register none.
    In a running world the next click or touch fires every armed listener:
    all click and touch registrations are removed in that handler run,
    before and whatever the retries settle to; if the video element is
    mounted it is unmuted and at full volume afterwards and each listener has
    issued exactly one [play()], so the interaction issues one retry per
    armed listener; if no video element is mounted (the guard of line 50)
    nothing is unmuted and nothing is retried.  The settlement of a [play()]
    removes no registration. *)
Theorem enableAudio_one_shot
    (audioContext : nat -> option (list Z)) (tracks : nat -> nat)
    (s : option nat) (r : bool) (tr : list Event) :
  let w := run audioContext tracks s r tr in
  (forall (w0 : World) id k w1, take_play id w0 = Some (k, w1) ->
     let w' := step audioContext w0 (PlayReject id) in
     match k with
     | PlayVideo true =>
         clickListeners w' = clickListeners w0 ++ [nextListener w0]
         /\ touchListeners w' = touchListeners w0 ++ [nextListener w0]
     | _ => clickListeners w' = clickListeners w0
            /\ touchListeners w' = touchListeners w0
     end)
  /\ (forall e, e = Click \/ e = Touch ->
        let w' := step audioContext w e in
        clickListeners w' = [] /\ touchListeners w' = []
        /\ match videoRef w with
           | Some v =>
               videoRef w' = Some (mkVideo (srcObject v) false 1%Q)
               /\ pendingPlay w'
                  = pendingPlay w
                    ++ retries (nextReq w) (List.length (clickListeners w))
           | None => videoRef w' = None /\ pendingPlay w' = pendingPlay w
           end)
  /\ (forall (w0 : World) id,
        clickListeners (step audioContext w0 (PlayResolve id)) = clickListeners w0
        /\ touchListeners (step audioContext w0 (PlayResolve id)) = touchListeners w0).
Proof.
  intro w. split; [|split].
  - intros w0 id k w1 T w'. subst w'.
    destruct (reject_listeners audioContext w0 id k w1 T) as [C Tc].
    rewrite C, Tc. destruct k as [[|]| |]; split; reflexivity.
  - intros e He w'.
    pose proof (at_rest_run audioContext tracks s r tr) as R. fold w in R.
    destruct (paired_run audioContext tracks s r tr) as (P & _). fold w in P.
    pose proof (unmuted_run audioContext tracks s r tr) as U. fold w in U.
    assert (Hw : w' = flush audioContext (dispatch (clickListeners w) w)).
    { subst w'. unfold step. destruct He; subst e; cbn [handle]; rewrite ?P; reflexivity. }
    destruct (fire_all audioContext w (clickListeners w) R) as (A & B).
    rewrite <- Hw in A, B.
    split; [|split].
    + rewrite Hw. transitivity (clickListeners (dispatch (clickListeners w) w));
        [fp_eq F_clickListeners|].
      rewrite dispatch_click.
      rewrite <- (app_nil_r (clickListeners w)) at 2. apply remove_first_fold_self.
    + rewrite Hw. transitivity (touchListeners (dispatch (clickListeners w) w));
        [fp_eq F_touchListeners|].
      rewrite dispatch_touch, P.
      rewrite <- (app_nil_r (clickListeners w)) at 2. apply remove_first_fold_self.
    + rewrite A, B. destruct (videoRef w) as [v|] eqn:V.
      * destruct (dispatch_video (clickListeners w) w v V) as (Pp & V').
        rewrite Pp, V'. split; [|reflexivity].
        destruct (U v V) as [Mu Vo].
        destruct (clickListeners w); [|reflexivity].
        rewrite (unmuted_video v Mu Vo). reflexivity.
      * exact (dispatch_novideo (clickListeners w) w V).
  - intros w0 id. rewrite step_clickListeners, step_touchListeners. split.
    + change (get F_clickListeners (handle audioContext w0 (PlayResolve id))
              = get F_clickListeners w0).
      eapply agree_get; [apply handle_fp | reflexivity].
    + change (get F_touchListeners (handle audioContext w0 (PlayResolve id))
              = get F_touchListeners w0).
      eapply agree_get; [apply handle_fp | reflexivity].
Qed.

Lemma enableAudio_one_shot_witness :
  let tr := [SetProps (Some 1) true; PlayReject 0; SetProps (Some 2) true; PlayReject 1] in
  let w := run silentAudio oneTrack None true tr in
  let w' := step silentAudio w Click in
  clickListeners w = [0; 1]
  /\ clickListeners w' = [] /\ touchListeners w' = []
  /\ videoRef w' = Some (mkVideo (Some 2) false 1%Q)
  /\ pendingPlay w' = [(2, EnableAudio); (3, EnableAudio)].
Proof.
  intros tr w w'.
  destruct (enableAudio_one_shot silentAudio oneTrack None true tr) as (_ & H & _).
  destruct (H Click (or_introl eq_refl)) as (A & B & C).
  fold w w' in A, B, C.
  assert (V : videoRef w = Some (mkVideo (Some 2) false 1%Q)) by (vm_compute; reflexivity).
  rewrite V in C. destruct C as (C & D).
  split; [vm_compute; reflexivity|]. split; [exact A|]. split; [exact B|].
  split; [exact C|]. rewrite D. vm_compute. reflexivity.
Defined.

(** C7 as stated fails in three ways.  A listener is armed on an instance
    that is no longer remote when the rejection of the attempt started as
    remote arrives; with two listeners armed one click issues two retries;
    and a listener fired while no video element is mounted unmutes nothing
    and retries nothing. *)
Lemma unlock_listener_outside_its_contract :
  (let w := run silentAudio oneTrack None true
              [SetProps (Some 1) true; SetProps (Some 1) false] in
   isRemote w = false /\ clickListeners w = []
   /\ clickListeners (step silentAudio w (PlayReject 0)) = [0]
   /\ touchListeners (step silentAudio w (PlayReject 0)) = [0])
  /\ (let w := run silentAudio oneTrack None true
                 [SetProps (Some 1) true; PlayReject 0;
                  SetProps (Some 2) true; PlayReject 1] in
      pendingPlay w = []
      /\ pendingPlay (step silentAudio w Click) = [(2, EnableAudio); (3, EnableAudio)])
  /\ (let w := run silentAudio oneTrack None true
                 [SetProps (Some 1) true; PlayReject 0; SetProps None false] in
      let w' := step silentAudio w Touch in
      clickListeners w = [0] /\ videoRef w = None
      /\ clickListeners w' = [] /\ videoRef w' = None
      /\ pendingPlay w' = pendingPlay w).
Proof. vm_compute. repeat split. Qed.

(** * Failed acquisitions and the stored stream *)

Section HeldStream.

Variable audioContext : nat -> option (list Z).

Lemma retryFailures_settled msgs w :
  settled w -> settled (retryFailures audioContext msgs w).
Proof.
  revert w. induction msgs as [|m msgs IH]; intros w Hs; cbn [retryFailures];
    [exact Hs|].
  cbv zeta. apply IH, settled_step.
Qed.

End HeldStream.

(** C8, as the code has it.  A rejected [getUserMedia] stores no stream and
    stops none: the stored local stream, the streams whose tracks were
    stopped and the analysis sessions are as before it.  The retry releases
    nothing either: [getLocalCamera] issues the next request with the stored
    local stream still held and its tracks running.  So after any number of
    consecutive failures, each retried from the error panel, the component
    holds exactly the local stream it held before the first of them, nothing
    was stopped and the retry button is offered again.  The stored stream is
    released later, by the cleanup of lines 224-230: when a request is at
    last granted another stream, and on unmount. *)
Theorem failed_acquisitions_leak_nothing
    (audioContext : nat -> option (list Z)) (w : World) :
  at_rest audioContext w ->
  (forall id msg,
     let w' := step audioContext w (GumReject id msg) in
     localStream w' = localStream w /\ stopped w' = stopped w
     /\ sessions w' = sessions w)
  /\ (retryShown w = true ->
      let w1 := step audioContext w RetryClick in
      pendingGum w1 = pendingGum w ++ [nextReq w]
      /\ localStream w1 = localStream w /\ stopped w1 = stopped w)
  /\ (forall msgs,
        retryShown w = true -> Forall (fun m => m <> EmptyString) msgs ->
        let w' := retryFailures audioContext msgs w in
        localStream w' = localStream w /\ stopped w' = stopped w
        /\ sessions w' = sessions w /\ retryShown w' = true
        /\ (forall s, localStream w <> Some s ->
              let w1 := step audioContext w' RetryClick in
              let w2 := step audioContext w1 (GumResolve (nextReq w') s) in
              stopped w1 = stopped w
              /\ localStream w2 = Some s
              /\ stopped w2 = stopped w ++ opt_list (localStream w))
        /\ stopped (step audioContext w' Unmount)
           = stopped w ++ opt_list (localStream w)).
Proof.
  intro R. pose proof (at_rest_settled audioContext w R) as Hs.
  split; [|split].
  - intros id msg w'. pose proof (step_reject_fp audioContext w id msg Hs) as A.
    fold w' in A.
    repeat split; [exact (A F_localStream eq_refl) | exact (A F_stopped eq_refl)
                  | exact (A F_sessions eq_refl)].
  - intros Sh w1. destruct (retry_issues_request audioContext w Hs Sh) as (P & _ & _).
    fold w1 in P. pose proof (step_retry_fp audioContext w Hs) as A. fold w1 in A.
    repeat split; [exact P | exact (A F_localStream eq_refl) | exact (A F_stopped eq_refl)].
  - intros msgs Sh F w'.
    destruct (retryFailures_fp audioContext msgs w Hs Sh F) as (A & Sh'). fold w' in A, Sh'.
    pose proof (retryFailures_settled audioContext msgs w Hs) as Hs'. fold w' in Hs'.
    assert (L : localStream w' = localStream w) by exact (A F_localStream eq_refl).
    assert (St : stopped w' = stopped w) by exact (A F_stopped eq_refl).
    assert (M : mounted w' = true).
    { unfold retryShown in Sh'. destruct (mounted w'); [reflexivity | discriminate]. }
    split; [exact L|]. split; [exact St|].
    split; [exact (A F_sessions eq_refl)|]. split; [exact Sh'|]. split.
    + intros s N w1 w2.
      destruct (retry_issues_request audioContext w' Hs' Sh') as (P & M1 & Hs1).
      fold w1 in P, M1, Hs1.
      pose proof (step_retry_fp audioContext w' Hs') as A1. fold w1 in A1.
      assert (L1 : localStream w1 = localStream w)
        by (rewrite <- L; exact (A1 F_localStream eq_refl)).
      assert (St1 : stopped w1 = stopped w)
        by (rewrite <- St; exact (A1 F_stopped eq_refl)).
      assert (P1 : existsb (Nat.eqb (nextReq w')) (pendingGum w1) = true).
      { rewrite P, existsb_app. cbn. rewrite Nat.eqb_refl. apply orb_true_iff. auto. }
      split; [exact St1|]. split.
      * subst w2. rewrite step_localStream_eq, M1, P1. reflexivity.
      * subst w2. rewrite (step_stopped_eq audioContext w1 _ Hs1). cbn [released].
        rewrite M1, P1, L1, St1. cbn [andb].
        destruct (opt_eqb (localStream w) (Some s)) eqn:E; [|reflexivity].
        apply opt_eqb_eq in E. contradiction.
    + rewrite (step_stopped_eq audioContext w' _ Hs'). cbn [released].
      rewrite M, L, St. reflexivity.
Qed.

Lemma failed_acquisitions_leak_nothing_witness :
  let w := run silentAudio oneTrack None false
             [GumResolve 0 9; SetProps (Some 5) false; SetProps None false;
              GumReject 2 "NotAllowedError"] in
  let w' := retryFailures silentAudio ["NotReadableError"; "AbortError"]%string w in
  let w1 := step silentAudio w' RetryClick in
  localStream w = Some 9
  /\ localStream w' = Some 9 /\ stopped w' = [] /\ retryShown w' = true
  /\ stopped w1 = []
  /\ stopped (step silentAudio w1 (GumResolve (nextReq w') 10)) = [9]
  /\ stopped (step silentAudio w' Unmount) = [9].
Proof.
  intros w w' w1.
  assert (R : at_rest silentAudio w) by (vm_compute; reflexivity).
  assert (Sh : retryShown w = true) by (vm_compute; reflexivity).
  assert (L : localStream w = Some 9) by (vm_compute; reflexivity).
  assert (S0 : stopped w = []) by (vm_compute; reflexivity).
  assert (Fm : Forall (fun m => m <> EmptyString) ["NotReadableError"; "AbortError"]%string)
    by (repeat constructor; discriminate).
  pose proof (proj2 (proj2 (failed_acquisitions_leak_nothing silentAudio w R))
                ["NotReadableError"; "AbortError"]%string Sh Fm) as H.
  cbv zeta in H. fold w' in H. destruct H as (A & B & _ & D & E & F).
  assert (N : localStream w <> Some 10) by (rewrite L; discriminate).
  destruct (E 10 N) as (E1 & _ & E2). fold w1 in E1, E2.
  rewrite L, S0 in *.
  split; [reflexivity|]. split; [exact A|]. split; [exact B|]. split; [exact D|].
  split; [exact E1|]. split; [exact E2 | exact F].
Defined.

(** C8 as stated fails: the retry issues its request while the local stream
    stored earlier is still held, and stops nothing; the stream is released
    only after another one has been granted. *)
Lemma retry_releases_nothing :
  let w := run silentAudio oneTrack None false
             [GumResolve 0 9; SetProps (Some 5) false; SetProps None false;
              GumReject 2 "NotAllowedError"] in
  let w1 := step silentAudio w RetryClick in
  let w2 := step silentAudio w1 (GumResolve 3 10) in
  retryShown w = true /\ localStream w = Some 9
  /\ pendingGum w1 = [3] /\ localStream w1 = Some 9 /\ stopped w1 = []
  /\ localStream w2 = Some 10 /\ stopped w2 = [9].
Proof. vm_compute. repeat split. Qed.

(** * Analysis that cannot start, and the sessions that can *)

Lemma detectVolume_In sid sp w x :
  In x (sessions (detectVolume sid sp w)) ->
  exists y, In y (sessions w) /\ sess_id x = sess_id y /\ sess_stream x = sess_stream y.
Proof.
  unfold detectVolume. destruct (find_session sid w) as [s|] eqn:F; [|eauto].
  destruct (detectVolume_in_effect s sp w _ eq_refl) as (_ & _ & _ & Es & _).
  rewrite Es. clear Es. apply find_session_In in F. destruct F as [Hin _].
  intro H. apply in_map_iff in H. destruct H as [y [E Hy]].
  destruct (Nat.eqb (sess_id y) (sess_id s)).
  - exists s. subst x. cbn. auto.
  - exists y. subst x. auto.
Qed.

Lemma streamEffect_supplied_fp w :
  isSome (stream w) = true ->
  agree [F_console; F_videoRef; F_pendingPlay; F_nextReq] w (streamEffect w).
Proof.
  intro S. unfold streamEffect.
  destruct (stream w); [|discriminate]. destruct (videoRef w); footprint.
Qed.

Section Absorbed.

Variable audioContext : nat -> option (list Z).

(** *** Sessions come from analysers that were built *)

Lemma built_agree fs w w' :
  agree fs w w' -> inb F_sessions fs = false ->
  built_inv audioContext w -> built_inv audioContext w'.
Proof.
  intros A Hf B x Hx. apply B.
  rewrite <- (A F_sessions Hf : sessions w' = sessions w). exact Hx.
Qed.

Lemma built_detectVolume sid sp w :
  built_inv audioContext w -> built_inv audioContext (detectVolume sid sp w).
Proof.
  intros B x Hx. destruct (detectVolume_In sid sp w x Hx) as (y & Hy & E & _).
  rewrite E. apply B, Hy.
Qed.

Lemma built_setup s w :
  built_inv audioContext w -> built_inv audioContext (setupAudioAnalyser audioContext s w).
Proof.
  intro B. unfold setupAudioAnalyser. cbv zeta.
  destruct (audioContext (setupCalls w)) as [sp|] eqn:C.
  - destruct (Nat.eqb _ _).
    + revert B. refine (built_agree _ _ _ _ _); [fp_chain | vm_compute; reflexivity].
    + apply built_detectVolume. intros x Hx. cbn in Hx.
      apply in_app_or in Hx. destruct Hx as [Hx|[<-|[]]]; [apply B, Hx|].
      cbn. eauto.
  - revert B. refine (built_agree _ _ _ _ _); [fp_chain | vm_compute; reflexivity].
Qed.

Lemma built_path w w' :
  audio_path audioContext w w' -> built_inv audioContext w -> built_inv audioContext w'.
Proof.
  induction 1 as [w|w x y fs P IH A C|w x s P IH|w x sid sp P IH]; intro Hw; auto.
  - eapply built_agree; [exact A | | auto].
    apply (audioCells_out fs F_sessions C). cbn. tauto.
  - apply built_setup; auto.
  - apply built_detectVolume; auto.
Qed.

Lemma built_step w e :
  built_inv audioContext w -> built_inv audioContext (step audioContext w e).
Proof.
  intro H. destruct (isTimerFire e) eqn:T.
  - destruct e; try discriminate T.
    eapply built_path; [apply step_fire_ap|].
    destruct (timer_due t w); [|exact H].
    revert H. refine (built_agree _ _ _ _ _); [fp_chain | vm_compute; reflexivity].
  - destruct (isTrackChange e) eqn:C.
    + destruct e; try discriminate C.
      eapply built_path; [apply step_track_ap|].
      eapply built_agree; [apply handle_fp | reflexivity | exact H].
    + eapply built_path; [apply step_ap; assumption | exact H].
Qed.

Lemma built_run tracks s r tr : built_inv audioContext (run audioContext tracks s r tr).
Proof.
  unfold run. induction tr as [|e tr IHtr] using rev_ind.
  - cbn [fold_left]. unfold mount. eapply built_path; [apply flush_ap, ap_nil|].
    intros x [].
  - rewrite fold_left_app. apply built_step, IHtr.
Qed.

(** *** A stream without audio track gets no session *)

Lemma silent_agree c fs w w' :
  agree fs w w' -> inb F_sessions fs = false -> inb F_audioTracks fs = false ->
  silent_inv c w -> silent_inv c w'.
Proof.
  intros A H1 H2 [T B]. unfold silent_inv.
  rewrite (A F_sessions H1 : sessions w' = sessions w).
  rewrite (A F_audioTracks H2 : audioTracks w' = audioTracks w). auto.
Qed.

Lemma silent_detectVolume c sid sp w :
  silent_inv c w -> silent_inv c (detectVolume sid sp w).
Proof.
  intros [T B]. split.
  - rewrite (detectVolume_fp sid sp w F_audioTracks eq_refl
             : audioTracks (detectVolume sid sp w) = audioTracks w).
    exact T.
  - intros x Hx. destruct (detectVolume_In sid sp w x Hx) as (y & Hy & _ & E).
    rewrite E. apply B, Hy.
Qed.

Lemma silent_setup c s w :
  silent_inv c w -> silent_inv c (setupAudioAnalyser audioContext s w).
Proof.
  intro H. unfold setupAudioAnalyser. cbv zeta.
  destruct (audioContext (setupCalls w)) as [sp|] eqn:C.
  - cbn [audioTracks with_setupCalls].
    destruct (Nat.eqb (audioTracks w s) 0) eqn:E.
    + revert H. refine (silent_agree c _ _ _ _ _ _);
        [fp_chain | vm_compute; reflexivity | vm_compute; reflexivity].
    + apply silent_detectVolume. destruct H as [T B]. split; [exact T|].
      intros x Hx. cbn in Hx.
      apply in_app_or in Hx. destruct Hx as [Hx|[<-|[]]]; [apply B, Hx|].
      cbn. intros ->. rewrite T in E. discriminate.
  - revert H. refine (silent_agree c _ _ _ _ _ _);
      [fp_chain | vm_compute; reflexivity | vm_compute; reflexivity].
Qed.

Lemma silent_path c w w' :
  audio_path audioContext w w' -> silent_inv c w -> silent_inv c w'.
Proof.
  induction 1 as [w|w x y fs P IH A C|w x s P IH|w x sid sp P IH]; intro Hw; auto.
  - eapply silent_agree; [exact A | | | auto].
    + apply (audioCells_out fs F_sessions C). cbn. tauto.
    + apply (audioCells_out fs F_audioTracks C). cbn. tauto.
  - apply silent_setup; auto.
  - apply silent_detectVolume; auto.
Qed.

Lemma silent_step c w e :
  keepsSilent c e = true ->
  silent_inv c w -> silent_inv c (step audioContext w e).
Proof.
  intros Q H. destruct (isTimerFire e) eqn:T.
  - destruct e; try discriminate T.
    eapply silent_path; [apply step_fire_ap|].
    destruct (timer_due t w); [|exact H].
    revert H. refine (silent_agree c _ _ _ _ _ _);
      [fp_chain | vm_compute; reflexivity | vm_compute; reflexivity].
  - destruct (isTrackChange e) eqn:C.
    + destruct e; try discriminate C.
      eapply silent_path; [apply step_track_ap|].
      cbn [handle]. cbv zeta. destruct H as [Tc B].
      set (w1 := with_audioTracks _ w).
      assert (A : agree [F_console] w1
                    (fold_left
                       (fun acc c0 =>
                          if Nat.eqb c0 s
                          then log (LogTracks (isRemote w) s audio) acc else acc)
                       (trackListeners w) w1)) by apply trackLog_fp.
      refine (silent_agree c _ _ _ A eq_refl eq_refl _).
      split; [|exact B]. subst w1. cbn. cbn in Q.
      destruct (Nat.eqb c s) eqn:E; [|exact Tc].
      apply Nat.eqb_eq in E. subst s. rewrite Nat.eqb_refl in Q. cbn in Q.
      apply Nat.eqb_eq in Q. exact Q.
    + eapply silent_path; [apply step_ap; assumption | exact H].
Qed.

Lemma silent_run c tracks s r tr :
  tracks c = 0 -> forallb (keepsSilent c) tr = true ->
  silent_inv c (run audioContext tracks s r tr).
Proof.
  intro T. unfold run. induction tr as [|e tr IHtr] using rev_ind; intro Q.
  - cbn [fold_left]. unfold mount. eapply silent_path; [apply flush_ap, ap_nil|].
    split; [exact T | intros x []].
  - rewrite forallb_app in Q. apply andb_prop in Q. destruct Q as [Q1 Q2].
    cbn in Q2. rewrite andb_true_r in Q2.
    rewrite fold_left_app. apply silent_step; auto.
Qed.

(** *** A supplied stream is presented whatever the analysis does *)

Lemma runEffects_supplied_fp w :
  isSome (stream w) = true ->
  agree ([F_trackListeners; F_stopped; F_committed; F_console; F_videoRef;
          F_pendingPlay; F_nextReq] ++ audioFP)
    w (runEffects audioContext w).
Proof.
  intro S. unfold runEffects. cbv zeta.
  set (w2 := if localDepsChanged _ _ then _ else _).
  assert (A2 : agree [F_trackListeners; F_stopped] w w2).
  { subst w2. destruct (localDepsChanged _ _), (allDepsChanged _ _); footprint. }
  assert (S2 : isSome (stream w2) = true).
  { rewrite <- S. f_equal. exact (A2 F_stream eq_refl). }
  set (w3 := if streamDepsChanged _ _ then streamEffect w2 else w2).
  assert (A3 : agree [F_console; F_videoRef; F_pendingPlay; F_nextReq] w2 w3).
  { subst w3. destruct (streamDepsChanged _ _);
      [apply streamEffect_supplied_fp, S2|].
    eapply agree_weaken; [apply agree_refl | reflexivity]. }
  clearbody w3 w2.
  eapply agree_weaken.
  - refine (agree_trans _ ([F_committed; F_trackListeners] ++ audioFP) _ _ _
              (agree_trans _ _ _ _ _ A2 A3) _).
    destruct (allDepsChanged _ _); footprint.
  - vm_compute. reflexivity.
Qed.

Lemma supplied_presentation w c r :
  mounted w = true -> isLoading w = false -> truthy (error w) = false ->
  presentation (step audioContext w (SetProps (Some c) r)) = Playing.
Proof.
  intros M L Er. unfold step. cbn [handle]. rewrite M. unfold flush.
  set (h := with_isRemote r (with_stream (Some c) w)).
  replace (mounted h) with true by (symmetry; exact M).
  set (x := commitRef h).
  pose proof (runEffects_supplied_fp x eq_refl) as A.
  set (y := runEffects audioContext x) in *.
  assert (Ly : isLoading (commitRef y) = false)
    by (rewrite <- L; exact (A F_isLoading eq_refl)).
  assert (Ey : error (commitRef y) = error w) by exact (A F_error eq_refl).
  assert (Sy : stream (commitRef y) = Some c) by exact (A F_stream eq_refl).
  unfold presentation. rewrite Ly, Ey, Sy.
  destruct (error w) as [[|a m]|]; cbn in *; [reflexivity | discriminate | reflexivity].
Qed.

End Absorbed.



